(** * DateRangeIntervals: a shallow embedding of [src/DateRangeIntervals.js]

    The development follows the JavaScript source.  The ECMAScript time
    arithmetic the source calls ([Date.prototype.setUTC*], [getUTC*]) is
    embedded first, then the constructor [DateRangeIntervals], its iterator,
    [DateRangeInterval], [DateRangeIntervalVisitor] and the asynchronous
    [accept] traversal.

    - A time value is an integer or [NaN] ([option Z]).
    - A call ends in a [completion]: normally, by a throw, or not at all.
      A loop of the source is a function on a number of turns; the number
      it is given is shown to suffice wherever the loop ends.
    - [accept] is an [async] function: its result is the promise, settled,
      together with the visitor as the traversal leaves it and the trace of
      what the traversal did.
    - The [Date] objects are first kept by their time values; module
      [Heap] reads the constructor and the iterator again with the objects
      in a store, for what depends on which object is which.
    - Module [Variant] embeds the earlier version of the source that the
      repository also holds.

    The definitions come first, the properties after them. *)

From Stdlib Require Import ZArith Lia Bool.
From stdpp Require Import base option list strings.

Local Open Scope Z_scope.

(** ** ECMAScript time values

    A time value is a number of milliseconds since the epoch, or [NaN].
    Every finite value a [Date] can hold is an integer of magnitude at most
    8.64e15 < 2^53, and every intermediate result of the setters used by the
    source stays below 2^53, so the IEEE doubles of the language are exact
    here and are embedded as [Z]; [None] is [NaN]. *)

Module JSDate.

Definition tv := option Z.

Definition msPerSecond : Z := 1000.
Definition msPerMinute : Z := 60000.
Definition msPerHour : Z := 3600000.
Definition msPerDay : Z := 86400000.
Definition maxTime : Z := 8640000000000000.

(** ECMA-262 [Day(t)] and [TimeWithinDay(t)]: floor division and the
    non-negative remainder. *)
Definition Day (t : Z) : Z := t / msPerDay.
Definition TimeWithinDay (t : Z) : Z := t mod msPerDay.

Definition DaysInYear (y : Z) : Z :=
  if negb (y mod 4 =? 0) then 365
  else if negb (y mod 100 =? 0) then 366
  else if negb (y mod 400 =? 0) then 365
  else 366.

Definition DayFromYear (y : Z) : Z :=
  365 * (y - 1970) + (y - 1969) / 4 - (y - 1901) / 100 + (y - 1601) / 400.

Definition TimeFromYear (y : Z) : Z := msPerDay * DayFromYear y.

(** [YearFromTime(t)] is the largest [y] with [TimeFromYear(y) <= t]
    (lemma [YearFromTime_spec]); it is computed from the mean length of a
    Gregorian year and corrected by at most one year. *)
Definition YearFromTime (t : Z) : Z :=
  let d := Day t in
  let y := 1970 + (d * 400) / 146097 in
  if d <? DayFromYear y then y - 1
  else if DayFromYear (y + 1) <=? d then y + 1
  else y.

Definition InLeapYear_of_year (y : Z) : Z := if DaysInYear y =? 366 then 1 else 0.
Definition InLeapYear (t : Z) : Z := InLeapYear_of_year (YearFromTime t).

Definition DayWithinYear (t : Z) : Z := Day t - DayFromYear (YearFromTime t).

(** Day number, within its year, of the first day of month [m] (0 = January). *)
Definition monthStart (m leap : Z) : Z :=
  match m with
  | 0 => 0
  | 1 => 31
  | 2 => 59 + leap
  | 3 => 90 + leap
  | 4 => 120 + leap
  | 5 => 151 + leap
  | 6 => 181 + leap
  | 7 => 212 + leap
  | 8 => 243 + leap
  | 9 => 273 + leap
  | 10 => 304 + leap
  | _ => 334 + leap
  end.

Definition month_of_day (dwy leap : Z) : Z :=
  if dwy <? 31 then 0
  else if dwy <? 59 + leap then 1
  else if dwy <? 90 + leap then 2
  else if dwy <? 120 + leap then 3
  else if dwy <? 151 + leap then 4
  else if dwy <? 181 + leap then 5
  else if dwy <? 212 + leap then 6
  else if dwy <? 243 + leap then 7
  else if dwy <? 273 + leap then 8
  else if dwy <? 304 + leap then 9
  else if dwy <? 334 + leap then 10
  else 11.

Definition MonthFromTime (t : Z) : Z := month_of_day (DayWithinYear t) (InLeapYear t).

Definition DateFromTime (t : Z) : Z :=
  DayWithinYear t - monthStart (MonthFromTime t) (InLeapYear t) + 1.

Definition HourFromTime (t : Z) : Z := (t / msPerHour) mod 24.
Definition MinFromTime (t : Z) : Z := (t / msPerMinute) mod 60.
Definition SecFromTime (t : Z) : Z := (t / msPerSecond) mod 60.
Definition msFromTime (t : Z) : Z := t mod msPerSecond.

Definition MakeTime (hour min sec ms : Z) : Z :=
  hour * msPerHour + min * msPerMinute + sec * msPerSecond + ms.

(** [MakeDay(year, month, date)]: the day number of the first day of month
    [month mod 12] of year [year + floor(month / 12)], plus [date - 1]. *)
Definition MakeDay (year month date : Z) : Z :=
  let ym := year + month / 12 in
  let mn := month mod 12 in
  DayFromYear ym + monthStart mn (InLeapYear_of_year ym) + date - 1.

Definition MakeDate (day time : Z) : Z := day * msPerDay + time.

Definition TimeClip (time : Z) : tv :=
  if maxTime <? Z.abs time then None else Some time.

(** The getters and setters the source uses, on a finite time value [t]
    (the cursor is finite whenever the source advances it). *)
Definition getUTCSeconds (t : Z) : Z := SecFromTime t.
Definition getUTCMinutes (t : Z) : Z := MinFromTime t.
Definition getUTCHours (t : Z) : Z := HourFromTime t.
Definition getUTCDate (t : Z) : Z := DateFromTime t.
Definition getUTCMonth (t : Z) : Z := MonthFromTime t.
Definition getUTCFullYear (t : Z) : Z := YearFromTime t.

Definition setUTCSeconds (t sec : Z) : tv :=
  TimeClip (MakeDate (Day t)
    (MakeTime (HourFromTime t) (MinFromTime t) sec (msFromTime t))).

Definition setUTCMinutes (t min : Z) : tv :=
  TimeClip (MakeDate (Day t)
    (MakeTime (HourFromTime t) min (SecFromTime t) (msFromTime t))).

Definition setUTCHours (t hour : Z) : tv :=
  TimeClip (MakeDate (Day t)
    (MakeTime hour (MinFromTime t) (SecFromTime t) (msFromTime t))).

Definition setUTCDate (t date : Z) : tv :=
  TimeClip (MakeDate (MakeDay (YearFromTime t) (MonthFromTime t) date)
    (TimeWithinDay t)).

Definition setUTCMonth (t month : Z) : tv :=
  TimeClip (MakeDate (MakeDay (YearFromTime t) month (DateFromTime t))
    (TimeWithinDay t)).

Definition setUTCFullYear (t year : Z) : tv :=
  TimeClip (MakeDate (MakeDay year (MonthFromTime t) (DateFromTime t))
    (TimeWithinDay t)).

(** Relational comparison of two [Date] objects, through [valueOf]:
    any comparison with [NaN] is false. *)
Definition lt (a b : tv) : bool :=
  match a, b with
  | Some x, Some y => x <? y
  | _, _ => false
  end.

Definition ge (a b : tv) : bool :=
  match a, b with
  | Some x, Some y => y <=? x
  | _, _ => false
  end.

(** Strict equality of two [getTime()] results: [NaN === NaN] is false. *)
Definition strict_eq (a b : tv) : bool :=
  match a, b with
  | Some x, Some y => x =? y
  | _, _ => false
  end.

End JSDate.

Import JSDate.

(** ** JavaScript values and completions *)

(** The arguments the constructor documents ([Date|number|string]) and the
    primitives a caller can pass instead.  Numbers are the integers and
    [NaN] (a fractional number is truncated by [TimeClip], an infinity
    becomes [NaN], and neither is kept apart here). *)
Inductive value : Type :=
| VUndefined
| VNull
| VBool (b : bool)
| VNum (n : option Z)
| VStr (s : string)
| VDate (t : tv).

(** What a [throw] carries: an [Error] object with its [name] and [message],
    one of the values above, or another object.  Of another object only the
    property [message] is ever used, and only to be printed: either it is
    not there ([None]) or it turns into a string ([ThrownObject]), or
    reading it or turning it into a string throws in its turn
    ([Unreadable]: a getter that throws, a [Symbol], an object whose
    [toString] throws), and then [x] is what is thrown.  The errors of the
    source carry the messages of the source; for the errors the engine
    throws the message is V8's, and nothing depends on its text. *)
Inductive thrown : Type :=
| JSError (name message : string)
| ThrownValue (v : value)
| ThrownObject (message : option string)
| Unreadable (x : thrown).

(** How a call ends: normally, by a [throw], or not at all. *)
Inductive completion (A : Type) : Type :=
| Normal (a : A)
| Throw (e : thrown)
| Diverge.
Arguments Normal {A} a.
Arguments Throw {A} e.
Arguments Diverge {A}.

Definition ToBoolean (v : value) : bool :=
  match v with
  | VUndefined | VNull => false
  | VBool b => b
  | VNum None => false
  | VNum (Some n) => negb (n =? 0)
  | VStr s => negb (String.eqb s "")
  | VDate _ => true
  end.

Definition ToNumber (v : value) : option Z :=
  match v with
  | VNull => Some 0
  | VBool b => Some (if b then 1 else 0)
  | VNum n => n
  | _ => None
  end.

(** ** The granularities and the two lookup tables of the constructor *)

Inductive Granularity : Type :=
| Second | Minute | Hour | Day_ | Week | Month | Quarter | Year.

Definition granularity_name (u : Granularity) : string :=
  match u with
  | Second => "second" | Minute => "minute" | Hour => "hour" | Day_ => "day"
  | Week => "week" | Month => "month" | Quarter => "quarter" | Year => "year"
  end.

Definition own_key (interval : string) : option Granularity :=
  if String.eqb interval "second" then Some Second
  else if String.eqb interval "minute" then Some Minute
  else if String.eqb interval "hour" then Some Hour
  else if String.eqb interval "day" then Some Day_
  else if String.eqb interval "week" then Some Week
  else if String.eqb interval "month" then Some Month
  else if String.eqb interval "quarter" then Some Quarter
  else if String.eqb interval "year" then Some Year
  else None.

(** An object literal inherits from [Object.prototype]: indexing it with one
    of these names finds the inherited member, not [undefined]. *)
Definition Object_prototype_keys : list string :=
  [ "constructor"; "toString"; "isPrototypeOf"; "hasOwnProperty";
    "propertyIsEnumerable"; "valueOf"; "toLocaleString"; "__proto__";
    "__defineGetter__"; "__defineSetter__"; "__lookupGetter__";
    "__lookupSetter__" ].

(** Called with no receiver and no argument, [Object], [toString] and
    [isPrototypeOf] return; the other members throw a [TypeError]
    ([__proto__] is not callable at all). *)
Definition inherited_call_returns (key : string) : bool :=
  String.eqb key "constructor" || String.eqb key "toString"
  || String.eqb key "isPrototypeOf".

Inductive table_entry : Type :=
| Own (u : Granularity)
| Inherited (key : string)
| Absent.

(** [{'second': ..., ..., 'year': ...}[interval]] *)
Definition advanceByInterval_entry (interval : string) : table_entry :=
  match own_key interval with
  | Some u => Own u
  | None =>
      if existsb (String.eqb interval) Object_prototype_keys
      then Inherited interval else Absent
  end.

(** [{'minute': 'second', ..., 'year': 'month'}[interval]], for the names
    the constructor accepts. *)
Definition lowerInterval_of (interval : string) : option string :=
  match own_key interval with
  | Some Minute => Some "second"
  | Some Hour => Some "minute"
  | Some Day_ => Some "hour"
  | Some Week => Some "day"
  | Some Month => Some "day"
  | Some Quarter => Some "month"
  | Some Year => Some "month"
  | _ => None
  end.

(** The arrow functions of [advanceByInterval], applied to the time value
    of [curDate]; the result is the new time value of [curDate]. *)
Definition advance (u : Granularity) (t : Z) : tv :=
  match u with
  | Second => setUTCSeconds t (getUTCSeconds t + 1)
  | Minute => setUTCMinutes t (getUTCMinutes t + 1)
  | Hour => setUTCHours t (getUTCHours t + 1)
  | Day_ => setUTCDate t (getUTCDate t + 1)
  | Week => setUTCDate t (getUTCDate t + 7)
  | Month => setUTCMonth t (getUTCMonth t + 1)
  | Quarter => setUTCMonth t (getUTCMonth t + 3)
  | Year => setUTCFullYear t (getUTCFullYear t + 1)
  end.

(** [advanceByInterval()]: the call of whatever the lookup found. *)
Definition call_entry (e : table_entry) (t : Z) : completion tv :=
  match e with
  | Own u => Normal (advance u t)
  | Inherited key =>
      if inherited_call_returns key then Normal (Some t)
      else Throw (JSError "TypeError" "not callable without a receiver")
  | Absent => Throw (JSError "TypeError" "advanceByInterval is not a function")
  end.

(** A lower bound, in milliseconds, on what one advance adds; it bounds the
    number of turns of the constructor's loop. *)
Definition minStep (u : Granularity) : Z :=
  match u with
  | Second => msPerSecond
  | Minute => msPerMinute
  | Hour => msPerHour
  | Day_ => msPerDay
  | Week => 7 * msPerDay
  | Month | Quarter | Year => 28 * msPerDay
  end.

(** The units whose advance is a fixed number of milliseconds. *)
Definition fixed_length (u : Granularity) : bool :=
  match u with
  | Second | Minute | Hour | Day_ | Week => true
  | Month | Quarter | Year => false
  end.

(** Days in month [m] (0 = January), in a leap year ([leap] = 1) or not. *)
Definition DaysInMonth (m leap : Z) : Z :=
  match m with
  | 1 => 28 + leap
  | 3 | 5 | 8 | 10 => 30
  | _ => 31
  end.

(** The least and the greatest number of days that one advance spans, for
    the units that are made of whole days. *)
Definition day_span (u : Granularity) : option (Z * Z) :=
  match u with
  | Day_ => Some (1, 1)
  | Week => Some (7, 7)
  | Month => Some (28, 31)
  | Quarter => Some (89, 92)
  | Year => Some (365, 366)
  | _ => None
  end.

(** The number of months that one advance of a calendar unit asks for. *)
Definition months_of (u : Granularity) : option Z :=
  match u with
  | Month => Some 1
  | Quarter => Some 3
  | Year => Some 12
  | _ => None
  end.

(** The months since year 0 of the month an instant lies in. *)
Definition month_index (t : Z) : Z := 12 * YearFromTime t + MonthFromTime t.

(** The instant [j] months after [t], on the same date and at the same time
    of day. *)
Definition months_later (t j : Z) : Z :=
  MakeDate (MakeDay (YearFromTime t) (MonthFromTime t + j) (DateFromTime t))
    (TimeWithinDay t).

(** What an advance leaves of an instant: the milliseconds below the unit
    for the second, the minute and the hour, and the time within the day
    for the other units. *)
Definition phase (u : Granularity) (t : Z) : Z :=
  match u with
  | Second => t mod msPerSecond
  | Minute => t mod msPerMinute
  | Hour => t mod msPerHour
  | _ => TimeWithinDay t
  end.

(** The number of intervals of the next finer unit in one interval of a
    unit that starts at [t]. *)
Definition parts_of (u : Granularity) (t : Z) : option Z :=
  match u with
  | Second => None
  | Minute | Hour => Some 60
  | Day_ => Some 24
  | Week => Some 7
  | Month => Some (DaysInMonth (MonthFromTime t) (InLeapYear t))
  | Quarter => Some 3
  | Year => Some 12
  end.

(** The cursor advanced [n] times ([NaN] stays [NaN]). *)
Fixpoint advance_n (u : Granularity) (n : nat) (t : tv) : tv :=
  match n with
  | O => t
  | S n' => advance_n u n' (t ≫= advance u)
  end.

(** ** The interval set *)

(** The object the constructor builds.  [segments] and [lowerInterval] are
    closure variables of the source, the other fields are the properties
    defined on [this].  The dates are kept by their time values; module
    [Heap] below keeps them as the objects they are. *)
Record IntervalSet : Type := {
  segments : list Z;
  lowerInterval : option string;
  start : Z;
  end_ : Z;
  interval : string;
  isEquipartition : bool;
  length_ : Z
}.

Record DateRangeInterval : Type := {
  i_start : tv;
  i_end : tv;
  i_interval : string
}.

(** The messages the source hands to its logger, by what they are built
    from: the debug message of the constructor, the message before each
    call of the callback, the debug message before a descent, and the error
    message of the [catch] block.  A date printed with [toISOString] is
    kept as its time value; the message of the descent prints its dates
    with [toString], which also prints an invalid date. *)
Inductive log_entry : Type :=
| LogCreated (n : Z) (interval : string) (start end_ : Z)
| LogVisiting (start end_ : Z)
| LogRecursing (lower : string) (start end_ : tv)
| LogVisitorError (depth : Z) (interval : string) (start end_ : Z)
    (message : option string).

(** [while(curDate < endDate){ segments.push(new Date(curDate));
    advanceByInterval(); }]: the result is [segments] and the final cursor.
    [None] when [fuel] turns were not enough. *)
Fixpoint segments_loop (fuel : nat) (e : table_entry) (endDate : Z)
    (curDate : tv) (segments : list Z) : option (completion (list Z * tv)) :=
  match curDate with
  | Some c =>
      if c <? endDate then
        match fuel with
        | O => None
        | S fuel' =>
            match call_entry e c with
            | Normal cur' => segments_loop fuel' e endDate cur' (segments ++ [c])
            | Throw err => Some (Throw err)
            | Diverge => Some Diverge
            end
        end
      else Some (Normal (segments, curDate))
  | None => Some (Normal (segments, curDate))
  end.

(** Turns that suffice for the loop to end when it ends at all: an own
    entry adds at least [minStep] each turn (lemma [advance_minStep]); an
    inherited member throws at the first turn or never moves the cursor, and
    then no number of turns is enough (lemma [segments_loop_inherited]). *)
Definition loop_fuel (e : table_entry) (startDate endDate : Z) : nat :=
  match e with
  | Own u => S (Z.to_nat ((endDate - startDate) / minStep u))
  | _ => 1%nat
  end.

Definition invalid_interval_message (interval : string) : string :=
  "Invalid interval '" +:+ interval +:+ "' provided.".

(** The debug message the constructor logs before it defines the
    properties. *)
Definition construction_log (s : IntervalSet) : log_entry :=
  LogCreated (Z.of_nat (length (segments s)) - 1) (interval s) (start s) (end_ s).

(** [new DateRangeInterval(start, end, interval)]: both dates are copied. *)
Definition DateRangeInterval_new (start end_ : tv) (interval : string)
    : DateRangeInterval :=
  {| i_start := start; i_end := end_; i_interval := interval |}.

(** [for(let i = 0; i < segments.length-1; i++) yield new
    DateRangeInterval(segments[i], segments[i + 1], interval)] *)
Fixpoint iterate_from (segs : list Z) (interval : string) : list DateRangeInterval :=
  match segs with
  | a :: (b :: _) as rest =>
      DateRangeInterval_new (Some a) (Some b) interval :: iterate_from rest interval
  | _ => []
  end.

Definition iterate (s : IntervalSet) : list DateRangeInterval :=
  iterate_from (segments s) (interval s).

(** ** The visitor *)

(** The writable properties of a visitor: [depth], [subIntervals], and
    whatever the caller attached to the object ([attached]). *)
Record VisitorFields (St : Type) : Type := {
  depth : Z;
  subIntervals : bool;
  attached : St
}.
Arguments depth {St} _.
Arguments subIntervals {St} _.
Arguments attached {St} _.

Definition set_depth {St} (v : VisitorFields St) (d : Z) : VisitorFields St :=
  {| depth := d; subIntervals := subIntervals v; attached := attached v |}.

(** What [await visitor.visit(interval)] gives: a value, of which only the
    truthiness is used, or a throw (a rejected promise is thrown by
    [await]). *)
Inductive outcome : Type :=
| Returned (truthy : bool)
| Raised (e : thrown).

(** The callback runs as a method of the visitor: it may write the writable
    properties of the visitor, and it may change the two [Date] objects of
    the interval it is handed (the properties of the interval itself are
    not writable).  [r_start] and [r_end] are the time values of these two
    objects when it is done.  It is handed nothing of the set: the interval
    holds copies of the boundaries.  [depth] is kept an integer. *)
Record visit_result (St : Type) : Type := {
  r_fields : VisitorFields St;
  r_start : tv;
  r_end : tv;
  r_outcome : outcome
}.
Arguments r_fields {St} _.
Arguments r_start {St} _.
Arguments r_end {St} _.
Arguments r_outcome {St} _.

Definition Callback (St : Type) : Type :=
  VisitorFields St -> DateRangeInterval -> visit_result St.

(** A [DateRangeIntervalVisitor] instance; [visit] is not writable. *)
Record Visitor (St : Type) : Type := {
  visit : Callback St;
  fields : VisitorFields St
}.
Arguments visit {St} _.
Arguments fields {St} _.

(** The argument of the visitor's constructor. *)
Inductive ctor_arg (St : Type) : Type :=
| Function (fn : Callback St)
| NonFunction (v : value).
Arguments Function {St} fn.
Arguments NonFunction {St} v.

(** [new DateRangeIntervalVisitor(fn)]; [attached] stands for the properties
    the caller adds to the new object before the traversal. *)
Definition DateRangeIntervalVisitor {St} (fn : ctor_arg St) (attached : St)
    : completion (Visitor St) :=
  match fn with
  | NonFunction _ => Throw (JSError "Error" "Visitor must be a function")
  | Function f =>
      Normal {| visit := f;
                fields := {| depth := 0; subIntervals := false;
                             attached := attached |} |}
  end.

(** What [accept] can be called with: an instance of
    [DateRangeIntervalVisitor], or anything else -- a value, a bare
    function, a plain object that has the three properties. *)
Inductive accept_arg (St : Type) : Type :=
| Instance (v : Visitor St)
| BareFunction (fn : Callback St)
| PlainObject (visit : Callback St) (fields : VisitorFields St)
| OtherValue (v : value).
Arguments Instance {St} v.
Arguments BareFunction {St} fn.
Arguments PlainObject {St} visit fields.
Arguments OtherValue {St} v.

(** The prototype objects a chain can hold: those of the language that
    matter here, the object that the property [prototype] of
    [DateRangeIntervalVisitor] holds, and any other. *)
Inductive prototype : Type :=
| Object_prototype
| Function_prototype
| Visitor_prototype
| Other_prototype (n : nat).

Definition prototype_eqb (p q : prototype) : bool :=
  match p, q with
  | Object_prototype, Object_prototype => true
  | Function_prototype, Function_prototype => true
  | Visitor_prototype, Visitor_prototype => true
  | Other_prototype n, Other_prototype m => Nat.eqb n m
  | _, _ => false
  end.

(** Of an object, what [accept] uses.  Its [visit] is a function and stays
    that function, and the object has [depth], an integer, and
    [subIntervals], as an instance has ([Callable]); or its [visit] is no
    function or not there ([NotCallable]), and [depth] is an integer or not
    there.  The properties are data properties. *)
Inductive properties (St : Type) : Type :=
| Callable (vis : Visitor St)
| NotCallable (depth : option Z).
Arguments Callable {St} vis.
Arguments NotCallable {St} depth.

(** A value handed to [accept]: an object with its prototype chain, the
    nearest prototype first, or one of the values of [value], none of which
    has the prototype of the visitors on its chain. *)
Inductive argument (St : Type) : Type :=
| Obj (chain : list prototype) (props : properties St)
| Val (v : value).
Arguments Obj {St} chain props.
Arguments Val {St} v.

(** [O instanceof C], for an object with the chain [chain] and [C.prototype]
    being [p]: the chain is walked until [p] is found or the chain ends. *)
Fixpoint on_chain (p : prototype) (chain : list prototype) : bool :=
  match chain with
  | [] => false
  | q :: rest => prototype_eqb q p || on_chain p rest
  end.

(** [visitor instanceof DateRangeIntervalVisitor] *)
Definition instanceof_Visitor {St} (arg : argument St) : bool :=
  match arg with
  | Obj chain _ => on_chain Visitor_prototype chain
  | Val _ => false
  end.

(** The arguments of [accept_arg] as objects: [new] gives the object it
    makes the prototype of the constructor; a function and an object
    literal have the prototypes of the language.  A bare function has no
    property [visit]. *)
Definition object_of {St} (arg : accept_arg St) : argument St :=
  match arg with
  | Instance vis => Obj [Visitor_prototype; Object_prototype] (Callable vis)
  | BareFunction _ => Obj [Function_prototype; Object_prototype] (NotCallable None)
  | PlainObject visit fields =>
      Obj [Object_prototype] (Callable {| visit := visit; fields := fields |})
  | OtherValue v => Val v
  end.

(** [Object.create(DateRangeIntervalVisitor.prototype)]: an object with the
    prototype of the visitors that the constructor has not seen; it has
    none of the three properties. *)
Definition bare_prototype_object {St} : argument St :=
  Obj [Visitor_prototype; Object_prototype] (NotCallable None).

(** ** The traversal *)

(** What the traversal does, in order: the messages it hands to the logger,
    and the calls of [visitor.visit].  A call is recorded with the value of
    [visitor.depth] when it is made and with its position in the recursion:
    [path] lists the indices of the enclosing intervals, outermost first,
    and ends with the index of the visited interval.  The path is not a
    value of the program. *)
Inductive event : Type :=
| Log (e : log_entry)
| Visit (path : list nat) (depth : Z) (iv : DateRangeInterval).

(** What a call of [accept] does, for any argument: the events above, and
    the error message of the [catch] block for an object whose [visit] is
    no function, which prints [visitor.depth] as it finds it. *)
Inductive accept_event : Type :=
| Traversal (e : event)
| LogNotCallable (depth : option Z) (interval : string) (start end_ : Z)
    (message : string).

(** The calls of [visitor.visit] among the events. *)
Definition call : Type := (list nat * Z * DateRangeInterval)%type.

Definition call_of (e : event) : option call :=
  match e with
  | Visit p d iv => Some (p, d, iv)
  | Log _ => None
  end.

Definition calls (tr : list event) : list call := omap call_of tr.

(** The calls of [visitor.visit] among what a call of [accept] does. *)
Definition visits (tr : list accept_event) : list call :=
  omap (fun e => match e with
                 | Traversal e => call_of e
                 | LogNotCallable _ _ _ _ _ => None
                 end) tr.

(** [p] comes before [q] in a pre-order walk: [p] is a proper prefix of [q]
    (an enclosing interval), or the two part and [p] has the smaller index
    where they do. *)
Fixpoint path_before (p q : list nat) : Prop :=
  match p, q with
  | [], [] => False
  | [], _ :: _ => True
  | _ :: _, [] => False
  | i :: p', j :: q' => (i < j)%nat \/ (i = j /\ path_before p' q')
  end.

(** Every call in [tr] is for an interval below [path]. *)
Definition deeper (path : list nat) (tr : list event) : Prop :=
  forall c, c ∈ calls tr -> (length path < length c.1.1)%nat.

(** In every call of [tr], a traversal started at [path] with the counter
    at [d0], the counter is [d0] plus the number of enclosing intervals
    below [path]. *)
Definition depth_tracks (path : list nat) (d0 : Z) (tr : list event) : Prop :=
  forall p d iv, (p, d, iv) ∈ calls tr ->
    d = d0 + Z.of_nat (length p) - Z.of_nat (length path) - 1.




(** The promise of an [async] function, once settled. *)
Inductive promise : Type :=
| Fulfilled
| Rejected (e : thrown).

(** [date.toISOString()]: a [RangeError] on an invalid date.  The string is
    represented by the time value it spells. *)
Definition toISOString (t : tv) : completion Z :=
  match t with
  | Some z => Normal z
  | None => Throw (JSError "RangeError" "Invalid time value")
  end.

(** [${err.message}]: reading the property is a [TypeError] on [undefined]
    and [null]; what is read is then turned into a string ([None] prints as
    [undefined]). *)
Definition message_of (err : thrown) : completion (option string) :=
  match err with
  | JSError _ m => Normal (Some m)
  | ThrownValue VUndefined | ThrownValue VNull =>
      Throw (JSError "TypeError" "Cannot read properties of undefined (reading 'message')")
  | ThrownValue _ => Normal None
  | ThrownObject m => Normal m
  | Unreadable x => Throw x
  end.

(** The template literal of the [catch] block, evaluated left to right. *)
Definition visitor_error_log (depth : Z) (interval : string) (start end_ : tv)
    (err : thrown) : completion log_entry :=
  match toISOString start with
  | Normal s =>
      match toISOString end_ with
      | Normal e =>
          match message_of err with
          | Normal m => Normal (LogVisitorError depth interval s e m)
          | Throw x => Throw x
          | Diverge => Diverge
          end
      | Throw x => Throw x
      | Diverge => Diverge
      end
  | Throw x => Throw x
  | Diverge => Diverge
  end.

(** The template literal of the [silly] message before the [try]. *)
Definition visiting_log (start end_ : tv) : completion log_entry :=
  match toISOString start with
  | Normal s =>
      match toISOString end_ with
      | Normal e => Normal (LogVisiting s e)
      | Throw x => Throw x
      | Diverge => Diverge
      end
  | Throw x => Throw x
  | Diverge => Diverge
  end.

(** The longest chain of finer units below a unit. *)
Definition height (interval : string) : nat :=
  match own_key interval with
  | Some Second | None => 0
  | Some Minute => 1
  | Some Hour => 2
  | Some Day_ => 3
  | Some Week | Some Month => 4
  | Some Quarter | Some Year => 5
  end%nat.

(** ** Vocabulary of the statements *)

(** A list of instants is strictly increasing. *)
Definition strictly_increasing (l : list Z) : Prop :=
  forall (i j : nat) (a b : Z),
    (i < j)%nat -> l !! i = Some a -> l !! j = Some b -> a < b.

(** The intervals [ivs], in order, tile the range from [a] to [b]: the first
    starts at [a], each one is not empty and ends where the next one starts,
    and the last one ends at [b]. *)
Fixpoint tiles (a b : Z) (ivs : list DateRangeInterval) : Prop :=
  match ivs with
  | [] => a = b
  | iv :: rest =>
      i_start iv = Some a /\ exists e, i_end iv = Some e /\ a < e /\ tiles e b rest
  end.

(** An instant lies in an interval, closed on the left and open on the
    right. *)
Definition covers (iv : DateRangeInterval) (t : Z) : Prop :=
  exists s e, i_start iv = Some s /\ i_end iv = Some e /\ s <= t < e.

(** The cursor, advanced from [ts], first stands at or after [te] (or is
    [NaN]) after [n] advances. *)
Definition cursor_stops (u : Granularity) (ts te : Z) (n : nat) : Prop :=
  lt (advance_n u n (Some ts)) (Some te) = false
  /\ forall k, (k < n)%nat -> lt (advance_n u k (Some ts)) (Some te) = true.

(** The errors of the constructor: those about [start] and [end], and the
    one about the unit. *)
Definition InvalidInput (e : thrown) : Prop :=
  e = JSError "Error" "Start and end dates required"
  \/ e = JSError "Error" "Invalid start date"
  \/ e = JSError "Error" "Invalid end date"
  \/ e = JSError "Error" "Start must be before end".

Definition InvalidUnit (interval : string) (e : thrown) : Prop :=
  e = JSError "Error" (invalid_interval_message interval).

(** What a successful construction has built, in terms of the cursor: the
    boundaries before the last are the successive values of the cursor, all
    before [te]; the cursor then stands at or after [te], or is [NaN]. *)
Definition built (u : Granularity) (ts te : Z) (name : string) (s : IntervalSet) : Prop :=
  exists xs : list Z,
    segments s = xs ++ [te]
    /\ (0 < length xs)%nat
    /\ (forall k x, xs !! k = Some x -> advance_n u k (Some ts) = Some x /\ x < te)
    /\ lt (advance_n u (length xs) (Some ts)) (Some te) = false
    /\ isEquipartition s = strict_eq (advance_n u (length xs) (Some ts)) (Some te)
    /\ length_ s = Z.of_nat (length xs)
    /\ start s = ts /\ end_ s = te /\ interval s = name
    /\ lowerInterval s = lowerInterval_of name.

(** A set that [DateRangeIntervals] has built, for the unit [name]. *)
Definition constructed (name : string) (s : IntervalSet) : Prop :=
  exists u ts te, own_key name = Some u /\ built u ts te name s.

Section Host.

(** [Date.parse], which the host implements. *)
Variable Date_parse : string -> tv.

(** [new Date(value)] for one argument: the time value of the new object.
    A [Date] argument gives its own time value, a string is parsed, anything
    else is converted to a number; the result is clipped in each case. *)
Definition Date_new (v : value) : tv :=
  match v with
  | VDate t => t
  | VStr s => Date_parse s
  | _ => ToNumber v
  end ≫= TimeClip.

(** [new DateRangeIntervals(start, end, interval)].  Called without [new],
    the source calls itself with [new] and the same arguments. *)
Definition DateRangeIntervals (start end_ : value) (interval : string)
    : completion IntervalSet :=
  if negb (ToBoolean start) || negb (ToBoolean end_) then
    Throw (JSError "Error" "Start and end dates required")
  else
    let startDate := Date_new start in
    let endDate := Date_new end_ in
    let curDate := Date_new start in
    match startDate, endDate with
    | None, _ => Throw (JSError "Error" "Invalid start date")
    | Some _, None => Throw (JSError "Error" "Invalid end date")
    | Some s, Some e =>
        if ge startDate endDate then
          Throw (JSError "Error" "Start must be before end")
        else
          let lowerInterval := lowerInterval_of interval in
          match advanceByInterval_entry interval with
          | Absent => Throw (JSError "Error" (invalid_interval_message interval))
          | entry =>
              match segments_loop (loop_fuel entry s e) entry e curDate [] with
              | None => Diverge
              | Some (Throw err) => Throw err
              | Some Diverge => Diverge
              | Some (Normal (segments, cur)) =>
                  let segments := segments ++ [e] in
                  Normal {| segments := segments;
                            lowerInterval := lowerInterval;
                            start := s;
                            end_ := e;
                            interval := interval;
                            isEquipartition := strict_eq cur endDate;
                            length_ := Z.of_nat (length segments) - 1 |}
              end
          end
    end.

Section Accept.

Context {St : Type}.
Variable visit : Callback St.

(** The state of a traversal when it stops: the visitor's properties, what
    happened, and, when something was thrown, what. *)
Definition run : Type := (VisitorFields St * list event * option thrown)%type.

(** [try{ visitor.depth++; await (new DateRangeIntervals(interval.start,
    interval.end, lowerInterval)).accept(visitor); }finally{
    visitor.depth--; }], with [rec] the recursive [accept].  [None] when
    [rec] has no result. *)
Definition descend (rec : IntervalSet -> VisitorFields St -> option run)
    (lower : string) (start end_ : tv) (v : VisitorFields St) : option run :=
  let v1 := set_depth v (depth v + 1) in
  match DateRangeIntervals (VDate start) (VDate end_) lower with
  | Normal child =>
      match rec child v1 with
      | Some (v2, tr, exn) =>
          Some (set_depth v2 (depth v2 - 1), Log (construction_log child) :: tr, exn)
      | None => None
      end
  | Throw e => Some (set_depth v1 (depth v1 - 1), [], Some e)
  | Diverge => None
  end.

(** The [try] block of the loop body. *)
Definition try_visit (rec : list nat -> IntervalSet -> VisitorFields St -> option run)
    (path : list nat) (lower : option string) (v : VisitorFields St)
    (iv : DateRangeInterval) : option (run * (tv * tv)) :=
  let r := visit v iv in
  let call := Visit path (depth v) iv in
  let bounds := (r_start r, r_end r) in
  match r_outcome r with
  | Raised e => Some ((r_fields r, [call], Some e), bounds)
  | Returned subdivide =>
      match lower with
      | Some l =>
          if subdivide && subIntervals (r_fields r) then
            match descend (rec path) l (r_start r) (r_end r) (r_fields r) with
            | Some (v', tr, exn) =>
                Some ((v', call :: Log (LogRecursing l (r_start r) (r_end r)) :: tr, exn),
                      bounds)
            | None => None
            end
          else Some ((r_fields r, [call], None), bounds)
      | None => Some ((r_fields r, [call], None), bounds)
      end
  end.

(** [for(const interval of this){ ... }]: [idx] counts the intervals
    already taken from the iterator. *)
Fixpoint accept_loop (rec : list nat -> IntervalSet -> VisitorFields St -> option run)
    (prefix : list nat) (lower : option string) (idx : nat)
    (ivs : list DateRangeInterval) (v : VisitorFields St) : option run :=
  match ivs with
  | [] => Some (v, [], None)
  | iv :: rest =>
      match visiting_log (i_start iv) (i_end iv) with
      | Normal msg =>
          match try_visit rec (prefix ++ [idx]) lower v iv with
          | Some ((v1, tr1, None), _) =>
              match accept_loop rec prefix lower (S idx) rest v1 with
              | Some (v2, tr2, exn) => Some (v2, Log msg :: tr1 ++ tr2, exn)
              | None => None
              end
          | Some ((v1, tr1, Some err), (s, e)) =>
              match visitor_error_log (depth v1) (i_interval iv) s e err with
              | Normal entry =>
                  match accept_loop rec prefix lower (S idx) rest v1 with
                  | Some (v2, tr2, exn) =>
                      Some (v2, Log msg :: tr1 ++ Log entry :: tr2, exn)
                  | None => None
                  end
              | Throw x => Some (v1, Log msg :: tr1, Some x)
              | Diverge => None
              end
          | None => None
          end
      | Throw x => Some (v, [], Some x)
      | Diverge => None
      end
  end.

(** The body of [accept] for an instance of the visitor class; the
    recursion is on the height of the unit. *)
Fixpoint accept_fuel (fuel : nat) (prefix : list nat) (s : IntervalSet)
    (v : VisitorFields St) : option run :=
  match fuel with
  | O => None
  | S fuel' =>
      accept_loop (accept_fuel fuel') prefix (lowerInterval s) 0 (iterate s) v
  end.

End Accept.

(** A callback that reads [depth] and does not write it. *)
Definition preserves_depth {St} (visit : Callback St) : Prop :=
  forall v iv, depth (r_fields (visit v iv)) = depth v.

(** A callback that leaves the two dates of its interval valid. *)
Definition keeps_dates_valid {St} (visit : Callback St) : Prop :=
  forall v iv, is_Some (r_start (visit v iv)) /\ is_Some (r_end (visit v iv)).

(** A callback that throws nothing but what the [catch] block can print:
    reading [message] of it and turning that into a string throws
    nothing.  This leaves out [undefined], [null] and the objects whose
    [message] cannot be read or printed. *)
Definition throws_readable {St} (visit : Callback St) : Prop :=
  forall v iv e, r_outcome (visit v iv) = Raised e ->
    exists m, message_of e = Normal m.

(** A callback that leaves valid the dates of an interval that it is handed
    with valid dates. *)
Definition valid_dates_stay_valid {St} (visit : Callback St) : Prop :=
  forall v iv, is_Some (i_start iv) -> is_Some (i_end iv) ->
    is_Some (r_start (visit v iv)) /\ is_Some (r_end (visit v iv)).

(** A callback that leaves the two dates of its interval as they are. *)
Definition leaves_dates {St} (visit : Callback St) : Prop :=
  forall v iv, r_start (visit v iv) = i_start iv /\ r_end (visit v iv) = i_end iv.

(** A callback that never asks for a descent: whenever it returns a truthy
    value, [subIntervals] is not set. *)
Definition asks_no_descent {St} (visit : Callback St) : Prop :=
  forall v iv, r_outcome (visit v iv) = Returned true ->
    subIntervals (r_fields (visit v iv)) = false.

(** A callback that does not write [subIntervals]. *)
Definition keeps_subIntervals {St} (visit : Callback St) : Prop :=
  forall v iv, subIntervals (r_fields (visit v iv)) = subIntervals v.

(** The unit [n] levels below a unit, if the chain of finer units is that
    long. *)
Fixpoint lower_n (n : nat) (name : string) : option string :=
  match n with
  | O => Some name
  | S n' => lowerInterval_of name ≫= lower_n n'
  end.

(** A pre-order, depth-first walk of the intervals of one set from index
    [idx] on: the call for the interval at [idx], of unit [name]; then the
    walk of its subdivisions from their index 0; then the walk of the next
    siblings.  The subdivisions of an interval are the intervals of the set
    built for the finer unit over the bounds the callback left in it. *)
Inductive preorder_walk {St} (visit : Callback St)
    : list nat -> nat -> string -> list call -> Prop :=
| walk_done prefix idx name : preorder_walk visit prefix idx name []
| walk_visit prefix idx name d iv lower sub rest :
    i_interval iv = name ->
    (sub <> [] ->
     lowerInterval_of name = Some lower
     /\ exists v child,
          DateRangeIntervals (VDate (r_start (visit v iv)))
            (VDate (r_end (visit v iv))) lower = Normal child
          /\ forall k d' iv',
               ((prefix ++ [idx]) ++ [k], d', iv') ∈ sub ->
               iterate child !! k = Some iv') ->
    preorder_walk visit (prefix ++ [idx]) 0 lower sub ->
    preorder_walk visit prefix (S idx) name rest ->
    preorder_walk visit prefix idx name ((prefix ++ [idx], d, iv) :: sub ++ rest).

(** [intervals.accept(visitor)]: the visitor as the call leaves it, the
    events, and the promise. *)
Definition accept {St} (s : IntervalSet) (arg : accept_arg St)
    : option (accept_arg St * list event * promise) :=
  match arg with
  | Instance vis =>
      match accept_fuel (visit vis) (S (height (interval s))) [] s (fields vis) with
      | Some (v, tr, exn) =>
          Some (Instance {| visit := visit vis; fields := v |}, tr,
                match exn with None => Fulfilled | Some e => Rejected e end)
      | None => None
      end
  | _ =>
      Some (arg, [],
            Rejected (JSError "Error" "Invalid visitor: accepts only DateRangeIntervalVisitor"))
  end.

(** *** The test on the argument, and the call

    [accept] tests its argument with [instanceof], which walks the
    prototype chain of an object and looks at nothing else: not at how the
    object was made, and not at its properties.  And [accept] is an [async]
    function: the call returns a promise, and what the body throws rejects
    that promise. *)

(** How the body of an [async] function settles the promise of the call:
    returning fulfils it, throwing rejects it with what is thrown. *)
Definition settle (body : completion unit) : option promise :=
  match body with
  | Normal _ => Some Fulfilled
  | Throw e => Some (Rejected e)
  | Diverge => None
  end.

(** The call of an [async] function of which [body] is what its body does:
    the call itself completes normally whatever the body does, with the
    promise.  [None] is the promise that is never settled. *)
Definition async_call {A : Type} (body : option (A * completion unit))
    : completion (option (A * promise)) :=
  Normal (body ≫= fun '(a, c) => (fun p => (a, p)) <$> settle c).

Definition invalid_visitor : thrown :=
  JSError "Error" "Invalid visitor: accepts only DateRangeIntervalVisitor".

(** [for(const interval of this){ ... }] when [visitor.visit] is no
    function: the call in the [try] block throws a [TypeError], and the
    [catch] block logs it with whatever [visitor.depth] holds. *)
Fixpoint accept_loop_not_callable (depth : option Z) (ivs : list DateRangeInterval)
    : list accept_event * option thrown :=
  match ivs with
  | [] => ([], None)
  | iv :: rest =>
      match visiting_log (i_start iv) (i_end iv) with
      | Normal msg =>
          match toISOString (i_start iv) with
          | Normal a =>
              match toISOString (i_end iv) with
              | Normal b =>
                  let '(tr, exn) := accept_loop_not_callable depth rest in
                  (Traversal (Log msg)
                   :: LogNotCallable depth (i_interval iv) a b "visitor.visit is not a function"
                   :: tr, exn)
              | Throw x => ([Traversal (Log msg)], Some x)
              | Diverge => ([Traversal (Log msg)], None)
              end
          | Throw x => ([Traversal (Log msg)], Some x)
          | Diverge => ([Traversal (Log msg)], None)
          end
      | Throw x => ([], Some x)
      | Diverge => ([], None)
      end
  end.

(** The body of [accept], for any argument. *)
Definition accept_body {St} (s : IntervalSet) (arg : argument St)
    : option (argument St * list accept_event * completion unit) :=
  if negb (instanceof_Visitor arg) then Some (arg, [], Throw invalid_visitor)
  else
    match arg with
    | Obj chain (Callable vis) =>
        match accept_fuel (visit vis) (S (height (interval s))) [] s (fields vis) with
        | Some (v, tr, exn) =>
            Some (Obj chain (Callable {| visit := visit vis; fields := v |}),
                  Traversal <$> tr,
                  match exn with None => Normal tt | Some e => Throw e end)
        | None => None
        end
    | Obj chain (NotCallable d) =>
        let '(tr, exn) := accept_loop_not_callable d (iterate s) in
        Some (arg, tr, match exn with None => Normal tt | Some e => Throw e end)
    | Val _ => Some (arg, [], Throw invalid_visitor)
    end.

(** [intervals.accept(visitor)], the call. *)
Definition accept_call {St} (s : IntervalSet) (arg : argument St)
    : completion (option (argument St * list accept_event * promise)) :=
  async_call (accept_body s arg).

End Host.

(** ** The [Date] objects as objects

    The constructor above works on time values.  Here the same source is
    read with its [Date] objects kept apart: each [new Date] allocates an
    object in a store, a setter writes into the object it is called on, and
    two names for one object see each other's writes. *)

Module Heap.

Abbreviation loc := nat.

(** The time value of every [Date] object allocated so far. *)
Abbreviation store := (list tv).

Definition alloc (t : tv) (h : store) : loc * store := (length h, h ++ [t]).

(** [date.getTime()] *)
Definition getTime (h : store) (l : loc) : tv :=
  match h !! l with
  | Some t => t
  | None => None
  end.

(** [date.setTime(t)] *)
Definition setTime (l : loc) (t : tv) (h : store) : store :=
  <[l := t ≫= TimeClip]> h.

Record SetObject : Type := {
  o_segments : list loc;
  o_lowerInterval : option string;
  o_start : loc;
  o_end : loc;
  o_interval : string;
  o_isEquipartition : bool;
  o_length : Z
}.

Record IntervalObject : Type := {
  io_start : loc;
  io_end : loc;
  io_interval : string
}.

(** The loop of the constructor: [segments.push(new Date(curDate))]
    allocates a copy of the cursor, the advance writes the cursor itself. *)
Fixpoint segments_loop (fuel : nat) (e : table_entry) (endDate curDate : loc)
    (segments : list loc) (h : store) : option (completion (list loc * store)) :=
  match getTime h curDate, getTime h endDate with
  | Some c, Some en =>
      if c <? en then
        match fuel with
        | O => None
        | S fuel' =>
            let '(copy, h1) := alloc (Some c) h in
            match call_entry e c with
            | Normal cur' =>
                segments_loop fuel' e endDate curDate (segments ++ [copy])
                  (<[curDate := cur']> h1)
            | Throw err => Some (Throw err)
            | Diverge => Some Diverge
            end
        end
      else Some (Normal (segments, h))
  | _, _ => Some (Normal (segments, h))
  end.

Section Host.

Variable Date_parse : string -> tv.

(** [new DateRangeIntervals(start, end, interval)], in the store [h]. *)
Definition DateRangeIntervals (start end_ : value) (interval : string) (h : store)
    : completion (SetObject * store) :=
  if negb (ToBoolean start) || negb (ToBoolean end_) then
    Throw (JSError "Error" "Start and end dates required")
  else
    let '(startDate, h) := alloc (Date_new Date_parse start) h in
    let '(endDate, h) := alloc (Date_new Date_parse end_) h in
    let '(curDate, h) := alloc (Date_new Date_parse start) h in
    match getTime h startDate, getTime h endDate with
    | None, _ => Throw (JSError "Error" "Invalid start date")
    | Some _, None => Throw (JSError "Error" "Invalid end date")
    | Some s, Some e =>
        if ge (Some s) (Some e) then
          Throw (JSError "Error" "Start must be before end")
        else
          let lowerInterval := lowerInterval_of interval in
          match advanceByInterval_entry interval with
          | Absent => Throw (JSError "Error" (invalid_interval_message interval))
          | entry =>
              match segments_loop (loop_fuel entry s e) entry endDate curDate [] h with
              | None => Diverge
              | Some (Throw err) => Throw err
              | Some Diverge => Diverge
              | Some (Normal (segments, h)) =>
                  let segments := segments ++ [endDate] in
                  Normal ({| o_segments := segments;
                             o_lowerInterval := lowerInterval;
                             o_start := startDate;
                             o_end := endDate;
                             o_interval := interval;
                             o_isEquipartition :=
                               strict_eq (getTime h curDate) (getTime h endDate);
                             o_length := Z.of_nat (length segments) - 1 |}, h)
              end
          end
    end.

End Host.

(** One step of the generator, at index [i]: [new DateRangeInterval(
    segments[i], segments[i + 1], interval)] copies both dates.  [None]
    when the generator is done. *)
Definition next (o : SetObject) (i : nat) (h : store) : option (IntervalObject * store) :=
  match o_segments o !! i, o_segments o !! S i with
  | Some a, Some b =>
      let '(s, h1) := alloc (getTime h a) h in
      let '(e, h2) := alloc (getTime h1 b) h1 in
      Some ({| io_start := s; io_end := e; io_interval := o_interval o |}, h2)
  | _, _ => None
  end.

(** The generator run to its end from index [i], nothing else touching the
    store: the intervals it yields, as the time values of their dates. *)
Fixpoint drain (fuel : nat) (o : SetObject) (i : nat) (h : store)
    : list DateRangeInterval * store :=
  match fuel with
  | O => ([], h)
  | S fuel' =>
      match next o i h with
      | Some (io, h1) =>
          let iv := {| i_start := getTime h1 (io_start io);
                       i_end := getTime h1 (io_end io);
                       i_interval := io_interval io |} in
          let '(ivs, h2) := drain fuel' o (S i) h1 in
          (iv :: ivs, h2)
      | None => ([], h)
      end
  end.

Definition iterate (o : SetObject) (h : store) : list DateRangeInterval * store :=
  drain (length (o_segments o)) o 0 h.

(** The boundary sequence, and the values of the accessors, as the store
    has them. *)
Definition boundaries (o : SetObject) (h : store) : list tv :=
  getTime h <$> o_segments o.

Definition start (o : SetObject) (h : store) : tv := getTime h (o_start o).
Definition end_ (o : SetObject) (h : store) : tv := getTime h (o_end o).

End Heap.

(** ** The earlier variant of the source

    The repository also holds an earlier version of the same file.  Its
    constructor has no check on [start] and [end]; its flag
    [isCongruentPartition] compares the two [Date] objects themselves; its
    iterator yields the boundary objects, not copies, and moves two shared
    variables [iStart] and [iEnd] that the accessors [start] and [end]
    read; its [accept] hands the set itself to the callback and has neither
    [catch] nor [finally]. *)

Module Variant.

(** The boundaries are kept as the objects they are: writing the date at a
    position writes the boundary.  [iStart] and [iEnd] are positions in
    [segments], or [undefined]. *)
Record IntervalSet : Type := {
  segments : list tv;
  lowerInterval : option string;
  startDate : tv;
  endDate : tv;
  interval : string;
  isCongruentPartition : bool;
  iStart : option nat;
  iEnd : option nat
}.

(** [get: () => segments.length-1] *)
Definition length_ (s : IntervalSet) : Z := Z.of_nat (length (segments s)) - 1.

(** [get: () => iStart || startDate] and [get: () => iEnd || endDate]: a
    [Date] object is truthy, [undefined] is not. *)
Definition start (s : IntervalSet) : tv :=
  match iStart s with
  | Some i => default None (segments s !! i)
  | None => startDate s
  end.

Definition end_ (s : IntervalSet) : tv :=
  match iEnd s with
  | Some i => default None (segments s !! i)
  | None => endDate s
  end.

(** The set with its dates as objects in a store. *)
Record SetObject : Type := {
  o_segments : list Heap.loc;
  o_lowerInterval : option string;
  o_startDate : Heap.loc;
  o_endDate : Heap.loc;
  o_interval : string;
  o_isCongruentPartition : bool
}.

(** [a == b] for two objects: they are equal when they are one object. *)
Definition same_object (a b : Heap.loc) : bool := Nat.eqb a b.

Section Host.

Variable Date_parse : string -> tv.

(** [new DateRangeIntervals(start, end, interval)]: the only guard is the
    one on the unit; the debug message calls [toISOString] on both dates.
    The flag is [curDate == endDate], a comparison of two objects, which
    [DateRangeIntervals_objects] below has as such. *)
Definition DateRangeIntervals (start end_ : value) (interval : string)
    : completion IntervalSet :=
  let startDate := Date_new Date_parse start in
  let endDate := Date_new Date_parse end_ in
  let curDate := Date_new Date_parse start in
  let lowerInterval := lowerInterval_of interval in
  match advanceByInterval_entry interval with
  | Absent => Throw (JSError "Error" (invalid_interval_message interval))
  | entry =>
      let loop :=
        match startDate, endDate with
        | Some s, Some e => segments_loop (loop_fuel entry s e) entry e curDate []
        | _, _ => Some (Normal ([], curDate))
        end in
      match loop with
      | None => Diverge
      | Some (Throw err) => Throw err
      | Some Diverge => Diverge
      | Some (Normal (segments, cur)) =>
          let segments := (Some <$> segments) ++ [endDate] in
          match toISOString startDate, toISOString endDate with
          | Normal _, Normal _ =>
              Normal {| segments := segments;
                        lowerInterval := lowerInterval;
                        startDate := startDate;
                        endDate := endDate;
                        interval := interval;
                        isCongruentPartition := false;
                        iStart := None;
                        iEnd := None |}
          | Throw x, _ | _, Throw x => Throw x
          | _, _ => Diverge
          end
      end
  end.

(** The set a construction gives, if it gives one. *)
Definition DateRangeIntervals_result (start end_ : value) (interval : string)
    : option IntervalSet :=
  match DateRangeIntervals start end_ interval with
  | Normal s => Some s
  | _ => None
  end.

(** The same constructor with its [Date] objects in a store, as in [Heap]:
    this is where the flag comes from.  [curDate == endDate] has two
    objects to compare and converts neither. *)
Definition DateRangeIntervals_objects (start end_ : value) (interval : string)
    (h : Heap.store) : completion (SetObject * Heap.store) :=
  let '(startDate, h) := Heap.alloc (Date_new Date_parse start) h in
  let '(endDate, h) := Heap.alloc (Date_new Date_parse end_) h in
  let '(curDate, h) := Heap.alloc (Date_new Date_parse start) h in
  let lowerInterval := lowerInterval_of interval in
  match advanceByInterval_entry interval with
  | Absent => Throw (JSError "Error" (invalid_interval_message interval))
  | entry =>
      let fuel :=
        match Heap.getTime h startDate, Heap.getTime h endDate with
        | Some s, Some e => loop_fuel entry s e
        | _, _ => O
        end in
      match Heap.segments_loop fuel entry endDate curDate [] h with
      | None => Diverge
      | Some (Throw err) => Throw err
      | Some Diverge => Diverge
      | Some (Normal (segments, h)) =>
          let segments := segments ++ [endDate] in
          match toISOString (Heap.getTime h startDate),
                toISOString (Heap.getTime h endDate) with
          | Normal _, Normal _ =>
              Normal ({| o_segments := segments;
                         o_lowerInterval := lowerInterval;
                         o_startDate := startDate;
                         o_endDate := endDate;
                         o_interval := interval;
                         o_isCongruentPartition := same_object curDate endDate |}, h)
          | Throw x, _ | _, Throw x => Throw x
          | _, _ => Diverge
          end
      end
  end.

(** The debug message of the constructor; it is only reached with two
    valid dates. *)
Definition construction_log (s : IntervalSet) : log_entry :=
  LogCreated (length_ s) (interval s) (default 0 (startDate s)) (default 0 (endDate s)).

(** One step of the generator at index [i]: it points [iStart] and [iEnd]
    at the two boundaries and yields them; when it is done it clears
    both. *)
Definition next (s : IntervalSet) (i : nat) : IntervalSet * option (nat * nat) :=
  if decide (S i < length (segments s))%nat then
    ({| segments := segments s; lowerInterval := lowerInterval s;
        startDate := startDate s; endDate := endDate s; interval := interval s;
        isCongruentPartition := isCongruentPartition s;
        iStart := Some i; iEnd := Some (S i) |}, Some (i, S i))
  else
    ({| segments := segments s; lowerInterval := lowerInterval s;
        startDate := startDate s; endDate := endDate s; interval := interval s;
        isCongruentPartition := isCongruentPartition s;
        iStart := None; iEnd := None |}, None).

(** [date.setTime(t)] on the boundary at position [i]. *)
Definition write (s : IntervalSet) (i : nat) (t : tv) : IntervalSet :=
  {| segments := <[i := t]> (segments s); lowerInterval := lowerInterval s;
     startDate := startDate s; endDate := endDate s; interval := interval s;
     isCongruentPartition := isCongruentPartition s;
     iStart := iStart s; iEnd := iEnd s |}.

Context {St : Type}.
Variable visit : Callback St.

(** The loop of [accept], [n] turns from index [i]: the callback is handed
    the set, whose [start] and [end] are then the two yielded boundaries;
    what it leaves in these two dates is written to the boundaries.  An
    error leaves the loop at once, with the counter as it is. *)
Fixpoint accept_loop (rec : list nat -> IntervalSet -> VisitorFields St -> option (@run St))
    (prefix : list nat) (n i : nat) (s : IntervalSet) (v : VisitorFields St)
    : option (@run St) :=
  match n with
  | O => Some (v, [], None)
  | S n' =>
      match next s i with
      | (_, None) => Some (v, [], None)
      | (s1, Some (a, b)) =>
          match visiting_log (start s1) (end_ s1) with
          | Normal msg =>
              let iv := {| i_start := start s1; i_end := end_ s1;
                           i_interval := interval s1 |} in
              let r := visit v iv in
              let call := Visit (prefix ++ [i]) (depth v) iv in
              let s2 := write (write s1 a (r_start r)) b (r_end r) in
              match r_outcome r with
              | Raised e => Some (r_fields r, [Log msg; call], Some e)
              | Returned subdivide =>
                  match lowerInterval s with
                  | Some l =>
                      if subdivide && subIntervals (r_fields r) then
                        let v1 := set_depth (r_fields r) (depth (r_fields r) + 1) in
                        let note := Log (LogRecursing l (r_start r) (r_end r)) in
                        match DateRangeIntervals (VDate (r_start r)) (VDate (r_end r)) l with
                        | Normal child =>
                            let made := Log (construction_log child) in
                            match rec (prefix ++ [i]) child v1 with
                            | Some (v2, tr, None) =>
                                match accept_loop rec prefix n' (S i) s2
                                        (set_depth v2 (depth v2 - 1)) with
                                | Some (v3, tr3, exn) =>
                                    Some (v3,
                                          Log msg :: call :: note :: made :: tr ++ tr3,
                                          exn)
                                | None => None
                                end
                            | Some (v2, tr, Some e) =>
                                Some (v2, Log msg :: call :: note :: made :: tr, Some e)
                            | None => None
                            end
                        | Throw e => Some (v1, [Log msg; call; note], Some e)
                        | Diverge => None
                        end
                      else
                        match accept_loop rec prefix n' (S i) s2 (r_fields r) with
                        | Some (v3, tr3, exn) => Some (v3, Log msg :: call :: tr3, exn)
                        | None => None
                        end
                  | None =>
                      match accept_loop rec prefix n' (S i) s2 (r_fields r) with
                      | Some (v3, tr3, exn) => Some (v3, Log msg :: call :: tr3, exn)
                      | None => None
                      end
                  end
              end
          | Throw x => Some (v, [], Some x)
          | Diverge => None
          end
      end
  end.

Fixpoint accept_fuel (fuel : nat) (prefix : list nat) (s : IntervalSet)
    (v : VisitorFields St) : option (@run St) :=
  match fuel with
  | O => None
  | S fuel' =>
      accept_loop (accept_fuel fuel') prefix (length (segments s)) 0 s v
  end.

End Host.

(** [intervals.accept(visitor)]; this version checks [instanceof] too. *)
Definition accept {St} (Date_parse : string -> tv) (s : IntervalSet)
    (arg : accept_arg St) : option (accept_arg St * list event * promise) :=
  match arg with
  | Instance vis =>
      match accept_fuel Date_parse (visit vis) (S (height (interval s))) [] s (fields vis) with
      | Some (v, tr, exn) =>
          Some (Instance {| visit := visit vis; fields := v |}, tr,
                match exn with None => Fulfilled | Some e => Rejected e end)
      | None => None
      end
  | _ =>
      Some (arg, [],
            Rejected (JSError "Error" "Invalid visitor: accepts only DateRangeIntervalVisitor"))
  end.

End Variant.

(** ** Instants and the visitors of the examples *)

(** Midnight UTC of a calendar day. *)
Definition utc (y m d : Z) : Z := MakeDate (MakeDay y (m - 1) d) 0.

(** The callback of the test of the subintervals: below the second level it
    returns at once; otherwise it records the interval, counts it and asks
    for the subdivision. *)
Definition recording_callback : Callback (list (tv * tv) * Z) :=
  fun v iv =>
    if 1 <? depth v then
      {| r_fields := v; r_start := i_start iv; r_end := i_end iv;
         r_outcome := Returned false |}
    else
      {| r_fields :=
           {| depth := depth v; subIntervals := subIntervals v;
              attached := ((attached v).1 ++ [(i_start iv, i_end iv)],
                           (attached v).2 + 1) |};
         r_start := i_start iv; r_end := i_end iv;
         r_outcome := Returned true |}.

Definition recording_visitor : Visitor (list (tv * tv) * Z) :=
  {| visit := recording_callback;
     fields := {| depth := 0; subIntervals := true; attached := ([], 0) |} |}.


(** A callback that throws [undefined] (or returns a promise rejected
    without a reason) and touches nothing. *)
Definition throwing_callback : Callback unit :=
  fun v iv =>
    {| r_fields := v; r_start := i_start iv; r_end := i_end iv;
       r_outcome := Raised (ThrownValue VUndefined) |}.

Definition throwing_visitor : Visitor unit :=
  {| visit := throwing_callback;
     fields := {| depth := 0; subIntervals := false; attached := tt |} |}.

(** A callback that throws an [Error], and one that asks for the
    subdivision at the first level and throws an [Error] at the second. *)
Definition failing_callback : Callback unit :=
  fun v iv =>
    {| r_fields := v; r_start := i_start iv; r_end := i_end iv;
       r_outcome := Raised (JSError "Error" "no") |}.

Definition failing_visitor : Visitor unit :=
  {| visit := failing_callback;
     fields := {| depth := 0; subIntervals := false; attached := tt |} |}.

(** A callback that throws an object whose [message] is a [Symbol], and
    touches nothing. *)
Definition symbol_message_callback : Callback unit :=
  fun v iv =>
    {| r_fields := v; r_start := i_start iv; r_end := i_end iv;
       r_outcome :=
         Raised (Unreadable
                   (JSError "TypeError" "Cannot convert a Symbol value to a string")) |}.

Definition symbol_message_visitor : Visitor unit :=
  {| visit := symbol_message_callback;
     fields := {| depth := 0; subIntervals := false; attached := tt |} |}.

Definition failing_below_callback : Callback unit :=
  fun v iv =>
    {| r_fields := v; r_start := i_start iv; r_end := i_end iv;
       r_outcome := if 0 <? depth v then Raised (JSError "Error" "no")
                    else Returned true |}.

Definition failing_below_visitor : Visitor unit :=
  {| visit := failing_below_callback;
     fields := {| depth := 0; subIntervals := true; attached := tt |} |}.

(** A callback that makes the start of its interval invalid
    ([interval.start.setTime(NaN)]) and throws an [Error]. *)
Definition invalidating_callback : Callback unit :=
  fun v iv =>
    {| r_fields := v; r_start := None; r_end := i_end iv;
       r_outcome := Raised (JSError "Error" "no") |}.

Definition invalidating_visitor : Visitor unit :=
  {| visit := invalidating_callback;
     fields := {| depth := 0; subIntervals := false; attached := tt |} |}.

(** A host whose [Date.parse] understands nothing; the examples pass
    [Date] objects. *)
Definition no_parse : string -> tv := fun _ => None.

(** The set the constructor builds for 2024 by quarters, the one for the
    first four days of 2024, and what [accept] gives for each with the
    visitors above. *)
Definition year_2024_by_quarter : IntervalSet :=
  {| segments := [utc 2024 1 1; utc 2024 4 1; utc 2024 7 1; utc 2024 10 1; utc 2025 1 1];
     lowerInterval := Some "month";
     start := utc 2024 1 1;
     end_ := utc 2025 1 1;
     interval := "quarter";
     isEquipartition := true;
     length_ := 4 |}.

Definition four_days : IntervalSet :=
  {| segments := [utc 2024 1 1; utc 2024 1 2; utc 2024 1 3; utc 2024 1 4; utc 2024 1 5];
     lowerInterval := Some "hour";
     start := utc 2024 1 1;
     end_ := utc 2024 1 5;
     interval := "day";
     isEquipartition := true;
     length_ := 4 |}.

(** The set of [four_days] as an object, in the store the constructor
    leaves when it starts from the empty one: the start, the end, the
    cursor, and the four copies of the cursor. *)
Definition four_days_object : Heap.SetObject :=
  {| Heap.o_segments := [3; 4; 5; 6; 1]%nat;
     Heap.o_lowerInterval := Some "hour";
     Heap.o_start := 0%nat;
     Heap.o_end := 1%nat;
     Heap.o_interval := "day";
     Heap.o_isEquipartition := true;
     Heap.o_length := 4 |}.

Definition four_days_store : Heap.store :=
  Some <$> [utc 2024 1 1; utc 2024 1 5; utc 2024 1 5;
            utc 2024 1 1; utc 2024 1 2; utc 2024 1 3; utc 2024 1 4].

(** The sets the earlier variant builds for the first four and the first
    two days of 2024. *)
Definition variant_four_days : Variant.IntervalSet :=
  {| Variant.segments :=
       Some <$> [utc 2024 1 1; utc 2024 1 2; utc 2024 1 3; utc 2024 1 4; utc 2024 1 5];
     Variant.lowerInterval := Some "hour";
     Variant.startDate := Some (utc 2024 1 1);
     Variant.endDate := Some (utc 2024 1 5);
     Variant.interval := "day";
     Variant.isCongruentPartition := false;
     Variant.iStart := None;
     Variant.iEnd := None |}.

(** The four days as the earlier variant builds them on objects, in the
    empty store; the store it leaves is [four_days_store]. *)
Definition variant_four_days_object : Variant.SetObject :=
  {| Variant.o_segments := [3; 4; 5; 6; 1]%nat;
     Variant.o_lowerInterval := Some "hour";
     Variant.o_startDate := 0%nat;
     Variant.o_endDate := 1%nat;
     Variant.o_interval := "day";
     Variant.o_isCongruentPartition := false |}.

Definition variant_two_days : Variant.IntervalSet :=
  {| Variant.segments := Some <$> [utc 2024 1 1; utc 2024 1 2; utc 2024 1 3];
     Variant.lowerInterval := Some "hour";
     Variant.startDate := Some (utc 2024 1 1);
     Variant.endDate := Some (utc 2024 1 3);
     Variant.interval := "day";
     Variant.isCongruentPartition := false;
     Variant.iStart := None;
     Variant.iEnd := None |}.


(** * Properties *)

(** *** Calendar arithmetic *)

Lemma DayFromYear_succ y : DayFromYear (y + 1) = DayFromYear y + DaysInYear y.
Proof.
  unfold DayFromYear, DaysInYear.
  repeat (case_match; simpl in *); Z.div_mod_to_equations; lia.
Qed.

(** [YearFromTime] is the year ECMA-262 defines: the one whose first day is
    the last first day of a year not after [t]. *)
Lemma YearFromTime_spec t :
  DayFromYear (YearFromTime t) <= Day t < DayFromYear (YearFromTime t + 1).
Proof.
  unfold YearFromTime. generalize (Day t). intros d.
  cbv zeta. unfold DayFromYear.
  repeat case_match; Z.div_mod_to_equations; lia.
Qed.

Lemma YearFromTime_unique t y :
  DayFromYear y <= Day t < DayFromYear (y + 1) -> y = YearFromTime t.
Proof.
  pose proof (YearFromTime_spec t) as H. revert H.
  generalize (YearFromTime t) (Day t). intros y' d.
  unfold DayFromYear. intros H H'. Z.div_mod_to_equations. lia.
Qed.

Lemma DaysInYear_leap y : DaysInYear y = 365 + InLeapYear_of_year y.
Proof. unfold InLeapYear_of_year, DaysInYear. repeat case_match; simpl in *; lia. Qed.

Lemma InLeapYear_of_year_range y : 0 <= InLeapYear_of_year y <= 1.
Proof. unfold InLeapYear_of_year. case_match; lia. Qed.

Lemma month_of_day_range d l : 0 <= month_of_day d l <= 11.
Proof. unfold month_of_day. repeat case_match; lia. Qed.

Lemma MonthFromTime_range t : 0 <= MonthFromTime t <= 11.
Proof. apply month_of_day_range. Qed.

Lemma time_decomposition t :
  MakeDate (Day t) (MakeTime (HourFromTime t) (MinFromTime t) (SecFromTime t) (msFromTime t)) = t.
Proof.
  unfold MakeDate, MakeTime, Day, HourFromTime, MinFromTime, SecFromTime, msFromTime,
    msPerDay, msPerHour, msPerMinute, msPerSecond.
  Z.div_mod_to_equations. lia.
Qed.

Lemma day_decomposition t : MakeDate (Day t) (TimeWithinDay t) = t.
Proof. unfold MakeDate, Day, TimeWithinDay, msPerDay. Z.div_mod_to_equations. lia. Qed.

Lemma MakeDay_in_year y m d :
  0 <= m <= 11 ->
  MakeDay y m d = DayFromYear y + monthStart m (InLeapYear_of_year y) + d - 1.
Proof.
  intros Hm. unfold MakeDay. cbv zeta.
  rewrite (Z.div_small m 12), (Z.mod_small m 12) by lia.
  by rewrite Z.add_0_r.
Qed.

Lemma MakeDay_next_year y m d :
  12 <= m <= 23 ->
  MakeDay y m d =
    DayFromYear (y + 1) + monthStart (m - 12) (InLeapYear_of_year (y + 1)) + d - 1.
Proof.
  intros Hm. unfold MakeDay. cbv zeta.
  replace (m / 12) with 1 by (Z.div_mod_to_equations; lia).
  replace (m mod 12) with (m - 12) by (Z.div_mod_to_equations; lia).
  done.
Qed.

Lemma Day_of_date t :
  Day t = DayFromYear (YearFromTime t)
          + monthStart (MonthFromTime t) (InLeapYear t) + DateFromTime t - 1.
Proof. unfold DateFromTime, DayWithinYear. lia. Qed.

Lemma MakeDay_date t k :
  MakeDay (YearFromTime t) (MonthFromTime t) (DateFromTime t + k) = Day t + k.
Proof.
  rewrite MakeDay_in_year by apply MonthFromTime_range.
  pose proof (Day_of_date t) as H. unfold InLeapYear in H. lia.
Qed.

Lemma setUTCSeconds_add t k : setUTCSeconds t (getUTCSeconds t + k) = TimeClip (t + k * msPerSecond).
Proof.
  unfold setUTCSeconds, getUTCSeconds. f_equal.
  pose proof (time_decomposition t) as H. unfold MakeDate, MakeTime in *. lia.
Qed.

Lemma setUTCMinutes_add t k : setUTCMinutes t (getUTCMinutes t + k) = TimeClip (t + k * msPerMinute).
Proof.
  unfold setUTCMinutes, getUTCMinutes. f_equal.
  pose proof (time_decomposition t) as H. unfold MakeDate, MakeTime in *. lia.
Qed.

Lemma setUTCHours_add t k : setUTCHours t (getUTCHours t + k) = TimeClip (t + k * msPerHour).
Proof.
  unfold setUTCHours, getUTCHours. f_equal.
  pose proof (time_decomposition t) as H. unfold MakeDate, MakeTime in *. lia.
Qed.

Lemma setUTCDate_add t k : setUTCDate t (getUTCDate t + k) = TimeClip (t + k * msPerDay).
Proof.
  unfold setUTCDate, getUTCDate. f_equal. rewrite MakeDay_date.
  pose proof (day_decomposition t) as H. unfold MakeDate in *. lia.
Qed.

Lemma monthStart_step m l :
  0 <= m <= 10 -> 0 <= l <= 1 -> monthStart m l + 28 <= monthStart (m + 1) l.
Proof.
  intros Hm Hl.
  assert (m = 0 \/ m = 1 \/ m = 2 \/ m = 3 \/ m = 4 \/ m = 5 \/ m = 6 \/ m = 7
          \/ m = 8 \/ m = 9 \/ m = 10) as Hcases by lia.
  repeat (destruct Hcases as [-> | Hcases]); try subst m; simpl; lia.
Qed.

Lemma monthStart_leap_diff m l l' :
  0 <= l <= 1 -> 0 <= l' <= 1 -> monthStart m l - 1 <= monthStart m l'.
Proof. intros Hl Hl'. unfold monthStart. repeat case_match; lia. Qed.

Lemma monthStart_bounds m l : 0 <= m <= 11 -> 0 <= l <= 1 -> 0 <= monthStart m l <= 334 + l.
Proof.
  intros Hm Hl.
  assert (m = 0 \/ m = 1 \/ m = 2 \/ m = 3 \/ m = 4 \/ m = 5 \/ m = 6 \/ m = 7
          \/ m = 8 \/ m = 9 \/ m = 10 \/ m = 11) as Hcases by lia.
  repeat (destruct Hcases as [-> | Hcases]); try subst m; simpl; lia.
Qed.

Lemma monthStart_mono m n l :
  0 <= m <= n -> n <= 11 -> 0 <= l <= 1 -> monthStart m l + 28 * (n - m) <= monthStart n l.
Proof.
  intros Hm Hn Hl.
  assert (exists k, n = m + Z.of_nat k) as [k ->] by (exists (Z.to_nat (n - m)); lia).
  induction k as [|k IH].
  - replace (m + Z.of_nat 0) with m by lia. lia.
  - replace (m + Z.of_nat (S k)) with (m + Z.of_nat k + 1) in * by lia.
    pose proof (monthStart_step (m + Z.of_nat k) l). lia.
Qed.

(** The first day of a month comes at least 28 days after the first day of
    any earlier month. *)
Lemma MakeDay_month_mono y m n d :
  0 <= m <= 11 -> m < n <= m + 3 ->
  MakeDay y m d + 28 <= MakeDay y n d.
Proof.
  intros Hm Hn.
  rewrite (MakeDay_in_year y m) by done.
  pose proof (InLeapYear_of_year_range y) as Hl.
  pose proof (InLeapYear_of_year_range (y + 1)) as Hl'.
  destruct (decide (n <= 11)) as [Hle|Hgt].
  - rewrite (MakeDay_in_year y n) by lia.
    pose proof (monthStart_mono m n (InLeapYear_of_year y)). lia.
  - rewrite (MakeDay_next_year y n) by lia.
    rewrite DayFromYear_succ, DaysInYear_leap.
    pose proof (monthStart_bounds m (InLeapYear_of_year y)).
    pose proof (monthStart_bounds (n - 12) (InLeapYear_of_year (y + 1))).
    pose proof (monthStart_mono m 11 (InLeapYear_of_year y)).
    pose proof (monthStart_bounds 11 (InLeapYear_of_year y)).
    simpl in *. lia.
Qed.

Lemma MakeDay_year_mono y m d :
  0 <= m <= 11 -> MakeDay y m d + 28 <= MakeDay (y + 1) m d.
Proof.
  intros Hm. rewrite !MakeDay_in_year by done.
  rewrite DayFromYear_succ, DaysInYear_leap.
  pose proof (InLeapYear_of_year_range y) as Hl.
  pose proof (InLeapYear_of_year_range (y + 1)) as Hl'.
  pose proof (monthStart_leap_diff m _ _ Hl Hl'). lia.
Qed.

Lemma TimeClip_Some t t' : TimeClip t = Some t' -> t' = t /\ Z.abs t <= maxTime.
Proof. unfold TimeClip. case_match; [done|]. intros [= <-]. lia. Qed.

Lemma advance_fixed u t :
  fixed_length u = true -> advance u t = TimeClip (t + minStep u).
Proof.
  destruct u; simpl; try done; intros _.
  - by rewrite setUTCSeconds_add, Z.mul_1_l.
  - by rewrite setUTCMinutes_add, Z.mul_1_l.
  - by rewrite setUTCHours_add, Z.mul_1_l.
  - by rewrite setUTCDate_add, Z.mul_1_l.
  - by rewrite setUTCDate_add.
Qed.

Lemma MakeDate_later d d' w k :
  d + k <= d' -> MakeDate d w + k * msPerDay <= MakeDate d' w.
Proof. unfold MakeDate, msPerDay. lia. Qed.

(** The setters of the calendar units move the cursor to a later day, at
    the same time within the day. *)
Lemma advance_calendar u t :
  fixed_length u = false ->
  exists d, advance u t = TimeClip (MakeDate d (TimeWithinDay t)) /\ Day t + 28 <= d.
Proof.
  intros Hfix.
  pose proof (MonthFromTime_range t) as Hm.
  assert (MakeDay (YearFromTime t) (MonthFromTime t) (DateFromTime t) = Day t) as Hr.
  { pose proof (MakeDay_date t 0) as Hr. by rewrite !Z.add_0_r in Hr. }
  destruct u; try discriminate Hfix.
  - eexists. split; [reflexivity|]. rewrite <- Hr.
    apply MakeDay_month_mono; unfold getUTCMonth; lia.
  - eexists. split; [reflexivity|]. rewrite <- Hr.
    apply MakeDay_month_mono; unfold getUTCMonth; lia.
  - eexists. split; [reflexivity|]. rewrite <- Hr.
    apply MakeDay_year_mono; lia.
Qed.

Lemma minStep_calendar u : fixed_length u = false -> minStep u = 28 * msPerDay.
Proof. by destruct u. Qed.

Lemma advance_minStep u t t' : advance u t = Some t' -> t + minStep u <= t'.
Proof.
  intros H. destruct (fixed_length u) eqn:Hfix.
  - rewrite advance_fixed in H by done. apply TimeClip_Some in H as [-> _]. lia.
  - destruct (advance_calendar u t Hfix) as (d & Hd & Hlater).
    rewrite Hd in H. apply TimeClip_Some in H as [-> _].
    rewrite minStep_calendar by done.
    rewrite <- (day_decomposition t) at 1. by apply MakeDate_later.
Qed.

Lemma minStep_pos u : 0 < minStep u.
Proof. destruct u; simpl; unfold msPerSecond, msPerMinute, msPerHour, msPerDay; lia. Qed.

(** *** The cursor *)

Lemma advance_n_None u n : advance_n u n None = None.
Proof. induction n as [|n IH]; [done|]. simpl. exact IH. Qed.

Lemma advance_n_succ u n t : advance_n u (S n) t = advance_n u n t ≫= advance u.
Proof.
  revert t. induction n as [|n IH]; intros t; [done|].
  change (advance_n u (S (S n)) t) with (advance_n u (S n) (t ≫= advance u)).
  by rewrite IH.
Qed.

Lemma advance_n_add u (n m : nat) (t : tv) :
  advance_n u (n + m) t = advance_n u m (advance_n u n t).
Proof. revert t. induction n as [|n IH]; intros t; [done|]. simpl. apply IH. Qed.

Lemma advance_n_grows u (n : nat) x y :
  advance_n u n (Some x) = Some y -> x + Z.of_nat n * minStep u <= y.
Proof.
  revert y. induction n as [|n IH]; intros y H.
  - simpl in H. injection H as ->. lia.
  - rewrite advance_n_succ in H.
    destruct (advance_n u n (Some x)) as [z|] eqn:Hz; [|done].
    simpl in H. apply advance_minStep in H. specialize (IH z eq_refl). lia.
Qed.

Lemma advance_n_lt u (n m : nat) (t : tv) x y :
  (n < m)%nat -> advance_n u n t = Some x -> advance_n u m t = Some y -> x < y.
Proof.
  intros Hnm Hx Hy.
  replace m with (n + (m - n))%nat in Hy by lia.
  rewrite advance_n_add, Hx in Hy.
  apply advance_n_grows in Hy. pose proof (minStep_pos u). nia.
Qed.

(** *** The loop of the constructor *)

Lemma segments_loop_spec fuel u endDate cur acc segs cur' :
  segments_loop fuel (Own u) endDate cur acc = Some (Normal (segs, cur')) ->
  exists xs,
    segs = acc ++ xs
    /\ cur' = advance_n u (length xs) cur
    /\ lt cur' (Some endDate) = false
    /\ forall k x, xs !! k = Some x -> advance_n u k cur = Some x /\ x < endDate.
Proof.
  revert cur acc. induction fuel as [|fuel IH]; intros cur acc H.
  - destruct cur as [c|]; simpl in H.
    + destruct (c <? endDate) eqn:Hc; [done|]. injection H as <- <-.
      exists []. rewrite app_nil_r. simpl. rewrite Hc. by split_and!.
    + injection H as <- <-. exists []. rewrite app_nil_r. by split_and!.
  - destruct cur as [c|]; simpl in H.
    + destruct (c <? endDate) eqn:Hc.
      * apply IH in H as (xs & -> & -> & Hlt & Hxs).
        exists (c :: xs). rewrite <- app_assoc. split_and!; try done.
        intros [|k] z Hk; simpl in Hk.
        -- injection Hk as <-. split; [done|]. lia.
        -- by apply Hxs.
      * injection H as <- <-. exists []. rewrite app_nil_r. simpl. rewrite Hc.
        by split_and!.
    + injection H as <- <-. exists []. rewrite app_nil_r. by split_and!.
Qed.

(** The loop ends within the turns [loop_fuel] allows. *)
Lemma segments_loop_total fuel u endDate c acc :
  (endDate - c) / minStep u < Z.of_nat fuel ->
  exists r, segments_loop fuel (Own u) endDate (Some c) acc = Some (Normal r).
Proof.
  revert c acc. induction fuel as [|fuel IH]; intros c acc Hfuel.
  - simpl. destruct (c <? endDate) eqn:Hc; [|by eexists].
    pose proof (minStep_pos u). apply Z.ltb_lt in Hc.
    assert (0 <= (endDate - c) / minStep u) by (apply Z.div_pos; lia). lia.
  - simpl. destruct (c <? endDate) eqn:Hc; [|by eexists].
    destruct (advance u c) as [c'|] eqn:Hadv.
    + apply IH. apply advance_minStep in Hadv.
      pose proof (minStep_pos u) as Hpos.
      assert ((endDate - c') / minStep u <= (endDate - c - minStep u) / minStep u)
        by (apply Z.div_le_mono; lia).
      replace (endDate - c - minStep u) with (endDate - c + (-1) * minStep u) in * by lia.
      rewrite Z.div_add in * by lia. lia.
    + destruct fuel; by eexists.
Qed.

(** An inherited member that returns never moves the cursor: no number of
    turns ends the loop. *)
Lemma segments_loop_inherited fuel key endDate c acc :
  inherited_call_returns key = true -> c < endDate ->
  segments_loop fuel (Inherited key) endDate (Some c) acc = None.
Proof.
  intros Hkey Hc. revert acc. induction fuel as [|fuel IH]; intros acc; simpl.
  - by rewrite (proj2 (Z.ltb_lt _ _) Hc).
  - by rewrite (proj2 (Z.ltb_lt _ _) Hc), Hkey.
Qed.

(** *** The iterator *)

Lemma iterate_from_length segs interval :
  length (iterate_from segs interval) = (length segs - 1)%nat.
Proof.
  induction segs as [|a [|b rest] IH]; [done..|].
  change (iterate_from (a :: b :: rest) interval)
    with (DateRangeInterval_new (Some a) (Some b) interval :: iterate_from (b :: rest) interval).
  simpl in *. rewrite IH. lia.
Qed.

Lemma iterate_from_lookup segs interval i iv :
  iterate_from segs interval !! i = Some iv <->
  exists a b, segs !! i = Some a /\ segs !! S i = Some b
              /\ iv = DateRangeInterval_new (Some a) (Some b) interval.
Proof.
  revert i. induction segs as [|a [|b rest] IH]; intros i.
  - split; [done|]. by intros (? & ? & ? & _).
  - split; [done|]. intros (? & ? & _ & H & _). by destruct i.
  - change (iterate_from (a :: b :: rest) interval)
      with (DateRangeInterval_new (Some a) (Some b) interval :: iterate_from (b :: rest) interval).
    destruct i as [|i].
    + simpl. split.
      * intros [= <-]. by exists a, b.
      * intros (? & ? & [= <-] & [= <-] & ->). done.
    + change ((?x :: ?l) !! S i) with (l !! i). rewrite IH.
      split; intros (a' & b' & ? & ? & ?); by exists a', b'.
Qed.

(** *** The lookup tables *)

Lemma own_key_name u : own_key (granularity_name u) = Some u.
Proof. by destruct u. Qed.

Lemma own_key_inv interval u : own_key interval = Some u -> interval = granularity_name u.
Proof.
  unfold own_key. intros H.
  repeat (match type of H with
          | context [String.eqb ?a ?b] =>
              destruct (String.eqb_spec a b) as [->|_]; [by injection H as <-|]
          end).
  done.
Qed.

Lemma advanceByInterval_entry_own interval u :
  own_key interval = Some u -> advanceByInterval_entry interval = Own u.
Proof. unfold advanceByInterval_entry. by intros ->. Qed.

Lemma advanceByInterval_entry_Own_inv interval u :
  advanceByInterval_entry interval = Own u -> own_key interval = Some u.
Proof.
  unfold advanceByInterval_entry. destruct (own_key interval); [by intros [= ->]|].
  by case_match.
Qed.

Lemma lowerInterval_of_own interval l :
  lowerInterval_of interval = Some l -> exists u, own_key l = Some u.
Proof.
  unfold lowerInterval_of. destruct (own_key interval) as [[]|]; intros [= <-]; by eexists.
Qed.

Lemma lowerInterval_of_height interval l :
  lowerInterval_of interval = Some l -> (height l < height interval)%nat.
Proof.
  unfold lowerInterval_of, height.
  destruct (own_key interval) as [[]|]; intros [= <-]; simpl; lia.
Qed.

Section HostFacts.

Variable Date_parse : string -> tv.

Lemma DateRangeIntervals_Normal vstart vend interval u ts te :
  ToBoolean vstart = true -> ToBoolean vend = true ->
  Date_new Date_parse vstart = Some ts -> Date_new Date_parse vend = Some te ->
  ts < te -> own_key interval = Some u ->
  exists s, DateRangeIntervals Date_parse vstart vend interval = Normal s /\ built u ts te interval s.
Proof.
  intros Hs He Hts Hte Hlt Hu. unfold DateRangeIntervals.
  rewrite Hs, He, Hts, Hte. cbn [negb orb ge].
  rewrite (proj2 (Z.leb_gt _ _) Hlt), (advanceByInterval_entry_own _ _ Hu).
  destruct (segments_loop_total (loop_fuel (Own u) ts te) u te ts []) as [[segs cur] Hloop].
  { unfold loop_fuel. pose proof (minStep_pos u).
    assert (0 <= (te - ts) / minStep u) by (apply Z.div_pos; lia). lia. }
  rewrite Hloop. eexists. split; [done|].
  apply segments_loop_spec in Hloop as (xs & -> & -> & Hcur & Hxs). simpl in *.
  exists xs. split_and!; try done.
  - destruct xs; [|simpl; lia]. simpl in Hcur. apply Z.ltb_ge in Hcur. lia.
  - rewrite length_app. simpl. lia.
Qed.

(** Conversely, a set is only ever built from two truthy arguments that
    convert to instants in order, and for one of the eight units. *)
Lemma DateRangeIntervals_Normal_inv vstart vend interval s :
  DateRangeIntervals Date_parse vstart vend interval = Normal s ->
  exists u ts te,
    ToBoolean vstart = true /\ ToBoolean vend = true
    /\ Date_new Date_parse vstart = Some ts /\ Date_new Date_parse vend = Some te
    /\ ts < te /\ own_key interval = Some u /\ built u ts te interval s.
Proof.
  intros H. pose proof H as H0. unfold DateRangeIntervals in H.
  destruct (ToBoolean vstart) eqn:Hs; [|done].
  destruct (ToBoolean vend) eqn:He; [|done]. simpl in H.
  destruct (Date_new Date_parse vstart) as [ts|] eqn:Hts; [|done].
  destruct (Date_new Date_parse vend) as [te|] eqn:Hte; [|done]. simpl in H.
  destruct (te <=? ts) eqn:Hle; [done|]. apply Z.leb_gt in Hle.
  destruct (advanceByInterval_entry interval) as [u|key|] eqn:Hentry; [| |done].
  - apply advanceByInterval_entry_Own_inv in Hentry.
    destruct (DateRangeIntervals_Normal vstart vend interval u ts te) as (s' & Hs' & Hb);
      try done.
    rewrite H0 in Hs'. injection Hs' as <-. by exists u, ts, te.
  - simpl in H. rewrite (proj2 (Z.ltb_lt _ _) Hle) in H.
    unfold call_entry in H. by destruct (inherited_call_returns key); simpl in H;
      rewrite ?(proj2 (Z.ltb_lt _ _) Hle) in H.
Qed.

End HostFacts.

(** *** Boundaries of a built set *)

Lemma built_segments_increasing u ts te name s :
  built u ts te name s -> strictly_increasing (segments s).
Proof.
  intros (xs & Hsegs & _ & Hxs & _). rewrite Hsegs.
  intros i j a b Hij Ha Hb.
  assert (i < length xs)%nat as Hi.
  { apply lookup_lt_Some in Hb. rewrite length_app in Hb. simpl in Hb. lia. }
  rewrite lookup_app_l in Ha by done. apply Hxs in Ha as [Ha Hlt].
  destruct (decide (j < length xs)%nat) as [Hj|Hj].
  - rewrite lookup_app_l in Hb by done. apply Hxs in Hb as [Hb _].
    exact (advance_n_lt u i j (Some ts) a b Hij Ha Hb).
  - rewrite lookup_app_r in Hb by lia.
    destruct (j - length xs)%nat as [|[|]]; simpl in Hb; try done.
    by injection Hb as <-.
Qed.

Lemma built_first u ts te name s : built u ts te name s -> segments s !! 0%nat = Some ts.
Proof.
  intros (xs & -> & Hlen & Hxs & _). destruct xs as [|x xs]; [simpl in Hlen; lia|].
  simpl. destruct (Hxs 0%nat x eq_refl) as [H _]. simpl in H. by rewrite H.
Qed.

Lemma built_last u ts te name s : built u ts te name s -> last (segments s) = Some te.
Proof. intros (xs & -> & _). by rewrite last_snoc. Qed.

Lemma built_length u ts te name s :
  built u ts te name s ->
  length_ s = Z.of_nat (length (segments s)) - 1 /\ 1 <= length_ s.
Proof.
  intros (xs & -> & Hlen & _ & _ & _ & -> & _). rewrite length_app. simpl. lia.
Qed.

(** *** Tiling *)

Lemma iterate_from_tiles segs name a b :
  strictly_increasing segs -> segs !! 0%nat = Some a -> last segs = Some b ->
  tiles a b (iterate_from segs name).
Proof.
  revert a. induction segs as [|x [|y rest] IH]; intros a Hinc Ha Hb; [done| |].
  - simpl in *. congruence.
  - change (iterate_from (x :: y :: rest) name)
      with (DateRangeInterval_new (Some x) (Some y) name :: iterate_from (y :: rest) name).
    simpl in Ha. injection Ha as ->. simpl. split; [done|]. exists y. split; [done|].
    split; [apply (Hinc 0%nat 1%nat); [lia|done|done]|].
    apply IH; [|done|done].
    intros i j c d Hij Hc Hd. apply (Hinc (S i) (S j)); [lia|done|done].
Qed.

(** No gap: every instant of the range is in some interval.  No overlap:
    in at most one. *)
Lemma tiles_covers a b ivs t :
  tiles a b ivs -> a <= t < b -> exists i iv, ivs !! i = Some iv /\ covers iv t.
Proof.
  revert a. induction ivs as [|iv rest IH]; intros a Htiles Ht; simpl in Htiles.
  - lia.
  - destruct Htiles as (Hs & e & He & Hae & Hrest).
    destruct (decide (t < e)) as [Hte|Hte].
    + exists 0%nat, iv. split; [done|]. exists a, e. split_and!; try done; lia.
    + destruct (IH e Hrest) as (i & iv' & Hi & Hcov); [lia|].
      by exists (S i), iv'.
Qed.

Lemma tiles_from a b ivs i iv s :
  tiles a b ivs -> ivs !! i = Some iv -> i_start iv = Some s -> a <= s.
Proof.
  revert a i. induction ivs as [|iv0 rest IH]; intros a i Htiles Hi Hs; [done|].
  destruct Htiles as (Hs0 & e & He & Hae & Hrest). destruct i as [|i]; simpl in Hi.
  - injection Hi as ->. rewrite Hs in Hs0. injection Hs0 as ->. lia.
  - specialize (IH e i Hrest Hi Hs). lia.
Qed.

Lemma tiles_disjoint a b ivs i j iv iv' t :
  tiles a b ivs -> ivs !! i = Some iv -> ivs !! j = Some iv' ->
  covers iv t -> covers iv' t -> i = j.
Proof.
  revert a i j. induction ivs as [|iv0 rest IH]; intros a i j Htiles Hi Hj Hc Hc'; [done|].
  destruct Htiles as (Hs0 & e & He & Hae & Hrest).
  destruct i as [|i], j as [|j]; simpl in Hi, Hj; [done| | |].
  - injection Hi as ->. destruct Hc as (s1 & e1 & Hs1 & He1 & Ht).
    destruct Hc' as (s2 & e2 & Hs2 & _ & Ht').
    pose proof (tiles_from _ _ _ _ _ _ Hrest Hj Hs2). simplify_eq. lia.
  - injection Hj as ->. destruct Hc' as (s1 & e1 & Hs1 & He1 & Ht).
    destruct Hc as (s2 & e2 & Hs2 & _ & Ht').
    pose proof (tiles_from _ _ _ _ _ _ Hrest Hi Hs2). simplify_eq. lia.
  - f_equal. by eapply IH.
Qed.

Lemma tiles_within a b ivs i iv t :
  tiles a b ivs -> ivs !! i = Some iv -> covers iv t -> a <= t < b.
Proof.
  revert a i. induction ivs as [|iv0 rest IH]; intros a i Htiles Hi Hc; [done|].
  destruct Htiles as (Hs0 & e & He & Hae & Hrest).
  assert (e <= b) as Heb.
  { clear -Hrest. revert e Hrest. induction rest as [|iv1 rest IH]; intros e H; simpl in H.
    - lia.
    - destruct H as (_ & e' & _ & ? & H). specialize (IH e' H). lia. }
  destruct i as [|i]; simpl in Hi.
  - injection Hi as ->. destruct Hc as (s1 & e1 & Hs1 & He1 & Ht). simplify_eq. lia.
  - specialize (IH e i Hrest Hi Hc). lia.
Qed.

Lemma strict_eq_true c te : strict_eq c (Some te) = true <-> c = Some te.
Proof.
  destruct c as [x|]; simpl; [|done]. rewrite Z.eqb_eq. split; congruence.
Qed.

Lemma advance_n_fixed_eq u (n : nat) x y :
  fixed_length u = true ->
  advance_n u n (Some x) = Some y -> y = x + Z.of_nat n * minStep u.
Proof.
  intros Hfix. revert y. induction n as [|n IH]; intros y H.
  - simpl in H. injection H as ->. lia.
  - rewrite advance_n_succ in H.
    destruct (advance_n u n (Some x)) as [z|]; [|done]. simpl in H.
    rewrite advance_fixed in H by done. apply TimeClip_Some in H as [-> _].
    rewrite (IH z eq_refl). lia.
Qed.

Lemma advance_n_fixed_in_range u (n : nat) x :
  fixed_length u = true ->
  Z.abs x <= maxTime -> Z.abs (x + Z.of_nat n * minStep u) <= maxTime ->
  advance_n u n (Some x) = Some (x + Z.of_nat n * minStep u).
Proof.
  intros Hfix Hx. pose proof (minStep_pos u) as Hpos.
  induction n as [|n IH]; intros Hn.
  - simpl. f_equal. lia.
  - rewrite advance_n_succ, IH by nia. simpl.
    rewrite advance_fixed by done. unfold TimeClip.
    replace (x + Z.of_nat n * minStep u + minStep u)
      with (x + Z.of_nat (S n) * minStep u) by lia.
    by rewrite (proj2 (Z.ltb_ge _ _) Hn).
Qed.

Section ConstructorFacts.

Variable Date_parse : string -> tv.

Lemma Date_new_range v t : Date_new Date_parse v = Some t -> Z.abs t <= maxTime.
Proof.
  unfold Date_new. intros H. apply bind_Some in H as (x & _ & H).
  by apply TimeClip_Some in H as [-> ?].
Qed.

Lemma built_cursor_stops u ts te name s :
  built u ts te name s -> cursor_stops u ts te (Z.to_nat (length_ s)).
Proof.
  intros (xs & _ & _ & Hxs & Hstop & _ & -> & _). rewrite Nat2Z.id. split; [done|].
  intros k Hk. destruct (lookup_lt_is_Some_2 xs k Hk) as [x Hx].
  apply Hxs in Hx as [-> Hlt]. simpl. by apply Z.ltb_lt.
Qed.

Lemma cursor_stops_unique u ts te n m :
  cursor_stops u ts te n -> advance_n u m (Some ts) = Some te -> m = n.
Proof.
  intros [Hstop Hbefore] Hm.
  destruct (lt_eq_lt_dec m n) as [[Hlt| ->]|Hgt]; [|done|].
  - specialize (Hbefore m Hlt). rewrite Hm in Hbefore. simpl in Hbefore.
    apply Z.ltb_lt in Hbefore. lia.
  - destruct (advance_n u n (Some ts)) as [x|] eqn:Hn.
    + simpl in Hstop. apply Z.ltb_ge in Hstop.
      pose proof (advance_n_lt u n m (Some ts) x te Hgt Hn Hm). lia.
    + replace m with (n + (m - n))%nat in Hm by lia.
      by rewrite advance_n_add, Hn, advance_n_None in Hm.
Qed.

(** C1.  Every construction from two present, parseable instants in order
    and one of the eight units succeeds; its first boundary is the start,
    its last the end, the boundaries are strictly increasing, [length] is
    their number minus one and is at least one, the iterator yields
    [length] pairs of adjacent boundaries, and these pairs tile the range:
    each ends where the next starts, every instant of the range is in one
    pair and only one, and no pair reaches outside the range. *)
Theorem boundaries_tile_range vstart vend name u ts te :
  ToBoolean vstart = true -> ToBoolean vend = true ->
  Date_new Date_parse vstart = Some ts -> Date_new Date_parse vend = Some te ->
  ts < te -> own_key name = Some u ->
  exists s,
    DateRangeIntervals Date_parse vstart vend name = Normal s
    /\ start s = ts /\ end_ s = te
    /\ segments s !! 0%nat = Some ts
    /\ last (segments s) = Some te
    /\ strictly_increasing (segments s)
    /\ length_ s = Z.of_nat (length (segments s)) - 1
    /\ 1 <= length_ s
    /\ Z.of_nat (length (iterate s)) = length_ s
    /\ (forall i iv, iterate s !! i = Some iv <->
          exists a b, segments s !! i = Some a /\ segments s !! S i = Some b
                      /\ iv = DateRangeInterval_new (Some a) (Some b) name)
    /\ tiles ts te (iterate s)
    /\ (forall t, ts <= t < te ->
          exists i iv, iterate s !! i = Some iv /\ covers iv t
            /\ forall j iv', iterate s !! j = Some iv' -> covers iv' t -> j = i)
    /\ (forall i iv t, iterate s !! i = Some iv -> covers iv t -> ts <= t < te).
Proof.
  intros Hs He Hts Hte Hlt Hu.
  destruct (DateRangeIntervals_Normal Date_parse vstart vend name u ts te)
    as (s & Hnormal & Hbuilt); try done.
  pose proof (built_segments_increasing _ _ _ _ _ Hbuilt) as Hinc.
  pose proof (built_first _ _ _ _ _ Hbuilt) as Hfirst.
  pose proof (built_last _ _ _ _ _ Hbuilt) as Hlast.
  pose proof (built_length _ _ _ _ _ Hbuilt) as [Hlen Hlen1].
  assert (interval s = name) as Hname by (by destruct Hbuilt as (? & ? & ? & ? & ? & ? & ? & ? & ? & ? & ?)).
  assert (start s = ts /\ end_ s = te) as [Hstart Hend]
    by (by destruct Hbuilt as (? & ? & ? & ? & ? & ? & ? & ? & ? & ? & ?)).
  assert (tiles ts te (iterate s)) as Htiles by (by apply iterate_from_tiles).
  exists s. split_and!; try done.
  - unfold iterate. rewrite iterate_from_length. lia.
  - intros i iv. unfold iterate. rewrite iterate_from_lookup. by rewrite Hname.
  - intros t Ht. destruct (tiles_covers _ _ _ _ Htiles Ht) as (i & iv & Hi & Hc).
    exists i, iv. split_and!; try done. intros j iv' Hj Hc'.
    by eapply (tiles_disjoint _ _ _ j i).
  - intros i iv t Hi Hc. by eapply tiles_within.
Qed.

(** The intervals of every set the constructor builds tile the range
    between the two instants it was given. *)
Lemma constructed_tiles vstart vend name s :
  DateRangeIntervals Date_parse vstart vend name = Normal s ->
  Date_new Date_parse vstart = Some (start s)
  /\ Date_new Date_parse vend = Some (end_ s)
  /\ tiles (start s) (end_ s) (iterate s).
Proof.
  intros H. apply DateRangeIntervals_Normal_inv in H
    as (u & ts & te & _ & _ & Hts & Hte & _ & _ & Hb).
  pose proof (built_segments_increasing _ _ _ _ _ Hb) as Hinc.
  pose proof (built_first _ _ _ _ _ Hb) as Hfirst.
  pose proof (built_last _ _ _ _ _ Hb) as Hlast.
  destruct Hb as (_ & _ & _ & _ & _ & _ & _ & -> & -> & _).
  split_and!; [done..|]. by apply iterate_from_tiles.
Qed.

(** C4.  [isEquipartition] is true exactly when the cursor, advanced from
    the start until it first stands at or after the end, stands on the end;
    that is, when some number of whole advances leads from the start to the
    end; that is, when one advance leads from the last boundary before the
    end to the end.  For the units of fixed length this is when the length
    of the range is a multiple of the unit. *)
Theorem isEquipartition_iff vstart vend name u ts te :
  ToBoolean vstart = true -> ToBoolean vend = true ->
  Date_new Date_parse vstart = Some ts -> Date_new Date_parse vend = Some te ->
  ts < te -> own_key name = Some u ->
  exists s n,
    DateRangeIntervals Date_parse vstart vend name = Normal s
    /\ Z.of_nat n = length_ s
    /\ cursor_stops u ts te n
    /\ (isEquipartition s = true <-> advance_n u n (Some ts) = Some te)
    /\ (isEquipartition s = true <-> exists m, advance_n u m (Some ts) = Some te)
    /\ (isEquipartition s = true <->
          exists b, segments s !! (n - 1)%nat = Some b /\ advance u b = Some te)
    /\ (fixed_length u = true ->
          (isEquipartition s = true <-> (te - ts) mod minStep u = 0)).
Proof.
  intros Hs He Hts Hte Hlt Hu.
  destruct (DateRangeIntervals_Normal Date_parse vstart vend name u ts te)
    as (s & Hnormal & Hbuilt); try done.
  pose proof (built_cursor_stops _ _ _ _ _ Hbuilt) as Hstops.
  destruct Hbuilt as (xs & Hsegs & Hpos & Hxs & Hstop & Heq & Hlen & _).
  rewrite Hlen, Nat2Z.id in Hstops.
  assert (isEquipartition s = true <-> advance_n u (length xs) (Some ts) = Some te) as Hiff.
  { rewrite Heq. apply strict_eq_true. }
  exists s, (length xs). split_and!; try done.
  - rewrite Hiff. split; [by eexists|]. intros [m Hm].
    by rewrite <- (cursor_stops_unique _ _ _ _ _ Hstops Hm).
  - rewrite Hiff, Hsegs.
    destruct (lookup_lt_is_Some_2 xs (length xs - 1)) as [b Hb]; [lia|].
    rewrite lookup_app_l by lia. rewrite Hb.
    replace (length xs) with (S (length xs - 1)) at 1 by lia.
    rewrite advance_n_succ. apply Hxs in Hb as [-> _]. simpl.
    split; [by eexists|]. by intros (b' & [= <-] & ?).
  - intros Hfix. rewrite Hiff. pose proof (minStep_pos u) as Hm. split.
    + intros H. apply advance_n_fixed_eq in H; [|done].
      rewrite H. replace (ts + Z.of_nat (length xs) * minStep u - ts)
        with (Z.of_nat (length xs) * minStep u) by lia.
      by apply Z_mod_mult.
    + intros Hmod. apply Z.mod_divide in Hmod as [q Hq]; [|lia].
      assert (0 <= q) by nia.
      assert (advance_n u (Z.to_nat q) (Some ts) = Some te) as Hadv.
      { replace te with (ts + Z.of_nat (Z.to_nat q) * minStep u) by lia.
        apply advance_n_fixed_in_range; [done|by eapply Date_new_range|].
        replace (ts + Z.of_nat (Z.to_nat q) * minStep u) with te by lia.
        by eapply Date_new_range. }
      by rewrite <- (cursor_stops_unique _ _ _ _ _ Hstops Hadv).
Qed.

(** *** The errors of the constructor *)

Lemma DateRangeIntervals_falsy vstart vend name :
  ToBoolean vstart = false \/ ToBoolean vend = false ->
  DateRangeIntervals Date_parse vstart vend name
  = Throw (JSError "Error" "Start and end dates required").
Proof.
  intros H. unfold DateRangeIntervals.
  by destruct H as [-> | ->]; [|rewrite orb_true_r].
Qed.

(** The four checks on [start] and [end] come first, whatever the unit. *)
Lemma DateRangeIntervals_invalid_input vstart vend name :
  ToBoolean vstart = false \/ ToBoolean vend = false
  \/ Date_new Date_parse vstart = None \/ Date_new Date_parse vend = None
  \/ ge (Date_new Date_parse vstart) (Date_new Date_parse vend) = true ->
  exists e, DateRangeIntervals Date_parse vstart vend name = Throw e /\ InvalidInput e.
Proof.
  intros H. unfold DateRangeIntervals, InvalidInput.
  destruct (ToBoolean vstart); [|eauto]. destruct (ToBoolean vend); [|eauto]. simpl.
  destruct (Date_new Date_parse vstart) as [ts|]; [|eauto 6].
  destruct (Date_new Date_parse vend) as [te|]; [|eauto 6].
  destruct (ge (Some ts) (Some te)) eqn:Hge; [eauto 7|].
  by destruct H as [|[|[|[|]]]].
Qed.

(** C7.  Construction throws one of the errors about [start] and [end]
    whenever one of them is missing (falsy), or does not convert to an
    instant, or the start is not before the end; it throws, so that no set
    is produced, and it does so whatever the unit is. *)
Theorem invalid_input_throws vstart vend name :
  ToBoolean vstart = false \/ ToBoolean vend = false
  \/ Date_new Date_parse vstart = None \/ Date_new Date_parse vend = None
  \/ (exists ts te, Date_new Date_parse vstart = Some ts
        /\ Date_new Date_parse vend = Some te /\ te <= ts) ->
  exists e,
    DateRangeIntervals Date_parse vstart vend name = Throw e /\ InvalidInput e
    /\ forall s, DateRangeIntervals Date_parse vstart vend name <> Normal s.
Proof.
  intros H.
  destruct (DateRangeIntervals_invalid_input vstart vend name) as (e & He & Hin).
  { destruct H as [|[|[|[|(ts & te & -> & -> & Hle)]]]]; auto.
    do 4 right. simpl. by apply Z.leb_le. }
  exists e. split_and!; try done. intros s. by rewrite He.
Qed.

(** C6, as the source has it.  For a unit that is neither one of the eight
    nor the name of a member of [Object.prototype], construction throws:
    the error about the unit when both arguments are present, convert to
    instants and are in order, and one of the errors about [start] and
    [end] otherwise, since these are checked first. *)
Theorem unknown_unit_throws vstart vend name :
  advanceByInterval_entry name = Absent ->
  exists e,
    DateRangeIntervals Date_parse vstart vend name = Throw e
    /\ ((ToBoolean vstart = true /\ ToBoolean vend = true
         /\ exists ts te, Date_new Date_parse vstart = Some ts
              /\ Date_new Date_parse vend = Some te /\ ts < te)
        -> InvalidUnit name e)
    /\ (~ (ToBoolean vstart = true /\ ToBoolean vend = true
           /\ exists ts te, Date_new Date_parse vstart = Some ts
                /\ Date_new Date_parse vend = Some te /\ ts < te)
        -> InvalidInput e).
Proof.
  intros Habsent. unfold DateRangeIntervals, InvalidInput, InvalidUnit.
  destruct (ToBoolean vstart); [|eexists; split_and!; [done|by intros (? & _)|eauto]].
  destruct (ToBoolean vend); [|eexists; split_and!; [done|by intros (_ & ? & _)|eauto]].
  simpl.
  destruct (Date_new Date_parse vstart) as [ts|];
    [|eexists; split_and!; [done|by intros (_ & _ & ? & ? & ? & _)|eauto 6]].
  destruct (Date_new Date_parse vend) as [te|];
    [|eexists; split_and!; [done|by intros (_ & _ & ? & ? & _ & ? & _)|eauto 6]].
  cbn [ge]. destruct (te <=? ts) eqn:Hle.
  - apply Z.leb_le in Hle. eexists. split_and!; [done| |eauto 7].
    intros (_ & _ & ? & ? & [= <-] & [= <-] & ?). lia.
  - apply Z.leb_gt in Hle. rewrite Habsent. eexists. split_and!; [done|done|].
    intros Hnot. destruct Hnot. split_and!; try done. by exists ts, te.
Qed.

(** For the inherited names the unit is not rejected: the loop starts with
    the inherited member as its advance. *)
Lemma inherited_unit_not_rejected vstart vend key ts te :
  advanceByInterval_entry key = Inherited key ->
  ToBoolean vstart = true -> ToBoolean vend = true ->
  Date_new Date_parse vstart = Some ts -> Date_new Date_parse vend = Some te ->
  ts < te ->
  DateRangeIntervals Date_parse vstart vend key
  = if inherited_call_returns key then Diverge
    else Throw (JSError "TypeError" "not callable without a receiver").
Proof.
  intros Hentry Hs He Hts Hte Hlt. unfold DateRangeIntervals.
  rewrite Hs, He, Hts, Hte, Hentry. cbn [negb orb ge].
  rewrite (proj2 (Z.leb_gt _ _) Hlt).
  destruct (inherited_call_returns key) eqn:Hret.
  - by rewrite segments_loop_inherited.
  - simpl. by rewrite (proj2 (Z.ltb_lt _ _) Hlt), Hret.
Qed.

(** C10.  The number 0 converts to the epoch, a valid instant, and yet as
    [start] it makes the construction throw the error for a missing
    argument, whatever the end and the unit are; so does the empty string,
    and so does every falsy [start] or [end]. *)
Theorem falsy_start_is_missing vend name :
  Date_new Date_parse (VNum (Some 0)) = Some 0
  /\ DateRangeIntervals Date_parse (VNum (Some 0)) vend name
     = Throw (JSError "Error" "Start and end dates required")
  /\ DateRangeIntervals Date_parse (VStr "") vend name
     = Throw (JSError "Error" "Start and end dates required")
  /\ forall vstart, ToBoolean vstart = false ->
       DateRangeIntervals Date_parse vstart vend name
       = Throw (JSError "Error" "Start and end dates required").
Proof.
  split_and!; try done. intros vstart H. apply DateRangeIntervals_falsy. by left.
Qed.

End ConstructorFacts.

(** *** Calls in a trace *)

Lemma calls_app tr1 tr2 : calls (tr1 ++ tr2) = calls tr1 ++ calls tr2.
Proof. apply omap_app. Qed.

Lemma calls_log e tr : calls (Log e :: tr) = calls tr.
Proof. done. Qed.

Lemma calls_visit p d iv tr : calls (Visit p d iv :: tr) = (p, d, iv) :: calls tr.
Proof. done. Qed.

Section AcceptFacts.

Variable Date_parse : string -> tv.
Context {St : Type}.
Variable visit : Callback St.

Implicit Types (v : VisitorFields St) (tr : list event) (exn : option thrown).
Implicit Types (rec : IntervalSet -> VisitorFields St -> option (@run St)).

(** *** Inversion of the steps of the traversal *)

Lemma descend_inv rec l a b v v' tr exn :
  descend Date_parse rec l a b v = Some (v', tr, exn) ->
  (exists child v2 tr2,
      DateRangeIntervals Date_parse (VDate a) (VDate b) l = Normal child
      /\ rec child (set_depth v (depth v + 1)) = Some (v2, tr2, exn)
      /\ v' = set_depth v2 (depth v2 - 1)
      /\ tr = Log (construction_log child) :: tr2)
  \/ (exists err,
      DateRangeIntervals Date_parse (VDate a) (VDate b) l = Throw err
      /\ v' = set_depth (set_depth v (depth v + 1)) (depth v + 1 - 1)
      /\ tr = [] /\ exn = Some err).
Proof.
  unfold descend. intros H.
  destruct (DateRangeIntervals Date_parse (VDate a) (VDate b) l) as [child|err|]; [| |done].
  - destruct (rec child _) as [[[v2 tr2] exn2]|] eqn:Hrec; [|done].
    injection H as <- <- <-. left. by exists child, v2, tr2.
  - injection H as <- <- <-. right. by exists err.
Qed.

Lemma try_visit_inv (rec : list nat -> IntervalSet -> VisitorFields St -> option (@run St))
    path lower v iv v1 tr1 exn bounds :
  try_visit Date_parse visit rec path lower v iv = Some ((v1, tr1, exn), bounds) ->
  let r := visit v iv in
  bounds = (r_start r, r_end r)
  /\ ((v1 = r_fields r /\ tr1 = [Visit path (depth v) iv]
       /\ match r_outcome r with
          | Raised e => exn = Some e
          | Returned subdivide =>
              exn = None
              /\ (subdivide && subIntervals (r_fields r) = false \/ lower = None)
          end)
      \/ (exists l trd,
            lower = Some l /\ r_outcome r = Returned true
            /\ subIntervals (r_fields r) = true
            /\ descend Date_parse (rec path) l (r_start r) (r_end r) (r_fields r)
               = Some (v1, trd, exn)
            /\ tr1 = Visit path (depth v) iv
                       :: Log (LogRecursing l (r_start r) (r_end r)) :: trd)).
Proof.
  unfold try_visit. intros H. cbv zeta.
  destruct (r_outcome (visit v iv)) as [subdivide|e] eqn:Hout.
  - destruct lower as [l|].
    + destruct (subdivide && subIntervals (r_fields (visit v iv))) eqn:Hsub.
      * destruct (descend _ _ _ _ _ _) as [[[v' trd] exn']|] eqn:Hd; [|done].
        injection H as <- <- <- <-. split; [done|]. right.
        apply andb_true_iff in Hsub as [-> Hsub]. by exists l, trd.
      * injection H as <- <- <- <-. split; [done|]. left. split_and!; try done. by left.
    + injection H as <- <- <- <-. split; [done|]. left. split_and!; try done. by right.
  - injection H as <- <- <- <-. split; [done|]. by left.
Qed.

(** One turn of the loop: the message, the [try] block, then either the
    next turn -- after the error message, when something was caught -- or,
    when the [catch] block itself throws, the end of the traversal. *)
Lemma accept_loop_cons_inv
    (rec : list nat -> IntervalSet -> VisitorFields St -> option (@run St))
    prefix lower idx iv rest v v' tr exn :
  accept_loop Date_parse visit rec prefix lower idx (iv :: rest) v = Some (v', tr, exn) ->
  (exists x, visiting_log (i_start iv) (i_end iv) = Throw x
             /\ v' = v /\ tr = [] /\ exn = Some x)
  \/ (exists msg v1 tr1 exn1 a b,
        visiting_log (i_start iv) (i_end iv) = Normal msg
        /\ try_visit Date_parse visit rec (prefix ++ [idx]) lower v iv
           = Some ((v1, tr1, exn1), (a, b))
        /\ ((exists logs tr2,
               (exn1 = None /\ logs = []
                \/ exists err entry,
                     exn1 = Some err
                     /\ visitor_error_log (depth v1) (i_interval iv) a b err = Normal entry
                     /\ logs = [Log entry])
               /\ accept_loop Date_parse visit rec prefix lower (S idx) rest v1
                  = Some (v', tr2, exn)
               /\ tr = Log msg :: tr1 ++ logs ++ tr2)
            \/ (exists err x,
                  exn1 = Some err
                  /\ visitor_error_log (depth v1) (i_interval iv) a b err = Throw x
                  /\ v' = v1 /\ tr = Log msg :: tr1 /\ exn = Some x))).
Proof.
  intros H. simpl in H.
  destruct (visiting_log (i_start iv) (i_end iv)) as [msg|x|]; [| |done].
  - right.
    destruct (try_visit _ _ _ _ _ _ _) as [[[[v1 tr1] [err|]] [a b]]|] eqn:Htry; [| |done].
    + destruct (visitor_error_log _ _ _ _ _) as [entry|x|] eqn:Hlog; [| |done].
      * destruct (accept_loop _ _ _ _ _ _ _ _) as [[[v2 tr2] exn2]|] eqn:Hrest; [|done].
        injection H as <- <- <-. exists msg, v1, tr1, (Some err), a, b.
        split_and!; try done. left. exists [Log entry], tr2. split_and!; try done.
        right. by exists err, entry.
      * injection H as <- <- <-. exists msg, v1, tr1, (Some err), a, b.
        split_and!; try done. right. by exists err, x.
    + destruct (accept_loop _ _ _ _ _ _ _ _) as [[[v2 tr2] exn2]|] eqn:Hrest; [|done].
      injection H as <- <- <-. exists msg, v1, tr1, None, a, b.
      split_and!; try done. left. exists [], tr2. split_and!; try done. by left.
  - injection H as <- <- <-. left. by exists x.
Qed.

(** *** The traversal has a result *)

Lemma DateRangeIntervals_own_completes vstart vend name u :
  own_key name = Some u ->
  DateRangeIntervals Date_parse vstart vend name <> Diverge.
Proof.
  intros Hu.
  destruct (ToBoolean vstart) eqn:Hs; [|by rewrite DateRangeIntervals_falsy by auto].
  destruct (ToBoolean vend) eqn:He; [|by rewrite DateRangeIntervals_falsy by auto].
  destruct (Date_new Date_parse vstart) as [ts|] eqn:Hts; cycle 1.
  { destruct (DateRangeIntervals_invalid_input Date_parse vstart vend name) as (e & -> & _);
      auto. }
  destruct (Date_new Date_parse vend) as [te|] eqn:Hte; cycle 1.
  { destruct (DateRangeIntervals_invalid_input Date_parse vstart vend name) as (e & -> & _);
      auto. }
  destruct (decide (ts < te)) as [Hlt|Hge].
  - by destruct (DateRangeIntervals_Normal Date_parse vstart vend name u ts te)
      as (s & -> & _).
  - destruct (DateRangeIntervals_invalid_input Date_parse vstart vend name) as (e & -> & _);
      [|done].
    do 4 right. rewrite Hts, Hte. simpl. apply Z.leb_le. lia.
Qed.

Lemma DateRangeIntervals_throws_error vstart vend name e :
  (exists u, own_key name = Some u) ->
  DateRangeIntervals Date_parse vstart vend name = Throw e ->
  exists msg, e = JSError "Error" msg.
Proof.
  intros [u Hu] H. unfold DateRangeIntervals in H.
  destruct (negb (ToBoolean vstart) || negb (ToBoolean vend)); [injection H as <-; eauto|].
  destruct (Date_new Date_parse vstart) as [ts|]; [|injection H as <-; eauto].
  destruct (Date_new Date_parse vend) as [te|]; [|injection H as <-; eauto].
  destruct (ge (Some ts) (Some te)); [injection H as <-; eauto|].
  rewrite (advanceByInterval_entry_own _ _ Hu) in H.
  destruct (segments_loop_total (loop_fuel (Own u) ts te) u te ts []) as [[segs cur] Hloop].
  { unfold loop_fuel. pose proof (minStep_pos u).
    destruct (decide (ts <= te)).
    - assert (0 <= (te - ts) / minStep u) by (apply Z.div_pos; lia). lia.
    - assert ((te - ts) / minStep u < 0) by (apply Z.div_lt_upper_bound; lia). lia. }
  unfold Date_new in *. by rewrite Hloop in H.
Qed.

Lemma constructed_of_Normal vstart vend name s :
  DateRangeIntervals Date_parse vstart vend name = Normal s -> constructed name s.
Proof.
  intros H. apply DateRangeIntervals_Normal_inv in H
    as (u & ts & te & _ & _ & _ & _ & _ & Hu & Hb).
  by exists u, ts, te.
Qed.

Lemma constructed_interval name s : constructed name s -> interval s = name.
Proof. by intros (u & ts & te & _ & (? & ? & ? & ? & ? & ? & ? & ? & ? & ? & ?)). Qed.

Lemma constructed_lower name s :
  constructed name s -> lowerInterval s = lowerInterval_of name.
Proof. by intros (u & ts & te & _ & (? & ? & ? & ? & ? & ? & ? & ? & ? & ? & ?)). Qed.

Lemma accept_loop_total
    (rec : list nat -> IntervalSet -> VisitorFields St -> option (@run St))
    prefix lower idx ivs v :
  (forall l, lower = Some l -> exists u, own_key l = Some u) ->
  (forall l path child v1, lower = Some l -> constructed l child ->
     is_Some (rec path child v1)) ->
  is_Some (accept_loop Date_parse visit rec prefix lower idx ivs v).
Proof.
  intros Hown Hrec. revert idx v. induction ivs as [|iv rest IH]; intros idx v; [done|].
  simpl. destruct (visiting_log _ _) as [msg|x|] eqn:Hmsg; [|done|].
  2:{ unfold visiting_log, toISOString in Hmsg. by repeat case_match. }
  assert (is_Some (try_visit Date_parse visit rec (prefix ++ [idx]) lower v iv)) as [t Ht].
  { unfold try_visit. destruct (r_outcome (visit v iv)) as [subdivide|e]; [|done].
    destruct lower as [l|]; [|done].
    destruct (subdivide && _); [|done].
    unfold descend.
    destruct (DateRangeIntervals _ _ _ l) as [child|err|] eqn:Hc; [|done|].
    - destruct (Hrec l (prefix ++ [idx]) child
        (set_depth (r_fields (visit v iv)) (depth (r_fields (visit v iv)) + 1)) eq_refl)
        as [[[v2 tr2] exn2] ->]; [by eapply constructed_of_Normal|done].
    - destruct (Hown l eq_refl) as [u Hu].
      by destruct (DateRangeIntervals_own_completes _ _ _ _ Hu Hc). }
  rewrite Ht. destruct t as [[[v1 tr1] [err|]] [a b]].
  - destruct (visitor_error_log _ _ _ _ _) as [entry|x|] eqn:Hlog; [|done|].
    + by destruct (IH (S idx) v1) as [[[v2 tr2] exn2] ->].
    + unfold visitor_error_log in Hlog. unfold toISOString, message_of in Hlog.
      by repeat case_match.
  - by destruct (IH (S idx) v1) as [[[v2 tr2] exn2] ->].
Qed.

Lemma accept_fuel_total fuel prefix name s v :
  constructed name s -> (height name < fuel)%nat ->
  is_Some (accept_fuel Date_parse visit fuel prefix s v).
Proof.
  revert prefix name s v. induction fuel as [|fuel IH]; intros prefix name s v Hs Hfuel;
    [lia|].
  simpl. rewrite (constructed_lower _ _ Hs). apply accept_loop_total.
  - intros l. apply lowerInterval_of_own.
  - intros l path child v1 Hl Hchild. apply (IH path l); [done|].
    apply lowerInterval_of_height in Hl. lia.
Qed.

End AcceptFacts.

(** *** Paths *)




Lemma path_before_irrefl p : ~ path_before p p.
Proof. induction p as [|i p IH]; simpl; [tauto|]. intros [?|[_ ?]]; [lia|done]. Qed.

(** *** Pre-order walks *)

Section Walks.

Variable Date_parse : string -> tv.
Context {St : Type}.
Variable visit : Callback St.

Lemma walk_paths prefix idx name cs c :
  preorder_walk Date_parse visit prefix idx name cs -> c ∈ cs ->
  exists k q, c.1.1 = prefix ++ k :: q /\ (idx <= k)%nat.
Proof.
  intros Hwalk. revert c.
  induction Hwalk as [|prefix idx name d iv lower sub rest Hname Hlower Hsub IHsub Hrest IHrest];
    intros c Hc.
  - by apply elem_of_nil in Hc.
  - apply elem_of_cons in Hc as [->|Hc].
    + exists idx, []. by split.
    + apply elem_of_app in Hc as [Hc|Hc].
      * destruct (IHsub c Hc) as (k & q & -> & _). exists idx, (k :: q).
        by rewrite <- app_assoc.
      * destruct (IHrest c Hc) as (k & q & -> & Hk). exists k, q. split; [done|lia].
Qed.


(** The calls of the first level of a walk visit intervals of its unit. *)
Lemma walk_top_unit prefix idx name cs j k d iv :
  preorder_walk Date_parse visit prefix idx name cs ->
  cs !! j = Some (prefix ++ [k], d, iv) -> i_interval iv = name.
Proof.
  intros Hwalk. revert j.
  induction Hwalk as [|prefix idx name d0 iv0 lower sub rest Hname Hlower Hsub _ Hrest IHrest];
    intros j Hj; [done|].
  destruct j as [|j]; simpl in Hj.
  - by injection Hj as _ _ <-.
  - destruct (decide (j < length sub)%nat).
    + rewrite lookup_app_l in Hj by lia.
      destruct (walk_paths _ _ _ _ _ Hsub (list_elem_of_lookup_2 _ _ _ Hj))
        as (k2 & q2 & Hpath & _). simpl in Hpath.
      rewrite <- app_assoc in Hpath. apply (f_equal length) in Hpath.
      rewrite !length_app in Hpath. simpl in Hpath. lia.
    + rewrite lookup_app_r in Hj by lia. by eapply IHrest.
Qed.

(** Every call below the first level comes after the call for the interval
    that encloses it, and visits an interval of the next finer unit. *)
Lemma walk_parent prefix idx name cs j q k d iv :
  preorder_walk Date_parse visit prefix idx name cs ->
  cs !! j = Some (q ++ [k], d, iv) -> (length prefix < length q)%nat ->
  exists i d' iv',
    (i < j)%nat /\ cs !! i = Some (q, d', iv')
    /\ lowerInterval_of (i_interval iv') = Some (i_interval iv)
    /\ exists v child,
         DateRangeIntervals Date_parse (VDate (r_start (visit v iv')))
           (VDate (r_end (visit v iv'))) (i_interval iv) = Normal child
         /\ iterate child !! k = Some iv.
Proof.
  intros Hwalk. revert j q k d iv.
  induction Hwalk as [|prefix idx name d0 iv0 lower sub rest Hname Hlower Hsub IHsub Hrest IHrest];
    intros j q k d iv Hj Hlen; [done|].
  destruct j as [|j]; simpl in Hj.
  - injection Hj as Hq <- <-. apply app_inj_tail in Hq as [-> _]. lia.
  - destruct (decide (j < length sub)%nat) as [Hjs|Hjs].
    + rewrite lookup_app_l in Hj by lia.
      destruct (decide (length (prefix ++ [idx]) < length q)%nat) as [Hdeep|Hshallow].
      * destruct (IHsub j q k d iv Hj Hdeep) as (i & d' & iv' & Hi & Hci & Hunit & Hset).
        exists (S i), d', iv'. split_and!; [lia| |done|done].
        simpl. rewrite lookup_app_l; [done|lia].
      * destruct (walk_paths _ _ _ _ _ Hsub (list_elem_of_lookup_2 _ _ _ Hj))
          as (k' & q' & Hpath & _).
        simpl in Hpath. rewrite length_app in Hshallow. simpl in Hshallow.
        assert (q' = [] /\ q = prefix ++ [idx]) as [-> ->].
        { destruct q' as [|x q'] using rev_ind.
          - by apply app_inj_tail in Hpath as [-> _].
          - clear IHq'. rewrite app_comm_cons, app_assoc in Hpath.
            apply app_inj_tail in Hpath as [-> _].
            rewrite !length_app in Hshallow, Hlen. simpl in *. lia. }
        assert (sub <> []) as Hnonempty by (by intros ->).
        destruct (Hlower Hnonempty) as (Hl & v & child & Hchild & Hkids).
        assert (i_interval iv = lower) as Hunit by (by eapply walk_top_unit).
        exists 0%nat, d0, iv0. split_and!; [lia|done|by rewrite Hname, Hl, Hunit|].
        exists v, child. rewrite Hunit. split; [done|].
        eapply Hkids. by eapply list_elem_of_lookup_2.
    + rewrite lookup_app_r in Hj by lia.
      destruct (IHrest _ q k d iv Hj Hlen) as (i & d' & iv' & Hi & Hci & Hunit & Hset).
      exists (S (length sub + i)), d', iv'. split_and!; [lia| |done|done].
      simpl. rewrite lookup_app_r by lia. by replace (length sub + i - length sub)%nat with i by lia.
Qed.

End Walks.

(** An empty trace has no call. *)
Ltac no_calls :=
  unfold deeper, depth_tracks; intros;
  match goal with
  | H : _ ∈ calls [] |- _ => by apply elem_of_nil in H
  | H : _ ∈ [] |- _ => by apply elem_of_nil in H
  end.

Section TraversalFacts.

Variable Date_parse : string -> tv.
Context {St : Type}.
Variable visit : Callback St.

Implicit Types (v : VisitorFields St) (tr : list event) (exn : option thrown).

(** *** The calls of the first level are the intervals of the set *)

Lemma accept_loop_top
    (rec : list nat -> IntervalSet -> VisitorFields St -> option (@run St))
    prefix lower idx ivs v v' tr exn :
  (forall path child v2 v3 tr2 exn2,
     rec path child v2 = Some (v3, tr2, exn2) -> deeper path tr2) ->
  accept_loop Date_parse visit rec prefix lower idx ivs v = Some (v', tr, exn) ->
  deeper prefix tr
  /\ (forall p d iv, (p, d, iv) ∈ calls tr -> length p = S (length prefix) ->
        exists k, p = prefix ++ [idx + k]%nat /\ ivs !! k = Some iv)
  /\ (exn = None -> forall k iv, ivs !! k = Some iv ->
        exists d, (prefix ++ [idx + k]%nat, d, iv) ∈ calls tr).
Proof.
  intros Hrec. revert idx v tr. induction ivs as [|iv rest IH]; intros idx v tr H.
  - simpl in H. injection H as <- <- <-. split_and!.
    + no_calls.
    + no_calls.
    + done.
  - apply accept_loop_cons_inv in H
      as [(x & _ & _ & -> & ->)|(msg & v1 & tr1 & exn1 & a & b & _ & Htry & Hnext)].
    { split_and!; [| |done].
      - no_calls.
      - no_calls. }
    assert (exists trd, calls tr1 = (prefix ++ [idx], depth v, iv) :: calls trd
                        /\ deeper (prefix ++ [idx]) trd) as (trd & Hcalls & Hdeep).
    { apply try_visit_inv in Htry as [_ [(_ & -> & _)|Hdesc]].
      - exists []. split; [done|]. no_calls.
      - destruct Hdesc as (l & trd & Hl & _ & _ & Hd & ->).
        apply descend_inv in Hd
          as [(child & v2 & tr2 & Hc & Hr & _ & ->)|(err & _ & _ & -> & _)].
        + exists tr2. split; [done|]. by eapply Hrec.
        + exists []. split; [done|]. no_calls. }
    assert (forall c, c ∈ calls tr1 ->
              c = (prefix ++ [idx], depth v, iv)
              \/ (S (length prefix) < length c.1.1)%nat) as Htr1.
    { intros c Hc. rewrite Hcalls in Hc. apply elem_of_cons in Hc as [->|Hc]; [by left|].
      right. apply Hdeep in Hc. rewrite length_app in Hc. simpl in Hc. lia. }
    assert ((prefix ++ [idx], depth v, iv) ∈ calls tr1) as Hhead.
    { rewrite Hcalls. apply elem_of_cons. by left. }
    destruct Hnext as [(logs & tr2 & Hlogs & Hrest & ->)|(err & x & _ & _ & _ & -> & ->)].
    + assert (calls logs = []) as Hnologs.
      { by destruct Hlogs as [[_ ->]|(? & ? & _ & _ & ->)]. }
      assert (calls (Log msg :: tr1 ++ logs ++ tr2) = calls tr1 ++ calls tr2) as Heq.
      { by rewrite calls_log, !calls_app, Hnologs. }
      unfold deeper. rewrite Heq.
      destruct (IH _ _ _ Hrest) as (IHdeep & IHtop & IHall).
      split_and!.
      * intros c Hc. apply elem_of_app in Hc as [Hc|Hc]; [|by apply IHdeep].
        destruct (Htr1 c Hc) as [->|?]; [|lia]. simpl. rewrite length_app. simpl. lia.
      * intros p d iv' Hc Hlen. apply elem_of_app in Hc as [Hc|Hc].
        -- destruct (Htr1 _ Hc) as [[= -> -> ->]|?]; [|simpl in *; lia].
           exists 0%nat. by rewrite Nat.add_0_r.
        -- destruct (IHtop p d iv' Hc Hlen) as (k & -> & Hk).
           exists (S k). split; [f_equal; f_equal; lia|done].
      * intros Hnone [|k] iv' Hk; simpl in Hk.
        -- injection Hk as <-. exists (depth v). rewrite Nat.add_0_r.
           apply elem_of_app. by left.
        -- destruct (IHall Hnone k iv' Hk) as [d Hd]. exists d.
           replace (idx + S k)%nat with (S idx + k)%nat by lia.
           apply elem_of_app. by right.
    + rewrite calls_log. split_and!; [| |done].
      * intros c Hc. destruct (Htr1 c Hc) as [->|?]; [|lia].
        simpl. rewrite length_app. simpl. lia.
      * intros p d iv' Hc Hlen.
        destruct (Htr1 _ Hc) as [[= -> -> ->]|?]; [|simpl in *; lia].
        exists 0%nat. by rewrite Nat.add_0_r.
Qed.

Lemma accept_fuel_deeper fuel prefix s v v' tr exn :
  accept_fuel Date_parse visit fuel prefix s v = Some (v', tr, exn) -> deeper prefix tr.
Proof.
  revert prefix s v v' tr exn.
  induction fuel as [|fuel IH]; intros prefix s v v' tr exn H; [done|].
  simpl in H. eapply accept_loop_top in H as [H _]; [done|].
  intros path child v2 v3 tr2 exn2. apply IH.
Qed.

Lemma accept_fuel_top fuel prefix s v v' tr exn :
  accept_fuel Date_parse visit fuel prefix s v = Some (v', tr, exn) ->
  (forall p d iv, (p, d, iv) ∈ calls tr -> length p = S (length prefix) ->
     exists k, p = prefix ++ [k] /\ iterate s !! k = Some iv)
  /\ (exn = None -> forall k iv, iterate s !! k = Some iv ->
        exists d, (prefix ++ [k], d, iv) ∈ calls tr).
Proof.
  destruct fuel as [|fuel]; [done|]. simpl. intros H.
  eapply accept_loop_top in H as (_ & Htop & Hall).
  - split; [exact Htop|exact Hall].
  - intros path child v2 v3 tr2 exn2. apply accept_fuel_deeper.
Qed.

(** *** The calls of a traversal form a pre-order walk *)

Lemma try_visit_calls
    (rec : list nat -> IntervalSet -> VisitorFields St -> option (@run St))
    path name v iv v1 tr1 exn bounds :
  (forall l child v2 v3 tr2 exn2,
     lowerInterval_of name = Some l -> constructed l child ->
     rec path child v2 = Some (v3, tr2, exn2) ->
     preorder_walk Date_parse visit path 0 l (calls tr2)
     /\ forall k d' iv', (path ++ [k], d', iv') ∈ calls tr2 ->
          iterate child !! k = Some iv') ->
  try_visit Date_parse visit rec path (lowerInterval_of name) v iv
    = Some ((v1, tr1, exn), bounds) ->
  exists lower sub,
    calls tr1 = (path, depth v, iv) :: sub
    /\ (sub <> [] ->
        lowerInterval_of name = Some lower
        /\ exists v0 child,
             DateRangeIntervals Date_parse (VDate (r_start (visit v0 iv)))
               (VDate (r_end (visit v0 iv))) lower = Normal child
             /\ forall k d' iv', (path ++ [k], d', iv') ∈ sub ->
                  iterate child !! k = Some iv')
    /\ preorder_walk Date_parse visit path 0 lower sub.
Proof.
  intros Hrec Htry. apply try_visit_inv in Htry as [_ [(_ & -> & _)|Hdesc]].
  - exists "", []. split_and!; [done..|constructor].
  - destruct Hdesc as (l & trd & Hl & _ & _ & Hd & ->).
    apply descend_inv in Hd as [(child & v2 & tr2 & Hc & Hr & _ & ->)|(err & _ & _ & -> & _)].
    + destruct (Hrec l child _ _ _ _ Hl (constructed_of_Normal _ _ _ _ _ Hc) Hr)
        as [Hwalk Hkids].
      exists l, (calls tr2). split_and!; [done| |done].
      intros _. split; [done|]. by exists v, child.
    + exists "", []. split_and!; [done..|constructor].
Qed.

Lemma accept_loop_walk
    (rec : list nat -> IntervalSet -> VisitorFields St -> option (@run St))
    prefix name idx ivs v v' tr exn :
  (forall l path child v2 v3 tr2 exn2,
     lowerInterval_of name = Some l -> constructed l child ->
     rec path child v2 = Some (v3, tr2, exn2) ->
     preorder_walk Date_parse visit path 0 l (calls tr2)
     /\ forall k d' iv', (path ++ [k], d', iv') ∈ calls tr2 ->
          iterate child !! k = Some iv') ->
  Forall (fun iv => i_interval iv = name) ivs ->
  accept_loop Date_parse visit rec prefix (lowerInterval_of name) idx ivs v
    = Some (v', tr, exn) ->
  preorder_walk Date_parse visit prefix idx name (calls tr).
Proof.
  intros Hrec Hname. revert idx v tr. induction Hname as [|iv rest Hiv _ IH];
    intros idx v tr H.
  - simpl in H. injection H as <- <- <-. constructor.
  - apply accept_loop_cons_inv in H
      as [(x & _ & _ & -> & _)|(msg & v1 & tr1 & exn1 & a & b & _ & Htry & Hnext)];
      [constructor|].
    eapply try_visit_calls in Htry as (lower & sub & Hcalls & Hlower & Hsub);
      [|intros; by eapply Hrec].
    destruct Hnext as [(logs & tr2 & Hlogs & Hrest & ->)|(err & x & _ & _ & _ & -> & _)].
    + rewrite calls_log, !calls_app, Hcalls.
      assert (calls logs = []) as ->.
      { by destruct Hlogs as [[_ ->]|(? & ? & _ & _ & ->)]. }
      simpl. econstructor; [done..|]. by eapply IH.
    + rewrite calls_log, Hcalls, <- (app_nil_r sub). econstructor; [done..|constructor].
Qed.

Lemma iterate_interval s : Forall (fun iv => i_interval iv = interval s) (iterate s).
Proof.
  apply Forall_lookup. intros i iv Hi. unfold iterate in Hi.
  apply iterate_from_lookup in Hi as (a & b & _ & _ & ->). done.
Qed.

Lemma accept_fuel_walk fuel prefix name s v v' tr exn :
  constructed name s ->
  accept_fuel Date_parse visit fuel prefix s v = Some (v', tr, exn) ->
  preorder_walk Date_parse visit prefix 0 name (calls tr).
Proof.
  revert prefix name s v v' tr exn.
  induction fuel as [|fuel IH]; intros prefix name s v v' tr exn Hs H; [done|].
  simpl in H. rewrite (constructed_lower _ _ Hs) in H.
  eapply accept_loop_walk; [|by rewrite <- (constructed_interval _ _ Hs); apply iterate_interval|done].
  intros l path child v2 v3 tr2 exn2 _ Hchild Hrec. split; [by eapply IH|].
  intros k d' iv' Hc.
  destruct (accept_fuel_top _ _ _ _ _ _ _ Hrec) as [Htop _].
  destruct (Htop _ _ _ Hc) as (k' & Hk & Hiv); [rewrite length_app; simpl; lia|].
  by apply app_inj_tail in Hk as [_ <-].
Qed.

(** *** The depth counter *)

Lemma accept_loop_depth
    (rec : list nat -> IntervalSet -> VisitorFields St -> option (@run St))
    prefix lower idx ivs v v' tr exn :
  preserves_depth visit ->
  (forall path child v2 v3 tr2 exn2,
     rec path child v2 = Some (v3, tr2, exn2) ->
     depth v3 = depth v2 /\ depth_tracks path (depth v2) tr2) ->
  accept_loop Date_parse visit rec prefix lower idx ivs v = Some (v', tr, exn) ->
  depth v' = depth v /\ depth_tracks prefix (depth v) tr.
Proof.
  intros Hcb Hrec. revert idx v tr. induction ivs as [|iv rest IH]; intros idx v tr H.
  - simpl in H. injection H as <- <- <-. split; [done|].
    no_calls.
  - apply accept_loop_cons_inv in H
      as [(x & _ & -> & -> & ->)|(msg & v1 & tr1 & exn1 & a & b & _ & Htry & Hnext)].
    { split; [done|]. no_calls. }
    assert (depth v1 = depth v /\ depth_tracks prefix (depth v) tr1) as [Hv1 Htr1].
    { apply try_visit_inv in Htry as [_ [(-> & -> & _)|Hdesc]].
      - split; [apply Hcb|]. intros p d iv' Hc. simpl in Hc.
        apply list_elem_of_singleton in Hc as [= -> -> ->]. rewrite length_app. simpl. lia.
      - destruct Hdesc as (l & trd & Hl & _ & _ & Hd & ->).
        apply descend_inv in Hd
          as [(child & v2 & tr2 & Hc & Hr & -> & ->)|(err & _ & -> & -> & _)].
        + apply Hrec in Hr as [Hd2 Htr2]. simpl in Hd2. split.
          * simpl. rewrite Hd2, Hcb. lia.
          * intros p d iv' Hc'. simpl in Hc'. apply elem_of_cons in Hc' as [[= -> -> ->]|Hc'].
            -- rewrite length_app. simpl. lia.
            -- pose proof (Htr2 _ _ _ Hc') as Hd'. simpl in Hd'.
               rewrite Hcb, length_app in Hd'. simpl in Hd'. lia.
        + split; [simpl; rewrite Hcb; lia|].
          intros p d iv' Hc'. simpl in Hc'.
          apply list_elem_of_singleton in Hc' as [= -> -> ->]. rewrite length_app. simpl. lia. }
    destruct Hnext as [(logs & tr2 & Hlogs & Hrest & ->)|(err & x & _ & _ & -> & -> & _)].
    + assert (calls logs = []) as Hnologs.
      { by destruct Hlogs as [[_ ->]|(? & ? & _ & _ & ->)]. }
      apply IH in Hrest as [Hd Htr2]. split; [lia|].
      intros p d iv' Hc. rewrite calls_log, !calls_app, Hnologs in Hc. simpl in Hc.
      apply elem_of_app in Hc as [Hc|Hc]; [exact (Htr1 _ _ _ Hc)|].
      pose proof (Htr2 _ _ _ Hc). lia.
    + split; [done|]. intros p d iv' Hc. rewrite calls_log in Hc. exact (Htr1 _ _ _ Hc).
Qed.

Lemma accept_fuel_depth fuel prefix s v v' tr exn :
  preserves_depth visit ->
  accept_fuel Date_parse visit fuel prefix s v = Some (v', tr, exn) ->
  depth v' = depth v /\ depth_tracks prefix (depth v) tr.
Proof.
  intros Hcb. revert prefix s v v' tr exn.
  induction fuel as [|fuel IH]; intros prefix s v v' tr exn H; [done|].
  simpl in H. eapply accept_loop_depth in H; [done..|].
  intros path child v2 v3 tr2 exn2. apply IH.
Qed.

End TraversalFacts.

Section VisitorErrors.

Variable Date_parse : string -> tv.
Context {St : Type}.
Variable visit : Callback St.

Implicit Types (v : VisitorFields St) (tr : list event) (exn : option thrown).

(** *** Errors of the callback *)

Lemma visitor_error_log_Normal d name a b err m :
  is_Some a -> is_Some b ->
  message_of err = Normal m ->
  exists s e, a = Some s /\ b = Some e
    /\ visitor_error_log d name a b err = Normal (LogVisitorError d name s e m).
Proof.
  intros [s ->] [e ->] Hm. exists s, e. split_and!; [done..|].
  unfold visitor_error_log. simpl. by rewrite Hm.
Qed.

(** What the [catch] block does with an error of the callback: the call,
    the error message with the depth, the unit and the bounds, and then the
    next interval. *)
Lemma accept_loop_catches
    (rec : list nat -> IntervalSet -> VisitorFields St -> option (@run St))
    prefix lower idx iv rest v s e a b err :
  i_start iv = Some s -> i_end iv = Some e ->
  r_outcome (visit v iv) = Raised err ->
  r_start (visit v iv) = Some a -> r_end (visit v iv) = Some b ->
  forall m,
    message_of err = Normal m ->
    accept_loop Date_parse visit rec prefix lower idx (iv :: rest) v
    = match accept_loop Date_parse visit rec prefix lower (S idx) rest
              (r_fields (visit v iv)) with
      | Some (v2, tr2, exn) =>
          Some (v2,
                Log (LogVisiting s e)
                :: Visit (prefix ++ [idx]) (depth v) iv
                :: Log (LogVisitorError (depth (r_fields (visit v iv)))
                          (i_interval iv) a b m)
                :: tr2,
                exn)
      | None => None
      end.
Proof.
  intros Hs He Hout Ha Hb m Hm.
  simpl. unfold visiting_log, try_visit, visitor_error_log.
  rewrite Hs, He, Hout, Ha, Hb. simpl. rewrite Hm.
  by destruct (accept_loop _ _ _ _ _ _ _ _) as [[[v2 tr2] exn]|].
Qed.

Lemma accept_loop_fulfilled
    (rec : list nat -> IntervalSet -> VisitorFields St -> option (@run St))
    prefix lower idx ivs v v' tr exn :
  keeps_dates_valid visit -> throws_readable visit ->
  (forall l, lower = Some l -> exists u, own_key l = Some u) ->
  (forall l path child v2 v3 tr2 exn2,
     lower = Some l -> constructed l child ->
     rec path child v2 = Some (v3, tr2, exn2) -> exn2 = None) ->
  Forall (fun iv => is_Some (i_start iv) /\ is_Some (i_end iv)) ivs ->
  accept_loop Date_parse visit rec prefix lower idx ivs v = Some (v', tr, exn) ->
  exn = None.
Proof.
  intros Hvalid Hthrows Hown Hrec Hivs. revert idx v tr.
  induction Hivs as [|iv rest [[s Hs] [e He]] _ IH]; intros idx v tr H.
  - simpl in H. by injection H as <- <- <-.
  - apply accept_loop_cons_inv in H
      as [(x & Hx & _)|(msg & v1 & tr1 & exn1 & a & b & _ & Htry & Hnext)].
    { unfold visiting_log in Hx. by rewrite Hs, He in Hx. }
    destruct Hnext as [(logs & tr2 & _ & Hrest & _)|(err & x & -> & Hlog & _)];
      [by eapply IH|].
    apply try_visit_inv in Htry as [[= -> ->] Hcases].
    destruct (Hvalid v iv) as [Ha Hb].
    assert (exists m, message_of err = Normal m) as [m Hread].
    { destruct Hcases as [(_ & _ & Hout)|(l & trd & Hl & _ & _ & Hd & _)].
      - destruct (r_outcome (visit v iv)) as [sub|e0] eqn:Hout'.
        + by destruct Hout.
        + injection Hout as <-. by eapply Hthrows.
      - apply descend_inv in Hd as [(child & v2 & tr2 & Hc & Hr & _)|(err' & Hc & _ & _ & Herr)].
        + apply (Hrec l) in Hr; [done..|]. by eapply constructed_of_Normal.
        + injection Herr as <-.
          apply DateRangeIntervals_throws_error in Hc as [m ->]; [by eexists|by apply Hown]. }
    destruct (visitor_error_log_Normal (depth v1) (i_interval iv) _ _ err m Ha Hb Hread)
      as (? & ? & _ & _ & Hm).
    by rewrite Hm in Hlog.
Qed.

Lemma iterate_dates_valid s :
  Forall (fun iv => is_Some (i_start iv) /\ is_Some (i_end iv)) (iterate s).
Proof.
  apply Forall_lookup. intros i iv Hi. unfold iterate in Hi.
  apply iterate_from_lookup in Hi as (a & b & _ & _ & ->). by split.
Qed.

Lemma accept_fuel_fulfilled fuel prefix name s v v' tr exn :
  keeps_dates_valid visit -> throws_readable visit ->
  constructed name s ->
  accept_fuel Date_parse visit fuel prefix s v = Some (v', tr, exn) ->
  exn = None.
Proof.
  intros Hvalid Hthrows. revert prefix name s v v' tr exn.
  induction fuel as [|fuel IH]; intros prefix name s v v' tr exn Hs H; [done|].
  simpl in H. rewrite (constructed_lower _ _ Hs) in H.
  eapply accept_loop_fulfilled in H; try done.
  - intros l. apply lowerInterval_of_own.
  - intros l path child v2 v3 tr2 exn2 _ Hchild Hr. by eapply IH.
  - apply iterate_dates_valid.
Qed.

End VisitorErrors.

Section TraversalClaims.

Variable Date_parse : string -> tv.

Lemma accept_Instance {St} (vis : Visitor St) name s :
  constructed name s ->
  exists v' tr exn,
    accept_fuel Date_parse (visit vis) (S (height (interval s))) [] s (fields vis)
      = Some (v', tr, exn)
    /\ accept Date_parse s (Instance vis)
       = Some (Instance {| visit := visit vis; fields := v' |}, tr,
               match exn with None => Fulfilled | Some e => Rejected e end).
Proof.
  intros Hs.
  destruct (accept_fuel_total Date_parse (visit vis) (S (height (interval s))) []
              name s (fields vis) Hs) as [[[v' tr] exn] H].
  { rewrite (constructed_interval _ _ Hs). lia. }
  exists v', tr, exn. split; [done|]. unfold accept. by rewrite H.
Qed.


(** C5.  A new visitor has its counter at 0.  A descent enters the
    recursive traversal with the counter one higher and leaves it one lower
    than that traversal left it, also when the construction of the finer
    set or the traversal threw.  Hence, with a callback that does not write
    the counter: at every call the counter is its value at the start plus
    the number of enclosing intervals -- the depth of the recursion -- and
    when the traversal ends, fulfilled or rejected, the counter is back at
    its value at the start. *)
Theorem depth_is_recursion_depth :
  (forall St (fn : Callback St) (attached : St),
     exists vis, DateRangeIntervalVisitor (Function fn) attached = Normal vis
                 /\ depth (fields vis) = 0)
  /\ (forall St rec l a b (v v' : VisitorFields St) tr exn,
        descend Date_parse rec l a b v = Some (v', tr, exn) ->
        (exists child v2 tr2,
            DateRangeIntervals Date_parse (VDate a) (VDate b) l = Normal child
            /\ rec child (set_depth v (depth v + 1)) = Some (v2, tr2, exn)
            /\ depth v' = depth v2 - 1)
        \/ (exists err,
              DateRangeIntervals Date_parse (VDate a) (VDate b) l = Throw err
              /\ exn = Some err /\ depth v' = depth v))
  /\ (forall St (vis : Visitor St) vstart vend name s,
        DateRangeIntervals Date_parse vstart vend name = Normal s ->
        preserves_depth (visit vis) ->
        exists v' tr p,
          accept Date_parse s (Instance vis)
            = Some (Instance {| visit := visit vis; fields := v' |}, tr, p)
          /\ depth v' = depth (fields vis)
          /\ forall path d iv, (path, d, iv) ∈ calls tr ->
               d = depth (fields vis) + (Z.of_nat (length path) - 1)).
Proof.
  split_and!.
  - intros St fn attached. by eexists.
  - intros St rec l a b v v' tr exn H.
    apply descend_inv in H as [(child & v2 & tr2 & Hc & Hr & -> & _)|(err & Hc & -> & _ & ->)].
    + left. by exists child, v2, tr2.
    + right. exists err. split_and!; [done..|]. simpl. lia.
  - intros St vis vstart vend name s Hs Hcb. apply constructed_of_Normal in Hs.
    destruct (accept_Instance vis name s Hs) as (v' & tr & exn & Hfuel & Haccept).
    apply accept_fuel_depth in Hfuel as [Hd Htr]; [|done].
    eexists v', tr, _. split_and!; [done..|].
    intros path d iv Hc. rewrite (Htr _ _ _ Hc). simpl. lia.
Qed.

(** With a callback that throws nothing but what has a [message] that can
    be read and printed, and that leaves the dates of its intervals valid,
    the promise of [accept] is fulfilled and every interval of the set has
    been visited. *)
Lemma accept_fulfilled_when_errors_are_readable {St} (vis : Visitor St)
    vstart vend name s :
  DateRangeIntervals Date_parse vstart vend name = Normal s ->
  keeps_dates_valid (visit vis) -> throws_readable (visit vis) ->
  exists arg' tr,
    accept Date_parse s (Instance vis) = Some (arg', tr, Fulfilled)
    /\ forall k iv, iterate s !! k = Some iv -> exists d, ([k], d, iv) ∈ calls tr.
Proof.
  intros Hs Hvalid Hthrows. apply constructed_of_Normal in Hs.
  destruct (accept_Instance vis name s Hs) as (v' & tr & exn & Hfuel & Haccept).
  pose proof (accept_fuel_fulfilled _ _ _ _ _ _ _ _ _ _ Hvalid Hthrows Hs Hfuel) as ->.
  eexists _, tr. split; [exact Haccept|].
  destruct (accept_fuel_top _ _ _ _ _ _ _ _ _ Hfuel) as [_ Hall]. by apply Hall.
Qed.

(** C3, at the failing input.  Over four days and with a callback that
    throws [undefined], the [catch] block reads [err.message] and throws in
    its turn: the promise of [accept] is rejected with that [TypeError]
    after the first call, nothing has been logged about the error, and the
    three other intervals are not visited. *)
Theorem nullish_throw_rejects :
  DateRangeIntervals Date_parse (VDate (Some (utc 2024 1 1)))
    (VDate (Some (utc 2024 1 5))) "day" = Normal four_days
  /\ length (iterate four_days) = 4%nat
  /\ accept Date_parse four_days (Instance throwing_visitor)
     = Some (Instance throwing_visitor,
             [Log (LogVisiting (utc 2024 1 1) (utc 2024 1 2));
              Visit [0%nat] 0
                (DateRangeInterval_new (Some (utc 2024 1 1)) (Some (utc 2024 1 2)) "day")],
             Rejected (JSError "TypeError"
               "Cannot read properties of undefined (reading 'message')")).
Proof. split_and!; by vm_compute. Qed.

(** *** The test on the argument of [accept] *)

Lemma prototype_eqb_eq p q : prototype_eqb p q = true <-> p = q.
Proof.
  destruct p as [| | |n], q as [| | |m]; simpl; split; try done.
  - intros H. by apply Nat.eqb_eq in H as ->.
  - intros [= ->]. apply Nat.eqb_refl.
Qed.

(** The test of [instanceof] is membership in the prototype chain. *)
Lemma on_chain_elem_of p chain : on_chain p chain = true <-> p ∈ chain.
Proof.
  induction chain as [|q rest IH]; simpl.
  - split; [done|]. by intros H%elem_of_nil.
  - rewrite orb_true_iff, prototype_eqb_eq, IH, elem_of_cons. split.
    + intros [->|H]; [by left|by right].
    + intros [->|H]; [by left|by right].
Qed.

(** Without a function to call, every interval gives the message before the
    call and the error message of the [catch] block, and the loop ends. *)
Lemma accept_loop_not_callable_ends d ivs :
  Forall (fun iv => is_Some (i_start iv) /\ is_Some (i_end iv)) ivs ->
  exists tr,
    accept_loop_not_callable d ivs = (tr, None)
    /\ visits tr = []
    /\ length tr = (2 * length ivs)%nat.
Proof.
  induction 1 as [|iv rest [[a Ha] [b Hb]] _ (tr & IH & Hv & Hlen)].
  - by exists [].
  - simpl. unfold visiting_log. rewrite Ha, Hb, IH. simpl.
    eexists. split; [reflexivity|]. split; [exact Hv|]. simpl. lia.
Qed.

(** Once the test is passed the first thing the loop does is to tell the
    logger: a traversal that leaves no event is one of an empty set, and
    has not failed. *)
Lemma accept_loop_silent {St} (visit : Callback St)
    (rec : list nat -> IntervalSet -> VisitorFields St -> option (@run St))
    prefix lower idx ivs v v' exn :
  Forall (fun iv => is_Some (i_start iv) /\ is_Some (i_end iv)) ivs ->
  accept_loop Date_parse visit rec prefix lower idx ivs v = Some (v', [], exn) ->
  exn = None.
Proof.
  intros Hivs H. destruct Hivs as [|iv rest [[a Ha] [b Hb]] _].
  - simpl in H. by injection H as <- <-.
  - apply accept_loop_cons_inv in H
      as [(x & Hx & _)|(msg & v1 & tr1 & exn1 & a' & b' & _ & _ & Hnext)].
    + unfold visiting_log in Hx. by rewrite Ha, Hb in Hx.
    + by destruct Hnext as [(logs & tr2 & _ & _ & Htr)|(err & x & _ & _ & _ & Htr & _)].
Qed.

Local Arguments accept_fuel : simpl never.

(** On the arguments of [accept_arg], seen as objects, the call gives the
    promise that [accept] has. *)
Lemma accept_call_refines {St} (s : IntervalSet) (a : accept_arg St) :
  accept_call Date_parse s (object_of a)
  = Normal ((fun r : accept_arg St * list event * promise =>
               (object_of r.1.1, Traversal <$> r.1.2, r.2))
              <$> accept Date_parse s a).
Proof.
  destruct a as [vis|fn|fn f|x]; try done.
  unfold accept_call, accept_body, accept, async_call. simpl.
  by destruct (accept_fuel _ _ _ _ _ _) as [[[v tr] [e|]]|].
Qed.

(** C8.  [accept] never throws at the call: it is an [async] function, and
    the call returns a promise.  The test on the argument is the walk of
    its prototype chain and nothing else.  For every argument that does not
    have the prototype of the visitors on its chain -- a primitive, a
    function, a plain object with [visit], [depth] and [subIntervals] --
    the promise is rejected with the error of the invalid visitor, with
    nothing visited or logged.  For every argument that has it, the test is
    passed, whether or not the constructor has made the object: the promise
    is not rejected before the first interval is announced; with a [visit]
    that is a function the traversal is the one of an instance; with none,
    every call fails, every failure is logged, nothing is visited and the
    promise is fulfilled.  The constructor of the visitor is an ordinary
    function: it throws at the call for whatever is not a function, and
    what it makes for a function passes the test. *)
Theorem invalid_visitor_rejects_the_promise {St} (s : IntervalSet) (arg : argument St) :
  (exists r, accept_call Date_parse s arg = Normal r)
  /\ (instanceof_Visitor arg = true
      <-> exists chain props, arg = Obj chain props /\ Visitor_prototype ∈ chain)
  /\ (instanceof_Visitor arg = false ->
      accept_call Date_parse s arg = Normal (Some (arg, [], Rejected invalid_visitor)))
  /\ (instanceof_Visitor arg = true ->
      forall arg' e,
        accept_call Date_parse s arg <> Normal (Some (arg', [], Rejected e)))
  /\ (forall chain vis vis' tr p,
        arg = Obj chain (Callable vis) -> instanceof_Visitor arg = true ->
        accept Date_parse s (Instance vis) = Some (Instance vis', tr, p) ->
        accept_call Date_parse s arg
        = Normal (Some (Obj chain (Callable vis'), Traversal <$> tr, p)))
  /\ (forall chain d,
        arg = Obj chain (NotCallable d) -> instanceof_Visitor arg = true ->
        exists tr,
          accept_call Date_parse s arg = Normal (Some (arg, tr, Fulfilled))
          /\ visits tr = []
          /\ length tr = (2 * length (iterate s))%nat)
  /\ (forall (x : value) (attached : St),
        DateRangeIntervalVisitor (NonFunction x) attached
        = Throw (JSError "Error" "Visitor must be a function"))
  /\ (forall (fn : Callback St) (attached : St),
        exists vis,
          DateRangeIntervalVisitor (Function fn) attached = Normal vis
          /\ visit vis = fn
          /\ fields vis = {| depth := 0; subIntervals := false; attached := attached |}
          /\ instanceof_Visitor (object_of (Instance vis)) = true).
Proof.
  split_and!.
  - by eexists.
  - destruct arg as [chain props|x]; simpl.
    + rewrite on_chain_elem_of. split.
      * intros H. by exists chain, props.
      * by intros (chain' & props' & [= <- <-] & H).
    + split; [done|]. by intros (chain & props & H & _).
  - intros Hno. unfold accept_call, accept_body. by rewrite Hno.
  - intros Hyes arg' e. unfold accept_call, accept_body, async_call.
    rewrite Hyes. simpl. destruct arg as [chain [vis|d]|x]; [| |done].
    + destruct (accept_fuel _ _ _ _ _ _) as [[[v tr] exn]|] eqn:Hfuel; [|done].
      destruct exn as [err|]; simpl; [|done].
      intros [= _ Htr _]. apply fmap_nil_inv in Htr as ->.
      unfold accept_fuel in Hfuel. fold (@accept_fuel Date_parse St) in Hfuel.
      by apply accept_loop_silent in Hfuel; [|apply iterate_dates_valid].
    + destruct (accept_loop_not_callable_ends d (iterate s) (iterate_dates_valid s))
        as (tr & -> & _). done.
  - intros chain vis vis' tr p -> Hyes Hacc.
    unfold accept_call, accept_body, async_call. rewrite Hyes. simpl.
    unfold accept in Hacc.
    destruct (accept_fuel _ _ _ _ _ _) as [[[v tr0] exn]|]; [|done].
    injection Hacc as <- <- <-. by destruct exn.
  - intros chain d -> Hyes. unfold accept_call, accept_body, async_call.
    rewrite Hyes. simpl.
    destruct (accept_loop_not_callable_ends d (iterate s) (iterate_dates_valid s))
      as (tr & -> & Hv & Hlen).
    by exists tr.
  - done.
  - intros fn attached. by eexists.
Qed.

End TraversalClaims.

(** *** The dates as objects *)

Lemma getTime_app_l (h ext : list tv) l :
  (l < length h)%nat -> Heap.getTime (h ++ ext) l = Heap.getTime h l.
Proof. intros Hl. unfold Heap.getTime. by rewrite lookup_app_l. Qed.

Lemma getTime_insert_eq (h : list tv) l t :
  (l < length h)%nat -> Heap.getTime (<[l := t]> h) l = t.
Proof. intros Hl. unfold Heap.getTime. by rewrite list_lookup_insert_eq. Qed.

Lemma getTime_insert_ne (h : list tv) l l' t :
  l <> l' -> Heap.getTime (<[l := t]> h) l' = Heap.getTime h l'.
Proof. intros Hne. unfold Heap.getTime. by rewrite list_lookup_insert_ne. Qed.

Lemma insert_getTime (h : list tv) l :
  (l < length h)%nat -> <[l := Heap.getTime h l]> h = h.
Proof.
  intros Hl. apply list_insert_id. unfold Heap.getTime.
  destruct (lookup_lt_is_Some_2 h l Hl) as [x Hx]. by rewrite !Hx.
Qed.

Lemma segments_loop_acc fuel e en cur acc :
  segments_loop fuel e en cur acc =
  match segments_loop fuel e en cur [] with
  | Some (Normal (xs, c)) => Some (Normal (acc ++ xs, c))
  | r => r
  end.
Proof.
  revert cur acc. induction fuel as [|fuel IH]; intros [c|] acc; simpl.
  - destruct (c <? en); [done|]. by rewrite app_nil_r.
  - by rewrite app_nil_r.
  - destruct (c <? en); [|by rewrite app_nil_r].
    destruct (call_entry e c) as [cur'| |]; [|done..].
    rewrite (IH cur' (acc ++ [c])), (IH cur' [c]).
    destruct (segments_loop fuel e en cur' []) as [[[xs c']| |]|]; [|done..].
    by rewrite <- app_assoc.
  - by rewrite app_nil_r.
Qed.

(** The loop on objects does what the loop on time values does: each turn
    allocates one new date, a copy of the cursor, and the cursor object
    ends with the final time value. *)
Lemma heap_segments_loop fuel e endDate curDate segs (h : list tv) en :
  curDate <> endDate -> (curDate < length h)%nat -> (endDate < length h)%nat ->
  Heap.getTime h endDate = Some en ->
  Heap.segments_loop fuel e endDate curDate segs h =
  match segments_loop fuel e en (Heap.getTime h curDate) [] with
  | Some (Normal (xs, c)) =>
      Some (Normal (segs ++ seq (length h) (length xs),
                    <[curDate := c]> (h ++ (Some <$> xs))))
  | Some (Throw err) => Some (Throw err)
  | Some Diverge => Some Diverge
  | None => None
  end.
Proof.
  intros Hne. revert segs h.
  induction fuel as [|fuel IH]; intros segs h Hcur Hend Hen; simpl; rewrite Hen.
  - destruct (Heap.getTime h curDate) as [c|] eqn:Hc.
    + destruct (c <? en); [done|]. simpl.
      by rewrite !app_nil_r, <- Hc, insert_getTime.
    + simpl. by rewrite !app_nil_r, <- Hc, insert_getTime.
  - destruct (Heap.getTime h curDate) as [c|] eqn:Hc.
    + destruct (c <? en).
      * destruct (call_entry e c) as [cur'| |]; [|done..].
        rewrite IH; cycle 1.
        { rewrite length_insert, length_app. simpl. lia. }
        { rewrite length_insert, length_app. simpl. lia. }
        { by rewrite getTime_insert_ne, getTime_app_l. }
        rewrite getTime_insert_eq by (rewrite length_app; simpl; lia).
        rewrite (segments_loop_acc fuel e en cur' [c]).
        destruct (segments_loop fuel e en cur' []) as [[[xs c']| |]|]; [|done..].
        rewrite length_insert, length_app. simpl.
        rewrite <- app_assoc. simpl.
        replace (length h + 1)%nat with (S (length h)) by lia.
        do 3 f_equal.
        rewrite <- (insert_app_l _ (Some <$> xs)) by (rewrite length_app; simpl; lia).
        rewrite list_insert_insert_eq, <- app_assoc. done.
      * simpl. by rewrite !app_nil_r, <- Hc, insert_getTime.
    + simpl. by rewrite !app_nil_r, <- Hc, insert_getTime.
Qed.

Lemma copies_read_back (h : list tv) xs cur c :
  (cur < length h)%nat ->
  Heap.getTime (<[cur := c]> (h ++ (Some <$> xs))) <$> seq (length h) (length xs)
  = Some <$> xs.
Proof.
  intros Hcur. apply list_eq. intros i. rewrite !list_lookup_fmap.
  destruct (decide (i < length xs)%nat) as [Hi|Hi].
  - rewrite lookup_seq_lt by done. destruct (lookup_lt_is_Some_2 xs i Hi) as [x Hx].
    rewrite Hx. simpl. f_equal. rewrite getTime_insert_ne by lia.
    unfold Heap.getTime. rewrite lookup_app_r by lia.
    replace (length h + i - length h)%nat with i by lia.
    by rewrite list_lookup_fmap, Hx.
  - rewrite lookup_seq_ge by lia. by rewrite lookup_ge_None_2 by lia.
Qed.

Section ObjectFacts.

Variable Date_parse : string -> tv.

Local Arguments segments_loop : simpl never.
Local Arguments Heap.segments_loop : simpl never.

(** The constructor on objects refines the constructor on time values: it
    ends the same way, and when it builds a set, the dates of that set hold
    the time values of the other.  In the set it builds, the date that
    [end] returns is the last boundary, and the date that [start] returns
    is not a boundary. *)
Lemma heap_constructor_refines vstart vend name (h : list tv) :
  match DateRangeIntervals Date_parse vstart vend name with
  | Normal s =>
      exists o h',
        Heap.DateRangeIntervals Date_parse vstart vend name h = Normal (o, h')
        /\ Heap.boundaries o h' = Some <$> segments s
        /\ Heap.start o h' = Some (start s)
        /\ Heap.end_ o h' = Some (end_ s)
        /\ Heap.o_interval o = interval s
        /\ Heap.o_length o = length_ s
        /\ Heap.o_isEquipartition o = isEquipartition s
        /\ Heap.o_lowerInterval o = lowerInterval s
        /\ (exists copies, Heap.o_segments o = copies ++ [Heap.o_end o]
                           /\ (Heap.o_end o ∉ copies)
                           /\ length copies = Z.to_nat (length_ s))
        /\ (Heap.o_start o ∉ Heap.o_segments o)
        /\ Forall (fun l => (l < length h')%nat) (Heap.o_start o :: Heap.o_segments o)
  | Throw e => Heap.DateRangeIntervals Date_parse vstart vend name h = Throw e
  | Diverge => Heap.DateRangeIntervals Date_parse vstart vend name h = Diverge
  end.
Proof.
  unfold DateRangeIntervals, Heap.DateRangeIntervals, Heap.alloc.
  destruct (negb (ToBoolean vstart) || negb (ToBoolean vend)); [done|].
  set (h3 := (h ++ [Date_new Date_parse vstart]) ++ [Date_new Date_parse vend]).
  rewrite !length_app. simpl.
  assert (length h3 = S (S (length h))) as Hlen3.
  { unfold h3. rewrite !length_app. simpl. lia. }
  assert (Heap.getTime (h3 ++ [Date_new Date_parse vstart]) (length h)
          = Date_new Date_parse vstart) as ->.
  { unfold Heap.getTime, h3. rewrite <- !app_assoc.
    by rewrite lookup_app_r, Nat.sub_diag by lia. }
  assert (Heap.getTime (h3 ++ [Date_new Date_parse vstart]) (length h + 1)
          = Date_new Date_parse vend) as ->.
  { unfold Heap.getTime, h3. rewrite <- !app_assoc. rewrite lookup_app_r by lia.
    by replace (length h + 1 - length h)%nat with 1%nat by lia. }
  destruct (Date_new Date_parse vstart) as [s|] eqn:Hs; [|done].
  destruct (Date_new Date_parse vend) as [e|] eqn:He; [|done].
  cbn [ge]. destruct (e <=? s); [done|].
  assert (forall fuel entry,
    Heap.segments_loop fuel entry (length h + 1) (length h3) [] (h3 ++ [Some s])
    = match segments_loop fuel entry e (Some s) [] with
      | Some (Normal (xs, c)) =>
          Some (Normal (seq (S (length h3)) (length xs),
                        <[length h3 := c]> ((h3 ++ [Some s]) ++ (Some <$> xs))))
      | Some (Throw err) => Some (Throw err)
      | Some Diverge => Some Diverge
      | None => None
      end) as Hloop.
  { intros fuel entry. rewrite (heap_segments_loop _ _ _ _ _ _ e).
    - assert (Heap.getTime (h3 ++ [Some s]) (length h3) = Some s) as ->.
      { unfold Heap.getTime. by rewrite lookup_app_r, Nat.sub_diag by lia. }
      rewrite length_app. simpl.
      by replace (length h3 + 1)%nat with (S (length h3)) by lia.
    - lia.
    - rewrite length_app. simpl. lia.
    - rewrite length_app. simpl. lia.
    - unfold Heap.getTime, h3. rewrite <- !app_assoc. rewrite lookup_app_r by lia.
      by replace (length h + 1 - length h)%nat with 1%nat by lia. }
  destruct (advanceByInterval_entry name) as [u|key|] eqn:Hentry; [| |done].
  all: rewrite Hloop.
  all: destruct (segments_loop _ _ e (Some s) []) as [[[xs c]| |]|]; [|done..].
  all: eexists _, _; split; [reflexivity|]; simpl.
  all: unfold Heap.boundaries, Heap.start, Heap.end_; simpl.
  all: assert (Heap.getTime
                 (<[length h3 := c]> ((h3 ++ [Some s]) ++ (Some <$> xs)))
                 (length h + 1) = Some e) as Hend
         by (rewrite getTime_insert_ne by lia; unfold Heap.getTime, h3;
             rewrite <- !app_assoc; rewrite lookup_app_r by lia;
             by replace (length h + 1 - length h)%nat with 1%nat by lia).
  all: assert (Heap.getTime
                 (<[length h3 := c]> ((h3 ++ [Some s]) ++ (Some <$> xs)))
                 (length h) = Some s) as Hstart
         by (rewrite getTime_insert_ne by lia; unfold Heap.getTime, h3;
             rewrite <- !app_assoc; by rewrite lookup_app_r, Nat.sub_diag by lia).
  all: assert (Heap.getTime
                 (<[length h3 := c]> ((h3 ++ [Some s]) ++ (Some <$> xs)))
                 (length h3) = c) as Hcur
         by (apply getTime_insert_eq; rewrite !length_app; simpl; lia).
  all: split_and!; try done.
  all: try (rewrite !fmap_app; simpl; rewrite Hend; f_equal;
            replace (S (length h3)) with (length (h3 ++ [Some s]))
              by (rewrite length_app; simpl; lia);
            apply copies_read_back; rewrite length_app; simpl; lia).
  all: try (by rewrite !length_app, length_seq).
  all: try (by rewrite Hcur, Hend).
  all: try (exists (seq (S (length h3)) (length xs)); split_and!;
            [done
            |intros Hin; apply elem_of_seq in Hin; lia
            |rewrite length_seq, length_app; simpl; lia]).
  all: try (intros Hin; apply elem_of_app in Hin as [Hin|Hin];
            [apply elem_of_seq in Hin; lia
            |apply list_elem_of_singleton in Hin; lia]).
  all: try (rewrite Forall_cons, Forall_app, Forall_singleton, length_insert, !length_app,
              length_fmap; simpl; split_and!; try lia;
            apply Forall_forall; intros l Hl; apply elem_of_seq in Hl; lia).
Qed.

(** Whatever set the constructor builds, writing the date that [end]
    returns writes the last boundary. *)
Lemma end_date_is_shared vstart vend name s (h : list tv) :
  DateRangeIntervals Date_parse vstart vend name = Normal s ->
  exists o h',
    Heap.DateRangeIntervals Date_parse vstart vend name h = Normal (o, h')
    /\ Heap.boundaries o h' = Some <$> segments s
    /\ forall t,
         Heap.end_ o (Heap.setTime (Heap.o_end o) t h') = t ≫= TimeClip
         /\ last (Heap.boundaries o (Heap.setTime (Heap.o_end o) t h'))
            = Some (t ≫= TimeClip).
Proof.
  intros Hs. pose proof (heap_constructor_refines vstart vend name h) as H.
  rewrite Hs in H.
  destruct H as (o & h' & Ho & Hb & _ & _ & _ & _ & _ & _ & (copies & Hsegs & _) & _ & Hall).
  exists o, h'. split_and!; [done..|]. intros t.
  assert (Heap.o_end o < length h')%nat as Hend.
  { rewrite Hsegs, Forall_cons, Forall_app, Forall_singleton in Hall.
    by destruct Hall as (_ & _ & ?). }
  assert (Heap.getTime (Heap.setTime (Heap.o_end o) t h') (Heap.o_end o) = t ≫= TimeClip)
    as Hget by (by apply getTime_insert_eq).
  split; [done|].
  unfold Heap.boundaries. rewrite Hsegs, fmap_app. simpl. by rewrite last_snoc, Hget.
Qed.

(** The date that [start] returns can be written too; it is no boundary,
    so that the boundaries stay. *)
Lemma start_date_is_writable vstart vend name s (h : list tv) :
  DateRangeIntervals Date_parse vstart vend name = Normal s ->
  exists o h',
    Heap.DateRangeIntervals Date_parse vstart vend name h = Normal (o, h')
    /\ forall t,
         Heap.start o (Heap.setTime (Heap.o_start o) t h') = t ≫= TimeClip
         /\ Heap.boundaries o (Heap.setTime (Heap.o_start o) t h')
            = Some <$> segments s.
Proof.
  intros Hs. pose proof (heap_constructor_refines vstart vend name h) as H.
  rewrite Hs in H.
  destruct H as (o & h' & Ho & Hb & _ & _ & _ & _ & _ & _ & _ & Hnotin & Hall).
  exists o, h'. split; [done|]. intros t.
  rewrite Forall_cons in Hall. destruct Hall as [Hstart _]. split.
  - by apply getTime_insert_eq.
  - rewrite <- Hb. unfold Heap.boundaries. apply list_fmap_ext. intros j l Hl.
    apply getTime_insert_ne. intros Heq. apply Hnotin. rewrite Heq.
    by eapply list_elem_of_lookup_2.
Qed.

End ObjectFacts.

Lemma getTime_setTime_ne h l l' t :
  l <> l' -> Heap.getTime (Heap.setTime l t h) l' = Heap.getTime h l'.
Proof. intros Hne. unfold Heap.getTime, Heap.setTime. by rewrite list_lookup_insert_ne. Qed.

(** A step of the generator allocates the two dates of the interval it
    yields and writes nowhere else. *)
Lemma next_allocates o i h io h' :
  Heap.next o i h = Some (io, h') ->
  exists a b,
    Heap.o_segments o !! i = Some a /\ Heap.o_segments o !! S i = Some b
    /\ Heap.io_start io = length h /\ Heap.io_end io = S (length h)
    /\ h' = h ++ [Heap.getTime h a; Heap.getTime (h ++ [Heap.getTime h a]) b].
Proof.
  unfold Heap.next, Heap.alloc. intros H.
  destruct (Heap.o_segments o !! i) as [a|]; [|done].
  destruct (Heap.o_segments o !! S i) as [b|]; [|done].
  injection H as <- <-. exists a, b. rewrite length_app, <- app_assoc. simpl.
  split_and!; try done. lia.
Qed.

Lemma boundaries_app o (h ext : Heap.store) :
  Forall (fun l => (l < length h)%nat) (Heap.o_segments o) ->
  Heap.boundaries o (h ++ ext) = Heap.boundaries o h.
Proof.
  unfold Heap.boundaries. intros Hall. apply list_fmap_ext. intros i l Hl.
  apply getTime_app_l. by eapply Forall_lookup_1 in Hall.
Qed.

(** Taking an interval from the iterator leaves the boundaries as they
    are. *)
Lemma next_keeps_boundaries o i h io h' :
  Forall (fun l => (l < length h)%nat) (Heap.o_segments o) ->
  Heap.next o i h = Some (io, h') ->
  Heap.boundaries o h' = Heap.boundaries o h
  /\ Forall (fun l => (l < length h')%nat) (Heap.o_segments o).
Proof.
  intros Hall H. apply next_allocates in H as (a & b & _ & _ & _ & _ & ->).
  split; [by apply boundaries_app|].
  eapply Forall_impl; [done|]. intros l Hl. rewrite length_app. simpl in *. lia.
Qed.

(** Neither does writing one of the two dates of a yielded interval: the
    interval holds copies. *)
Lemma yielded_dates_are_copies o i h io h' l t :
  Forall (fun l => (l < length h)%nat) (Heap.o_segments o) ->
  Heap.next o i h = Some (io, h') ->
  l = Heap.io_start io \/ l = Heap.io_end io ->
  Heap.boundaries o (Heap.setTime l t h') = Heap.boundaries o h.
Proof.
  intros Hall H Hl. pose proof (next_keeps_boundaries _ _ _ _ _ Hall H) as [<- _].
  apply next_allocates in H as (a & b & _ & _ & Hs & He & ->).
  unfold Heap.boundaries. apply list_fmap_ext. intros j l' Hl'.
  apply getTime_setTime_ne. eapply Forall_lookup_1 in Hall; [|done].
  destruct Hl as [-> | ->]; lia.
Qed.

(** Nor does it change what [start] and [end] return. *)
Lemma next_keeps_accessors o i (h : list tv) io h' :
  (Heap.o_start o < length h)%nat -> (Heap.o_end o < length h)%nat ->
  Heap.next o i h = Some (io, h') ->
  Heap.start o h' = Heap.start o h /\ Heap.end_ o h' = Heap.end_ o h.
Proof.
  intros Hs He H. apply next_allocates in H as (a & b & _ & _ & _ & _ & ->).
  unfold Heap.start, Heap.end_. by rewrite !getTime_app_l.
Qed.

Section ObjectClaims.

Variable Date_parse : string -> tv.

(** C9, at the failing input.  For the first four days of 2024 the
    constructor leaves the object [four_days_object]: its boundaries are
    those of [four_days], the date that [start] returns is none of them,
    but the date that [end] returns is the last of them.  Setting the time
    of that date to the epoch changes what [end] returns, the last
    boundary, and the last interval the iterator yields from then on,
    which now ends before it starts; [length] still says 4. *)
Theorem end_date_is_last_boundary :
  Heap.DateRangeIntervals Date_parse (VDate (Some (utc 2024 1 1)))
    (VDate (Some (utc 2024 1 5))) "day" []
  = Normal (four_days_object, four_days_store)
  /\ Heap.boundaries four_days_object four_days_store = Some <$> segments four_days
  /\ (Heap.iterate four_days_object four_days_store).1 = iterate four_days
  /\ (Heap.o_start four_days_object ∉ Heap.o_segments four_days_object)
  /\ last (Heap.o_segments four_days_object) = Some (Heap.o_end four_days_object)
  /\ (let h' := Heap.setTime (Heap.o_end four_days_object) (Some 0) four_days_store in
      Heap.end_ four_days_object h' = Some 0
      /\ Heap.boundaries four_days_object h'
         = [Some (utc 2024 1 1); Some (utc 2024 1 2); Some (utc 2024 1 3);
            Some (utc 2024 1 4); Some 0]
      /\ last ((Heap.iterate four_days_object h').1)
         = Some (DateRangeInterval_new (Some (utc 2024 1 4)) (Some 0) "day")
      /\ Heap.o_length four_days_object = 4).
Proof.
  split_and!; try (by vm_compute).
  intros Hin. vm_compute in Hin.
  repeat (apply elem_of_cons in Hin as [Hin|Hin]; [discriminate Hin|]).
  by apply elem_of_nil in Hin.
Qed.

End ObjectClaims.

(** ** The claims at concrete inputs *)

(** The first four days of 2024, by days. *)
Lemma boundaries_tile_range_witness :
  exists s,
    DateRangeIntervals no_parse (VDate (Some (utc 2024 1 1)))
      (VDate (Some (utc 2024 1 5))) "day" = Normal s
    /\ segments s !! 0%nat = Some (utc 2024 1 1)
    /\ last (segments s) = Some (utc 2024 1 5)
    /\ strictly_increasing (segments s)
    /\ 1 <= length_ s
    /\ tiles (utc 2024 1 1) (utc 2024 1 5) (iterate s).
Proof.
  destruct (boundaries_tile_range no_parse (VDate (Some (utc 2024 1 1)))
              (VDate (Some (utc 2024 1 5))) "day" Day_ (utc 2024 1 1) (utc 2024 1 5))
    as (s & Hs & _ & _ & Hfirst & Hlast & Hinc & _ & Hlen & _ & _ & Htiles & _);
    [reflexivity|reflexivity|reflexivity|reflexivity|vm_compute; reflexivity|reflexivity|].
  exists s. repeat split; assumption.
Defined.

(** Two days and a half, by days: not an equipartition. *)
Lemma isEquipartition_iff_witness :
  exists s,
    DateRangeIntervals no_parse (VDate (Some (utc 2024 1 1)))
      (VDate (Some (utc 2024 1 3 + 12 * msPerHour))) "day" = Normal s
    /\ (isEquipartition s = true <->
          (utc 2024 1 3 + 12 * msPerHour - utc 2024 1 1) mod minStep Day_ = 0).
Proof.
  destruct (isEquipartition_iff no_parse (VDate (Some (utc 2024 1 1)))
              (VDate (Some (utc 2024 1 3 + 12 * msPerHour))) "day" Day_
              (utc 2024 1 1) (utc 2024 1 3 + 12 * msPerHour))
    as (s & n & Hs & _ & _ & _ & _ & _ & Hfixed);
    [reflexivity|reflexivity|reflexivity|reflexivity|vm_compute; reflexivity|reflexivity|].
  exists s. split; [assumption|]. apply Hfixed. reflexivity.
Defined.

(** An unknown unit with both dates missing: the error is about the dates. *)
Lemma unknown_unit_missing_dates :
  own_key "bogus" = None
  /\ advanceByInterval_entry "bogus" = Absent
  /\ DateRangeIntervals no_parse VUndefined VUndefined "bogus"
     = Throw (JSError "Error" "Start and end dates required")
  /\ ~ InvalidUnit "bogus" (JSError "Error" "Start and end dates required").
Proof.
  split; [reflexivity|]. split; [reflexivity|]. split; [reflexivity|].
  unfold InvalidUnit. intros H. discriminate H.
Qed.

(** An unknown unit with valid dates: the error is about the unit. *)
Lemma unknown_unit_throws_witness :
  exists e,
    DateRangeIntervals no_parse (VDate (Some (utc 2024 1 1)))
      (VDate (Some (utc 2024 1 5))) "bogus" = Throw e
    /\ InvalidUnit "bogus" e.
Proof.
  destruct (unknown_unit_throws no_parse (VDate (Some (utc 2024 1 1)))
              (VDate (Some (utc 2024 1 5))) "bogus")
    as (e & He & Hunit & _); [reflexivity|].
  exists e. split; [assumption|]. apply Hunit.
  split; [reflexivity|]. split; [reflexivity|].
  exists (utc 2024 1 1), (utc 2024 1 5).
  split; [reflexivity|]. split; [reflexivity|]. vm_compute. reflexivity.
Defined.

(** The start equal to the end. *)
Lemma invalid_input_throws_witness :
  exists e,
    DateRangeIntervals no_parse (VDate (Some (utc 2024 1 1)))
      (VDate (Some (utc 2024 1 1))) "day" = Throw e
    /\ InvalidInput e.
Proof.
  destruct (invalid_input_throws no_parse (VDate (Some (utc 2024 1 1)))
              (VDate (Some (utc 2024 1 1))) "day")
    as (e & He & Hin & _).
  - right. right. right. right. exists (utc 2024 1 1), (utc 2024 1 1).
    split; [reflexivity|]. split; [reflexivity|]. vm_compute. discriminate.
  - exists e. split; assumption.
Defined.

(** [NaN] as start: falsy, hence reported as missing. *)
Lemma falsy_start_is_missing_witness :
  DateRangeIntervals no_parse (VNum None) (VDate (Some (utc 2024 1 5))) "day"
  = Throw (JSError "Error" "Start and end dates required").
Proof.
  destruct (falsy_start_is_missing no_parse (VDate (Some (utc 2024 1 5))) "day")
    as (_ & _ & _ & Hfalsy).
  apply Hfalsy. reflexivity.
Defined.

(** A function handed to [accept] is not on the chain of the visitors: the
    call does not throw, it returns a promise, and that promise is
    rejected; the constructor of the visitor, which is no [async] function,
    does throw.  And an object made with the prototype of the visitors, not
    by the constructor and with none of the three properties, is not
    rejected: its traversal logs one error for each of the four days and
    the promise is fulfilled. *)
Lemma synchronous_rejection_counterexample :
  instanceof_Visitor (object_of (BareFunction failing_callback)) = false
  /\ accept_call no_parse four_days (object_of (BareFunction failing_callback))
     = Normal (Some (object_of (BareFunction failing_callback), [],
                     Rejected invalid_visitor))
  /\ accept_call no_parse four_days (object_of (BareFunction failing_callback))
     <> Throw invalid_visitor
  /\ DateRangeIntervalVisitor (@NonFunction unit (VNum (Some 1))) tt
     = Throw (JSError "Error" "Visitor must be a function")
  /\ (forall (fn : ctor_arg unit) attached vis,
        DateRangeIntervalVisitor fn attached = Normal vis ->
        object_of (Instance vis) <> bare_prototype_object)
  /\ instanceof_Visitor (@bare_prototype_object unit) = true
  /\ exists tr,
       accept_call no_parse four_days (@bare_prototype_object unit)
       = Normal (Some (bare_prototype_object, tr, Fulfilled))
       /\ visits tr = []
       /\ length tr = 8%nat
       /\ tr !! 1%nat
          = Some (LogNotCallable None "day" (utc 2024 1 1) (utc 2024 1 2)
                    "visitor.visit is not a function").
Proof.
  split; [reflexivity|]. split; [reflexivity|]. split; [discriminate|].
  split; [reflexivity|]. split; [intros fn attached vis _; discriminate|].
  split; [reflexivity|].
  eexists. split; [vm_compute; reflexivity|].
  split; [reflexivity|]. split; reflexivity.
Qed.



Lemma recording_callback_preserves_depth : preserves_depth recording_callback.
Proof.
  intros v iv. unfold recording_callback. destruct (1 <? depth v); reflexivity.
Defined.

(** The scenario of the test: the counter is the depth of the recursion at
    each of the 382 calls, and 0 again at the end. *)
Lemma depth_is_recursion_depth_witness :
  exists v' tr p,
    accept no_parse year_2024_by_quarter (Instance recording_visitor)
      = Some (Instance {| visit := recording_callback; fields := v' |}, tr, p)
    /\ depth v' = 0
    /\ forall path d iv, (path, d, iv) ∈ calls tr -> d = 0 + (Z.of_nat (length path) - 1).
Proof.
  destruct (proj2 (proj2 (depth_is_recursion_depth no_parse)) _ recording_visitor
              (VDate (Some (utc 2024 1 1))) (VDate (Some (utc 2025 1 1))) "quarter"
              year_2024_by_quarter)
    as (v' & tr & p & Hacc & Hd & Hcalls);
    [vm_compute; reflexivity|exact recording_callback_preserves_depth|].
  exists v', tr, p. split; [assumption|]. split; assumption.
Defined.

(** ** The earlier variant, where it differs *)

Section VariantFacts.

Variable Date_parse : string -> tv.

(** Its flag compares two distinct objects: it is never true. *)
Lemma variant_isCongruentPartition_false vstart vend name s :
  Variant.DateRangeIntervals Date_parse vstart vend name = Normal s ->
  Variant.isCongruentPartition s = false.
Proof.
  unfold Variant.DateRangeIntervals. intros H.
  destruct (advanceByInterval_entry name); [| |done].
  all: repeat case_match; try done; by injection H as <-.
Qed.

(** Its only guard is the one on the unit, which therefore comes first. *)
Lemma variant_unknown_unit vstart vend name :
  advanceByInterval_entry name = Absent ->
  Variant.DateRangeIntervals Date_parse vstart vend name
  = Throw (JSError "Error" (invalid_interval_message name)).
Proof. unfold Variant.DateRangeIntervals. by intros ->. Qed.

(** It builds a set, of length 0, when the start is after the end, and
    takes 0 for a start. *)
Lemma variant_has_no_input_guard :
  Variant.length_ <$> Variant.DateRangeIntervals_result Date_parse
      (VDate (Some (utc 2024 1 5))) (VDate (Some (utc 2024 1 1))) "day" = Some 0
  /\ Variant.length_ <$> Variant.DateRangeIntervals_result Date_parse
        (VNum (Some 0)) (VNum (Some (2 * msPerDay))) "day" = Some 2.
Proof. split; by vm_compute. Qed.

(** While the iterator stands on an interval, [start] and [end] are the
    bounds of that interval, not those of the range. *)
Lemma variant_accessors_follow_the_iterator s i a b :
  Variant.next s i = (a, Some b) ->
  Variant.start a = default None (Variant.segments s !! i)
  /\ Variant.end_ a = default None (Variant.segments s !! S i).
Proof.
  unfold Variant.next. case_decide; [|done]. by intros [= <- <-].
Qed.

(** An error of the callback ends its traversal, where the current source
    logs it and goes on; and when the error comes from a descent the
    counter stays where the descent put it. *)
Lemma variant_accept_aborts :
  Variant.DateRangeIntervals Date_parse (VDate (Some (utc 2024 1 1)))
    (VDate (Some (utc 2024 1 5))) "day" = Normal variant_four_days
  /\ Variant.accept Date_parse variant_four_days (Instance failing_visitor)
     = Some (Instance failing_visitor,
             [Log (LogVisiting (utc 2024 1 1) (utc 2024 1 2));
              Visit [0%nat] 0
                (DateRangeInterval_new (Some (utc 2024 1 1)) (Some (utc 2024 1 2)) "day")],
             Rejected (JSError "Error" "no"))
  /\ (fun r => (length (calls r.1.2), r.2))
       <$> accept Date_parse four_days (Instance failing_visitor)
     = Some (4%nat, Fulfilled)
  /\ Variant.DateRangeIntervals Date_parse (VDate (Some (utc 2024 1 1)))
       (VDate (Some (utc 2024 1 3))) "day" = Normal variant_two_days
  /\ (fun r => (length (calls r.1.2), r.2))
       <$> Variant.accept Date_parse variant_two_days (Instance failing_below_visitor)
     = Some (2%nat, Rejected (JSError "Error" "no"))
  /\ Variant.accept Date_parse variant_two_days (Instance failing_below_visitor)
     ≫= (fun r => match r.1.1 with Instance v => Some (depth (fields v)) | _ => None end)
     = Some 1.
Proof. split_and!; by vm_compute. Qed.

End VariantFacts.

(** *** The length of one advance *)

Lemma monthStart_next m l :
  0 <= m <= 10 -> monthStart (m + 1) l = monthStart m l + DaysInMonth m l.
Proof.
  intros Hm.
  assert (m = 0 \/ m = 1 \/ m = 2 \/ m = 3 \/ m = 4 \/ m = 5 \/ m = 6 \/ m = 7
          \/ m = 8 \/ m = 9 \/ m = 10) as Hcases by lia.
  repeat (destruct Hcases as [-> | Hcases]); try subst m; simpl; lia.
Qed.

Lemma DaysInMonth_range m l : 0 <= l <= 1 -> 28 <= DaysInMonth m l <= 31.
Proof. intros Hl. unfold DaysInMonth. repeat case_match; lia. Qed.

Lemma TimeWithinDay_range t : 0 <= TimeWithinDay t < msPerDay.
Proof. unfold TimeWithinDay, msPerDay. apply Z.mod_pos_bound. lia. Qed.

Lemma MakeDate_days t k : MakeDate (Day t + k) (TimeWithinDay t) = t + k * msPerDay.
Proof. pose proof (day_decomposition t) as H. unfold MakeDate in *. lia. Qed.

(** [setUTCMonth(getUTCMonth() + 1)] moves the cursor by the length of the
    month it stands in. *)
Lemma MakeDay_next_month t :
  MakeDay (YearFromTime t) (MonthFromTime t + 1) (DateFromTime t)
  = Day t + DaysInMonth (MonthFromTime t) (InLeapYear t).
Proof.
  pose proof (MonthFromTime_range t) as Hm.
  pose proof (Day_of_date t) as Hday. unfold InLeapYear in *.
  destruct (decide (MonthFromTime t <= 10)) as [Hle|Hgt].
  - rewrite MakeDay_in_year by lia. rewrite monthStart_next by lia. lia.
  - assert (MonthFromTime t = 11) as H11 by lia. rewrite H11 in *.
    rewrite MakeDay_next_year by lia.
    rewrite DayFromYear_succ, DaysInYear_leap. simpl in *. lia.
Qed.

Lemma advance_Month t :
  advance Month t
  = TimeClip (t + DaysInMonth (MonthFromTime t) (InLeapYear t) * msPerDay).
Proof.
  unfold advance, setUTCMonth, getUTCMonth.
  by rewrite MakeDay_next_month, MakeDate_days.
Qed.

Lemma MakeDay_three_months t :
  exists k, 89 <= k <= 92
    /\ MakeDay (YearFromTime t) (MonthFromTime t + 3) (DateFromTime t) = Day t + k.
Proof.
  pose proof (MonthFromTime_range t) as Hm.
  pose proof (Day_of_date t) as Hday. unfold InLeapYear in *.
  pose proof (InLeapYear_of_year_range (YearFromTime t)) as Hl.
  pose proof (InLeapYear_of_year_range (YearFromTime t + 1)) as Hl'.
  eexists (MakeDay (YearFromTime t) (MonthFromTime t + 3) (DateFromTime t) - Day t).
  split; [|lia].
  destruct (decide (MonthFromTime t <= 8)) as [Hle|Hgt].
  - rewrite MakeDay_in_year by lia. rewrite Hday.
    assert (MonthFromTime t = 0 \/ MonthFromTime t = 1 \/ MonthFromTime t = 2
            \/ MonthFromTime t = 3 \/ MonthFromTime t = 4 \/ MonthFromTime t = 5
            \/ MonthFromTime t = 6 \/ MonthFromTime t = 7 \/ MonthFromTime t = 8)
      as Hcases by lia.
    repeat (destruct Hcases as [-> | Hcases]); try rewrite Hcases; simpl; lia.
  - rewrite MakeDay_next_year by lia. rewrite Hday.
    rewrite DayFromYear_succ, DaysInYear_leap.
    assert (MonthFromTime t = 9 \/ MonthFromTime t = 10 \/ MonthFromTime t = 11)
      as Hcases by lia.
    repeat (destruct Hcases as [-> | Hcases]); try rewrite Hcases; simpl; lia.
Qed.

Lemma MakeDay_one_year t :
  exists k, 365 <= k <= 366
    /\ MakeDay (YearFromTime t + 1) (MonthFromTime t) (DateFromTime t) = Day t + k.
Proof.
  pose proof (MonthFromTime_range t) as Hm.
  pose proof (Day_of_date t) as Hday. unfold InLeapYear in *.
  pose proof (InLeapYear_of_year_range (YearFromTime t)) as Hl.
  pose proof (InLeapYear_of_year_range (YearFromTime t + 1)) as Hl'.
  eexists (MakeDay (YearFromTime t + 1) (MonthFromTime t) (DateFromTime t) - Day t).
  split; [|lia].
  rewrite MakeDay_in_year by lia. rewrite Hday.
  rewrite DayFromYear_succ, DaysInYear_leap.
  assert (MonthFromTime t = 0 \/ MonthFromTime t = 1 \/ MonthFromTime t = 2
          \/ MonthFromTime t = 3 \/ MonthFromTime t = 4 \/ MonthFromTime t = 5
          \/ MonthFromTime t = 6 \/ MonthFromTime t = 7 \/ MonthFromTime t = 8
          \/ MonthFromTime t = 9 \/ MonthFromTime t = 10 \/ MonthFromTime t = 11)
    as Hcases by lia.
  repeat (destruct Hcases as [-> | Hcases]); try rewrite Hcases; simpl; lia.
Qed.

(** One advance of a unit made of whole days, as a number of days. *)
Lemma advance_days u lo hi t :
  day_span u = Some (lo, hi) ->
  exists k, lo <= k <= hi /\ advance u t = TimeClip (t + k * msPerDay).
Proof.
  intros Hspan. destruct u; simpl in Hspan; try discriminate Hspan;
    injection Hspan as <- <-.
  - exists 1. split; [lia|]. by rewrite advance_fixed.
  - exists 7. split; [lia|]. by rewrite advance_fixed.
  - eexists. split; [|apply advance_Month].
    apply DaysInMonth_range, InLeapYear_of_year_range.
  - destruct (MakeDay_three_months t) as (k & Hk & Heq). exists k. split; [done|].
    unfold advance, setUTCMonth, getUTCMonth. by rewrite Heq, MakeDate_days.
  - destruct (MakeDay_one_year t) as (k & Hk & Heq). exists k. split; [done|].
    unfold advance, setUTCFullYear, getUTCFullYear. by rewrite Heq, MakeDate_days.
Qed.

(** *** Year, month and date of an instant built from them *)

Ltac ltb_cases :=
  repeat match goal with
         | |- context [?a <? ?b] => destruct (Z.ltb_spec a b)
         end.

Lemma DayWithinYear_range t : 0 <= DayWithinYear t < 365 + InLeapYear t.
Proof.
  pose proof (YearFromTime_spec t) as H.
  rewrite DayFromYear_succ, DaysInYear_leap in H.
  unfold DayWithinYear, InLeapYear. lia.
Qed.

Lemma month_of_day_start m l d :
  0 <= m <= 11 -> 0 <= l <= 1 -> 1 <= d <= DaysInMonth m l ->
  month_of_day (monthStart m l + d - 1) l = m.
Proof.
  intros Hm Hl Hd.
  assert (m = 0 \/ m = 1 \/ m = 2 \/ m = 3 \/ m = 4 \/ m = 5 \/ m = 6 \/ m = 7
          \/ m = 8 \/ m = 9 \/ m = 10 \/ m = 11) as Hcases by lia.
  repeat (destruct Hcases as [-> | Hcases]); try subst m;
    unfold month_of_day; simpl in *; ltb_cases; lia.
Qed.

Lemma DateFromTime_range t :
  1 <= DateFromTime t <= DaysInMonth (MonthFromTime t) (InLeapYear t).
Proof.
  pose proof (DayWithinYear_range t) as Hd.
  pose proof (InLeapYear_of_year_range (YearFromTime t)) as Hl.
  unfold DateFromTime, MonthFromTime. fold (InLeapYear t) in Hl.
  generalize dependent (DayWithinYear t). generalize dependent (InLeapYear t).
  intros l Hl d Hd. unfold month_of_day. ltb_cases; simpl; lia.
Qed.

Lemma Day_MakeDate d w : 0 <= w < msPerDay -> Day (MakeDate d w) = d.
Proof. unfold Day, MakeDate, msPerDay. intros Hw. Z.div_mod_to_equations. lia. Qed.

Lemma TimeWithinDay_MakeDate d w : 0 <= w < msPerDay -> TimeWithinDay (MakeDate d w) = w.
Proof.
  unfold TimeWithinDay, MakeDate, msPerDay. intros Hw. Z.div_mod_to_equations. lia.
Qed.

Lemma monthStart_end m l :
  0 <= m <= 11 -> 0 <= l <= 1 -> monthStart m l + DaysInMonth m l <= 365 + l.
Proof.
  intros Hm Hl.
  assert (m = 0 \/ m = 1 \/ m = 2 \/ m = 3 \/ m = 4 \/ m = 5 \/ m = 6 \/ m = 7
          \/ m = 8 \/ m = 9 \/ m = 10 \/ m = 11) as Hcases by lia.
  repeat (destruct Hcases as [-> | Hcases]); try subst m; simpl; lia.
Qed.

(** The getters read back what [MakeDay] and [MakeDate] were given, when
    the date exists in its month; a month outside 0..11 carries into the
    year. *)
Lemma fields_of_MakeDay y month d w :
  1 <= d <= DaysInMonth (month mod 12) (InLeapYear_of_year (y + month / 12)) ->
  0 <= w < msPerDay ->
  YearFromTime (MakeDate (MakeDay y month d) w) = y + month / 12
  /\ MonthFromTime (MakeDate (MakeDay y month d) w) = month mod 12
  /\ DateFromTime (MakeDate (MakeDay y month d) w) = d
  /\ TimeWithinDay (MakeDate (MakeDay y month d) w) = w.
Proof.
  intros Hd Hw.
  set (t := MakeDate (MakeDay y month d) w).
  set (ym := y + month / 12) in *. set (mn := month mod 12) in *.
  assert (0 <= mn <= 11) as Hmn by (unfold mn; Z.div_mod_to_equations; lia).
  pose proof (InLeapYear_of_year_range ym) as Hl.
  assert (Day t = DayFromYear ym + monthStart mn (InLeapYear_of_year ym) + d - 1) as Hday.
  { unfold t. rewrite Day_MakeDate by done. reflexivity. }
  pose proof (monthStart_bounds mn _ Hmn Hl) as Hms.
  pose proof (monthStart_end mn _ Hmn Hl) as Hme.
  assert (YearFromTime t = ym) as Hy.
  { symmetry. apply YearFromTime_unique.
    rewrite DayFromYear_succ, DaysInYear_leap, Hday. lia. }
  assert (DayWithinYear t = monthStart mn (InLeapYear_of_year ym) + d - 1) as Hdwy.
  { unfold DayWithinYear. rewrite Hy, Hday. lia. }
  assert (MonthFromTime t = mn) as Hm.
  { unfold MonthFromTime, InLeapYear. rewrite Hy, Hdwy. by apply month_of_day_start. }
  split_and!; [done|done| |].
  - unfold DateFromTime, InLeapYear. rewrite Hm, Hy, Hdwy. lia.
  - unfold t. by apply TimeWithinDay_MakeDate.
Qed.

Lemma MakeDay_carry y a b d :
  MakeDay (y + a / 12) (a mod 12 + b) d = MakeDay y (a + b) d.
Proof.
  unfold MakeDay. cbv zeta.
  assert ((y + a / 12) + (a mod 12 + b) / 12 = y + (a + b) / 12) as ->
    by (Z.div_mod_to_equations; lia).
  assert ((a mod 12 + b) mod 12 = (a + b) mod 12) as ->
    by (Z.div_mod_to_equations; lia).
  done.
Qed.

Lemma advance_months u k t :
  months_of u = Some k -> advance u t = TimeClip (months_later t k).
Proof.
  intros Hk. destruct u; simpl in Hk; try discriminate Hk; injection Hk as <-;
    try reflexivity.
  unfold advance, setUTCFullYear, getUTCFullYear, months_later. do 2 f_equal.
  pose proof (MonthFromTime_range t) as Hm.
  unfold MakeDay. cbv zeta.
  replace ((MonthFromTime t + 12) / 12) with 1 by (Z.div_mod_to_equations; lia).
  replace ((MonthFromTime t + 12) mod 12) with (MonthFromTime t)
    by (Z.div_mod_to_equations; lia).
  rewrite (Z.div_small (MonthFromTime t) 12), (Z.mod_small (MonthFromTime t) 12) by lia.
  by rewrite Z.add_0_r.
Qed.

Lemma fields_months_later t j :
  DateFromTime t <= 28 ->
  YearFromTime (months_later t j) = YearFromTime t + (MonthFromTime t + j) / 12
  /\ MonthFromTime (months_later t j) = (MonthFromTime t + j) mod 12
  /\ DateFromTime (months_later t j) = DateFromTime t
  /\ TimeWithinDay (months_later t j) = TimeWithinDay t.
Proof.
  intros Hd. apply fields_of_MakeDay; [|apply TimeWithinDay_range].
  pose proof (DateFromTime_range t) as [H1 _].
  pose proof (DaysInMonth_range ((MonthFromTime t + j) mod 12) _
                (InLeapYear_of_year_range (YearFromTime t + (MonthFromTime t + j) / 12))).
  lia.
Qed.

Lemma months_later_add t j k :
  DateFromTime t <= 28 -> months_later (months_later t j) k = months_later t (j + k).
Proof.
  intros Hd. destruct (fields_months_later t j Hd) as (Hy & Hm & Hdt & Hw).
  unfold months_later at 1. rewrite Hy, Hm, Hdt, Hw, MakeDay_carry.
  unfold months_later. by rewrite Z.add_assoc.
Qed.

Lemma months_later_0 t : months_later t 0 = t.
Proof.
  unfold months_later. rewrite Z.add_0_r.
  pose proof (MakeDay_date t 0) as H. rewrite !Z.add_0_r in H. rewrite H.
  apply day_decomposition.
Qed.

(** A cursor that starts on one of the first 28 days of a month stays on
    that date: after [n] advances of a calendar unit it stands [n] times
    the months of the unit later. *)
Lemma advance_n_months u k (n : nat) t x :
  months_of u = Some k -> DateFromTime t <= 28 ->
  advance_n u n (Some t) = Some x -> x = months_later t (k * Z.of_nat n).
Proof.
  intros Hk Hd. revert x. induction n as [|n IH]; intros x H.
  - simpl in H. injection H as <-. by rewrite Z.mul_0_r, months_later_0.
  - rewrite advance_n_succ in H.
    destruct (advance_n u n (Some t)) as [z|]; [|done]. simpl in H.
    rewrite (advance_months u k) in H by done.
    apply TimeClip_Some in H as [-> _]. rewrite (IH z eq_refl).
    rewrite months_later_add by done. f_equal. lia.
Qed.

(** *** The boundaries as values of the cursor *)

Lemma built_lookup u ts te name s (k : nat) :
  built u ts te name s -> Z.of_nat k < length_ s ->
  exists x, segments s !! k = Some x /\ advance_n u k (Some ts) = Some x /\ x < te.
Proof.
  intros (xs & Hsegs & _ & Hxs & _ & _ & Hlen & _) Hk.
  destruct (lookup_lt_is_Some_2 xs k) as [x Hx]; [lia|].
  exists x. rewrite Hsegs, lookup_app_l by lia. split; [done|]. by apply Hxs.
Qed.

Lemma built_lookup_inv u ts te name s (k : nat) x :
  built u ts te name s -> segments s !! k = Some x ->
  Z.of_nat k < length_ s /\ advance_n u k (Some ts) = Some x /\ x < te
  \/ Z.of_nat k = length_ s /\ x = te.
Proof.
  intros (xs & Hsegs & _ & Hxs & _ & _ & Hlen & _) Hk. rewrite Hsegs in Hk.
  destruct (decide (k < length xs)%nat) as [Hlt|Hge].
  - rewrite lookup_app_l in Hk by done. left. split; [lia|]. by apply Hxs.
  - rewrite lookup_app_r in Hk by lia.
    destruct (k - length xs)%nat as [|[|]] eqn:Hd; simpl in Hk; try done.
    injection Hk as <-. right. split; [lia|done].
Qed.

Lemma built_end u ts te name s :
  built u ts te name s -> segments s !! Z.to_nat (length_ s) = Some te.
Proof.
  intros (xs & Hsegs & _ & _ & _ & _ & Hlen & _).
  rewrite Hsegs, Hlen, Nat2Z.id. by rewrite lookup_app_r, Nat.sub_diag by lia.
Qed.

(** Where the cursor stands when the loop ends: one advance after the last
    boundary before the end, which is at or after the end, or invalid. *)
Lemma built_overshoot u ts te name s :
  built u ts te name s ->
  exists x,
    segments s !! Z.to_nat (length_ s - 1) = Some x
    /\ advance_n u (Z.to_nat (length_ s - 1)) (Some ts) = Some x
    /\ match advance u x with
       | Some y => te <= y
       | None => True
       end.
Proof.
  intros Hb. pose proof Hb as (xs & Hsegs & Hpos & Hxs & Hstop & _ & Hlen & _).
  destruct (built_lookup u ts te name s (Z.to_nat (length_ s - 1)) Hb) as (x & Hx & Hadv & _);
    [lia|].
  exists x. split_and!; [done..|].
  replace (length xs) with (S (Z.to_nat (length_ s - 1))) in Hstop by lia.
  rewrite advance_n_succ, Hadv in Hstop. simpl in Hstop.
  destruct (advance u x) as [y|]; [|done]. simpl in Hstop. by apply Z.ltb_ge in Hstop.
Qed.

(** A set whose end the cursor reaches exactly. *)
Lemma built_exact u ts te name s (m : nat) :
  built u ts te name s -> advance_n u m (Some ts) = Some te ->
  isEquipartition s = true /\ length_ s = Z.of_nat m.
Proof.
  intros Hb Hm.
  pose proof (built_cursor_stops u ts te name s Hb) as Hstops.
  pose proof (cursor_stops_unique _ _ _ _ _ Hstops Hm) as ->.
  destruct Hb as (xs & _ & _ & _ & _ & Heq & Hlen & _).
  split; [|lia]. rewrite Heq. apply strict_eq_true.
  by rewrite Hlen, Nat2Z.id in Hm.
Qed.

Lemma TimeClip_None_above t :
  - maxTime <= t -> TimeClip t = None -> maxTime < t.
Proof. unfold TimeClip. intros Ht. case_match eqn:H; [|done]. intros _. lia. Qed.

Lemma TimeClip_in_range t : Z.abs t <= maxTime -> TimeClip t = Some t.
Proof. unfold TimeClip. intros H. by rewrite (proj2 (Z.ltb_ge _ _) H). Qed.

Lemma advance_n_range u (n : nat) x y :
  Z.abs x <= maxTime -> advance_n u n (Some x) = Some y -> Z.abs y <= maxTime.
Proof.
  intros Hx. destruct n as [|n]; [by intros [= <-]|].
  rewrite advance_n_succ. destruct (advance_n u n (Some x)) as [z|]; [|done]. simpl.
  intros H. destruct (fixed_length u) eqn:Hfix.
  - rewrite advance_fixed in H by done. by apply TimeClip_Some in H as [-> ?].
  - destruct (advance_calendar u z Hfix) as (d & Hd & _). rewrite Hd in H.
    by apply TimeClip_Some in H as [-> ?].
Qed.

(** *** The phase of the boundaries *)

Lemma phase_add_days u lo hi t k :
  day_span u = Some (lo, hi) -> phase u (t + k * msPerDay) = phase u t.
Proof.
  intros Hspan. destruct u; simpl in Hspan; try discriminate Hspan;
    unfold phase, TimeWithinDay; apply Z_mod_plus_full.
Qed.

Lemma advance_phase u t t' : advance u t = Some t' -> phase u t' = phase u t.
Proof.
  intros H. destruct (day_span u) as [[lo hi]|] eqn:Hspan.
  - destruct (advance_days u lo hi t Hspan) as (k & _ & Hk). rewrite Hk in H.
    apply TimeClip_Some in H as [-> _]. by eapply phase_add_days.
  - destruct u; simpl in Hspan; try discriminate Hspan;
      rewrite advance_fixed in H by done; apply TimeClip_Some in H as [-> _];
      unfold phase, minStep, msPerSecond, msPerMinute, msPerHour;
      Z.div_mod_to_equations; lia.
Qed.

Lemma advance_n_phase u (n : nat) t x :
  advance_n u n (Some t) = Some x -> phase u x = phase u t.
Proof.
  revert x. induction n as [|n IH]; intros x H.
  - by injection H as <-.
  - rewrite advance_n_succ in H.
    destruct (advance_n u n (Some t)) as [z|]; [|done]. simpl in H.
    apply advance_phase in H. rewrite H. by apply IH.
Qed.

(** *** Months *)

Lemma months_later_1 t :
  months_later t 1 = t + DaysInMonth (MonthFromTime t) (InLeapYear t) * msPerDay.
Proof. unfold months_later. by rewrite MakeDay_next_month, MakeDate_days. Qed.

Lemma months_later_mono t (j : nat) (k : nat) :
  DateFromTime t <= 28 -> (j <= k)%nat ->
  months_later t (Z.of_nat j) <= months_later t (Z.of_nat k).
Proof.
  intros Hd Hjk. induction Hjk as [|k _ IH]; [lia|].
  replace (Z.of_nat (S k)) with (Z.of_nat k + 1) by lia.
  rewrite <- months_later_add by done. rewrite months_later_1.
  pose proof (DaysInMonth_range (MonthFromTime (months_later t (Z.of_nat k)))
                (InLeapYear (months_later t (Z.of_nat k)))
                (InLeapYear_of_year_range _)).
  unfold msPerDay. lia.
Qed.

Lemma advance_n_months_in_range u k (n : nat) t :
  months_of u = Some k -> DateFromTime t <= 28 ->
  Z.abs t <= maxTime -> Z.abs (months_later t (k * Z.of_nat n)) <= maxTime ->
  advance_n u n (Some t) = Some (months_later t (k * Z.of_nat n)).
Proof.
  intros Hk Hd Ht.
  assert (0 <= k) as Hk0 by (destruct u; simpl in Hk; try discriminate Hk;
                              injection Hk as <-; lia).
  induction n as [|n IH]; intros Hn.
  - simpl. by rewrite Z.mul_0_r, months_later_0.
  - assert (months_later t 0 <= months_later t (k * Z.of_nat n)
            /\ months_later t (k * Z.of_nat n) <= months_later t (k * Z.of_nat (S n)))
      as [Hlo Hhi].
    { replace 0 with (Z.of_nat 0) by done.
      replace (k * Z.of_nat n) with (Z.of_nat (Z.to_nat (k * Z.of_nat n))) by lia.
      replace (k * Z.of_nat (S n)) with (Z.of_nat (Z.to_nat (k * Z.of_nat (S n)))) by lia.
      split; apply months_later_mono; try done; lia. }
    rewrite months_later_0 in Hlo.
    rewrite advance_n_succ, IH by lia. simpl.
    rewrite (advance_months u k) by done.
    rewrite months_later_add by done.
    replace (k * Z.of_nat n + k) with (k * Z.of_nat (S n)) by lia.
    by apply TimeClip_in_range.
Qed.

(** The month after the one [t] lies in, as the arguments of
    [DaysInMonth]. *)
Lemma MakeDay_month_carry y m d :
  MakeDay y (m + 1) d
  = MakeDay y m (d + DaysInMonth (m mod 12) (InLeapYear_of_year (y + m / 12))).
Proof.
  unfold MakeDay. cbv zeta.
  assert (0 <= m mod 12 <= 11) as Hm by (Z.div_mod_to_equations; lia).
  destruct (decide (m mod 12 <= 10)) as [Hle|Hgt].
  - assert ((m + 1) / 12 = m / 12) as -> by (Z.div_mod_to_equations; lia).
    assert ((m + 1) mod 12 = m mod 12 + 1) as -> by (Z.div_mod_to_equations; lia).
    rewrite monthStart_next by lia. lia.
  - assert ((m + 1) / 12 = m / 12 + 1) as -> by (Z.div_mod_to_equations; lia).
    assert ((m + 1) mod 12 = 0) as -> by (Z.div_mod_to_equations; lia).
    assert (m mod 12 = 11) as -> by lia.
    rewrite Z.add_assoc, DayFromYear_succ, DaysInYear_leap. simpl. lia.
Qed.

Lemma advance_n_days u lo hi (n : nat) x y :
  day_span u = Some (lo, hi) -> advance_n u n (Some x) = Some y ->
  x + Z.of_nat n * lo * msPerDay <= y <= x + Z.of_nat n * hi * msPerDay.
Proof.
  intros Hspan. revert y. induction n as [|n IH]; intros y H.
  - simpl in H. injection H as ->. lia.
  - rewrite advance_n_succ in H.
    destruct (advance_n u n (Some x)) as [z|]; [|done]. simpl in H.
    destruct (advance_days u lo hi z Hspan) as (d & Hd & Hstep). rewrite Hstep in H.
    apply TimeClip_Some in H as [-> _]. specialize (IH z eq_refl).
    unfold msPerDay in *. nia.
Qed.

(** The boundaries of a set by a unit of fixed length. *)
Lemma built_fixed u ts te name s :
  built u ts te name s -> fixed_length u = true ->
  Z.abs ts <= maxTime -> Z.abs te <= maxTime ->
  (forall k : nat, Z.of_nat k < length_ s ->
     segments s !! k = Some (ts + Z.of_nat k * minStep u)
     /\ ts + Z.of_nat k * minStep u < te)
  /\ te <= ts + length_ s * minStep u.
Proof.
  intros Hb Hfix Hts Hte. pose proof (minStep_pos u) as Hstep.
  pose proof (built_length _ _ _ _ _ Hb) as [Hlen Hlen1]. split.
  - intros k Hk. destruct (built_lookup _ _ _ _ _ k Hb Hk) as (x & Hx & Hadv & Hxe).
    apply advance_n_fixed_eq in Hadv; [|done]. by subst x.
  - destruct (built_overshoot _ _ _ _ _ Hb) as (x & _ & Hadv & Hy).
    apply advance_n_fixed_eq in Hadv; [|done].
    rewrite advance_fixed in Hy by done.
    destruct (TimeClip (x + minStep u)) as [y|] eqn:Hclip.
    + apply TimeClip_Some in Hclip as [-> _]. nia.
    + apply TimeClip_None_above in Hclip; nia.
Qed.

(** An instant is given by its month, its date and its time of day. *)
Lemma instant_of_fields t t' :
  DateFromTime t' = DateFromTime t -> TimeWithinDay t' = TimeWithinDay t ->
  t' = months_later t (month_index t' - month_index t).
Proof.
  intros Hd Hw. unfold months_later, month_index.
  pose proof (MonthFromTime_range t) as Hm. pose proof (MonthFromTime_range t') as Hm'.
  assert (MakeDay (YearFromTime t)
            (MonthFromTime t
             + (12 * YearFromTime t' + MonthFromTime t'
                - (12 * YearFromTime t + MonthFromTime t)))
            (DateFromTime t) = Day t') as ->.
  { unfold MakeDay. cbv zeta.
    match goal with
    | |- context [?x / 12] =>
        assert (x / 12 = YearFromTime t' - YearFromTime t) as ->
          by (Z.div_mod_to_equations; lia);
        assert (x mod 12 = MonthFromTime t') as -> by (Z.div_mod_to_equations; lia)
    end.
    replace (YearFromTime t + (YearFromTime t' - YearFromTime t)) with (YearFromTime t')
      by lia.
    pose proof (Day_of_date t') as Hday. unfold InLeapYear in Hday. lia. }
  rewrite <- Hw. symmetry. apply day_decomposition.
Qed.

(** ** The advances and the boundaries, unit by unit *)

(** X1.  For the second, the minute, the hour, the day and the week, the
    advance reads one field of the cursor and writes it back increased; the
    cursor moves by exactly the length of the unit, also when the field
    runs over (the 59th second, the last day of a month), and becomes
    invalid exactly when that leaves the range of [Date]. *)
Theorem fixed_units_advance_by_their_length (t : Z) :
  advance Second t = TimeClip (t + 1000)
  /\ advance Minute t = TimeClip (t + 60 * 1000)
  /\ advance Hour t = TimeClip (t + 60 * 60 * 1000)
  /\ advance Day_ t = TimeClip (t + 24 * 60 * 60 * 1000)
  /\ advance Week t = TimeClip (t + 7 * 24 * 60 * 60 * 1000).
Proof. split_and!; by rewrite advance_fixed. Qed.

(** X2.  For the month, the quarter and the year the cursor moves by whole
    days, to the same time of day: a month moves it by the number of days
    of the month it stands in (28 to 31), a quarter by 89 to 92 days, a
    year by 365 or 366 days. *)
Theorem calendar_units_advance_by_whole_days (t : Z) :
  advance Month t
  = TimeClip (t + DaysInMonth (MonthFromTime t) (InLeapYear t) * msPerDay)
  /\ 28 <= DaysInMonth (MonthFromTime t) (InLeapYear t) <= 31
  /\ (exists k, 89 <= k <= 92 /\ advance Quarter t = TimeClip (t + k * msPerDay))
  /\ (exists k, 365 <= k <= 366 /\ advance Year t = TimeClip (t + k * msPerDay))
  /\ forall u t', fixed_length u = false -> advance u t = Some t' ->
       TimeWithinDay t' = TimeWithinDay t.
Proof.
  split; [apply advance_Month|].
  split; [apply DaysInMonth_range, InLeapYear_of_year_range|].
  split; [by apply (advance_days Quarter)|].
  split; [by apply (advance_days Year)|].
  - intros u t' Hfix H.
    assert (exists lo hi, day_span u = Some (lo, hi)) as (lo & hi & Hspan)
      by (destruct u; try discriminate Hfix; by eexists _, _).
    pose proof (advance_phase u t t' H) as Hph.
    by destruct u; try discriminate Hfix.
Qed.

(** X3.  What a month's advance does to the calendar fields.  The cursor
    keeps its time of day.  When its date exists in the next month it keeps
    the date and stands in the next month; when it does not (the 31st
    before a month of 30 days, the 30th and the 31st of January), the
    cursor runs over into the month after the next, and its date is what
    was in excess. *)
Theorem month_advance_fields (t t' : Z) :
  advance Month t = Some t' ->
  let next := DaysInMonth ((MonthFromTime t + 1) mod 12)
                (InLeapYear_of_year (YearFromTime t + (MonthFromTime t + 1) / 12)) in
  TimeWithinDay t' = TimeWithinDay t
  /\ (DateFromTime t <= next ->
      month_index t' = month_index t + 1 /\ DateFromTime t' = DateFromTime t)
  /\ (next < DateFromTime t ->
      month_index t' = month_index t + 2 /\ DateFromTime t' = DateFromTime t - next).
Proof.
  intros H. cbv zeta.
  remember (DaysInMonth ((MonthFromTime t + 1) mod 12)
              (InLeapYear_of_year (YearFromTime t + (MonthFromTime t + 1) / 12)))
    as next eqn:Hnext.
  assert (28 <= next <= 31) as Hn
    by (rewrite Hnext; apply DaysInMonth_range, InLeapYear_of_year_range).
  pose proof (advance_phase Month t t' H) as Hph. simpl in Hph.
  split; [done|].
  unfold advance, setUTCMonth, getUTCMonth in H. apply TimeClip_Some in H as [-> _].
  pose proof (DateFromTime_range t) as [Hd1 Hd2].
  pose proof (DaysInMonth_range (MonthFromTime t) _
                (InLeapYear_of_year_range (YearFromTime t))) as Hdim.
  fold (InLeapYear t) in Hdim.
  pose proof (TimeWithinDay_range t) as Hw.
  split.
  - intros Hle.
    destruct (fields_of_MakeDay (YearFromTime t) (MonthFromTime t + 1) (DateFromTime t)
                (TimeWithinDay t)) as (Hy & Hm & Hd & _); [rewrite <- Hnext; lia|done|].
    unfold month_index. rewrite Hy, Hm. split; [|done].
    pose proof (Z.div_mod (MonthFromTime t + 1) 12). lia.
  - intros Hgt.
    assert (MakeDay (YearFromTime t) (MonthFromTime t + 1) (DateFromTime t)
            = MakeDay (YearFromTime t) (MonthFromTime t + 2) (DateFromTime t - next)) as ->.
    { replace (MonthFromTime t + 2) with (MonthFromTime t + 1 + 1) by lia.
      rewrite (MakeDay_month_carry _ (MonthFromTime t + 1)), <- Hnext. f_equal. lia. }
    destruct (fields_of_MakeDay (YearFromTime t) (MonthFromTime t + 2)
                (DateFromTime t - next) (TimeWithinDay t)) as (Hy & Hm & Hd & _); [|done|].
    { pose proof (DaysInMonth_range ((MonthFromTime t + 2) mod 12) _
                    (InLeapYear_of_year_range
                       (YearFromTime t + (MonthFromTime t + 2) / 12))).
      lia. }
    unfold month_index. rewrite Hy, Hm. split; [|done].
    pose proof (Z.div_mod (MonthFromTime t + 2) 12). lia.
Qed.

Section ConstructorUnits.

Variable Date_parse : string -> tv.

(** X4.  A set by seconds, minutes, hours, days or weeks: the number of
    intervals is the length of the range divided by the length of the unit,
    rounded up; boundary [k] is the start plus [k] units; every interval is
    one unit long, except that the last one stops at the end. *)
Theorem fixed_unit_boundaries vstart vend name u ts te :
  ToBoolean vstart = true -> ToBoolean vend = true ->
  Date_new Date_parse vstart = Some ts -> Date_new Date_parse vend = Some te ->
  ts < te -> own_key name = Some u -> fixed_length u = true ->
  exists s,
    DateRangeIntervals Date_parse vstart vend name = Normal s
    /\ length_ s = (te - ts + minStep u - 1) / minStep u
    /\ (forall k : nat, Z.of_nat k < length_ s ->
          segments s !! k = Some (ts + Z.of_nat k * minStep u))
    /\ (forall (k : nat) iv, iterate s !! k = Some iv ->
          i_start iv = Some (ts + Z.of_nat k * minStep u)
          /\ i_end iv = Some (Z.min (ts + (Z.of_nat k + 1) * minStep u) te)).
Proof.
  intros Hs He Hts Hte Hlt Hu Hfix.
  destruct (DateRangeIntervals_Normal Date_parse vstart vend name u ts te)
    as (s & Hnormal & Hb); try done.
  pose proof (minStep_pos u) as Hstep.
  pose proof (built_length _ _ _ _ _ Hb) as [Hlen Hlen1].
  assert (forall k : nat, Z.of_nat k < length_ s ->
            segments s !! k = Some (ts + Z.of_nat k * minStep u)
            /\ ts + Z.of_nat k * minStep u < te) as Hk.
  { intros k Hk. destruct (built_lookup _ _ _ _ _ k Hb Hk) as (x & Hx & Hadv & Hxe).
    apply advance_n_fixed_eq in Hadv; [|done]. by subst x. }
  assert (te <= ts + length_ s * minStep u) as Hover.
  { destruct (built_overshoot _ _ _ _ _ Hb) as (x & _ & Hadv & Hy).
    apply advance_n_fixed_eq in Hadv; [|done].
    rewrite advance_fixed in Hy by done.
    pose proof (Date_new_range Date_parse _ _ Hts).
    pose proof (Date_new_range Date_parse _ _ Hte).
    destruct (TimeClip (x + minStep u)) as [y|] eqn:Hclip.
    - apply TimeClip_Some in Hclip as [-> _]. nia.
    - apply TimeClip_None_above in Hclip; nia. }
  exists s. split_and!; [done| |by intros k Hk'; apply Hk|].
  - destruct (Hk (Z.to_nat (length_ s - 1))) as [_ Hlast]; [lia|].
    apply Z.div_unique with (r := te - ts + minStep u - 1 - minStep u * length_ s); nia.
  - intros k iv Hiv. unfold iterate in Hiv.
    apply iterate_from_lookup in Hiv as (a & b & Ha & Hb' & ->). simpl.
    assert (Z.of_nat k < length_ s) as Hklt.
    { apply lookup_lt_Some in Hb'. lia. }
    destruct (Hk k Hklt) as [Hka _]. rewrite Hka in Ha. injection Ha as <-.
    split; [done|]. f_equal.
    destruct (built_lookup_inv _ _ _ _ _ _ _ Hb Hb') as [(Hlt' & _ & _)|[Heq ->]].
    + destruct (Hk (S k) Hlt') as [Hkb Hkb']. rewrite Hkb in Hb'. injection Hb' as <-. lia.
    + assert (length_ s = Z.of_nat k + 1) as Hn by lia. rewrite Hn in Hover. lia.
Qed.

(** X5.  For the units of fixed length the flag means what its name
    says: [isEquipartition] is true exactly when all the intervals of the
    set are one unit long. *)
Theorem equipartition_means_equal_lengths vstart vend name u ts te :
  ToBoolean vstart = true -> ToBoolean vend = true ->
  Date_new Date_parse vstart = Some ts -> Date_new Date_parse vend = Some te ->
  ts < te -> own_key name = Some u -> fixed_length u = true ->
  exists s,
    DateRangeIntervals Date_parse vstart vend name = Normal s
    /\ (isEquipartition s = true <->
        forall (k : nat) iv a b, iterate s !! k = Some iv ->
          i_start iv = Some a -> i_end iv = Some b -> b - a = minStep u).
Proof.
  intros Hs He Hts Hte Hlt Hu Hfix.
  destruct (DateRangeIntervals_Normal Date_parse vstart vend name u ts te)
    as (s & Hnormal & Hb); try done.
  pose proof (Date_new_range Date_parse _ _ Hts) as Hrts.
  pose proof (Date_new_range Date_parse _ _ Hte) as Hrte.
  pose proof (built_length _ _ _ _ _ Hb) as [Hlen Hlen1].
  destruct (built_fixed _ _ _ _ _ Hb Hfix Hrts Hrte) as [Hk Hover].
  pose proof (built_end _ _ _ _ _ Hb) as Hend.
  exists s. split; [done|]. split.
  - intros Heq k iv a b Hiv Ha Hb'. unfold iterate in Hiv.
    apply iterate_from_lookup in Hiv as (a' & b' & Ha' & Hb'' & ->). simpl in Ha, Hb'.
    injection Ha as ->. injection Hb' as ->.
    assert (te = ts + length_ s * minStep u) as Hte'.
    { pose proof Hb as (xs & _ & _ & _ & _ & Hflag & Hl & _).
      rewrite Hflag in Heq. apply strict_eq_true in Heq.
      apply advance_n_fixed_eq in Heq; [|done]. lia. }
    assert (Z.of_nat k < length_ s) as Hklt by (apply lookup_lt_Some in Hb''; lia).
    destruct (Hk k Hklt) as [Hka _]. rewrite Hka in Ha'. injection Ha' as <-.
    destruct (built_lookup_inv _ _ _ _ _ _ _ Hb Hb'') as [(Hlt' & _ & _)|[Hn ->]].
    + destruct (Hk (S k) Hlt') as [Hkb _]. rewrite Hkb in Hb''. injection Hb'' as <-. lia.
    + lia.
  - intros Hall.
    destruct (Hk (Z.to_nat (length_ s - 1))) as [Hlast _]; [lia|].
    assert (iterate s !! Z.to_nat (length_ s - 1)
            = Some (DateRangeInterval_new
                      (Some (ts + Z.of_nat (Z.to_nat (length_ s - 1)) * minStep u))
                      (Some te) (interval s))) as Hiv.
    { unfold iterate. apply iterate_from_lookup. eexists _, _. split; [done|].
      split; [|done]. by replace (S (Z.to_nat (length_ s - 1))) with (Z.to_nat (length_ s)) by lia. }
    specialize (Hall _ _ _ _ Hiv eq_refl eq_refl).
    rewrite Z2Nat.id in Hall by lia.
    assert (ts + Z.of_nat (Z.to_nat (length_ s)) * minStep u = te) as Hte'
      by (rewrite Z2Nat.id by lia; lia).
    assert (advance_n u (Z.to_nat (length_ s)) (Some ts) = Some te) as Hadv.
    { pose proof (advance_n_fixed_in_range u (Z.to_nat (length_ s)) ts Hfix Hrts) as Hin.
      rewrite Hte' in Hin. by apply Hin. }
    by destruct (built_exact _ _ _ _ _ _ Hb Hadv).
Qed.

(** X6.  Every boundary before the end is in phase with the start: it has
    the milliseconds of the start for a set by seconds, its seconds and
    milliseconds for a set by minutes, its minutes too for a set by hours,
    and its time of day for the other units. *)
Theorem boundaries_keep_the_phase vstart vend name u ts te :
  ToBoolean vstart = true -> ToBoolean vend = true ->
  Date_new Date_parse vstart = Some ts -> Date_new Date_parse vend = Some te ->
  ts < te -> own_key name = Some u ->
  exists s,
    DateRangeIntervals Date_parse vstart vend name = Normal s
    /\ forall (k : nat) x, Z.of_nat k < length_ s -> segments s !! k = Some x ->
         phase u x = phase u ts
         /\ msFromTime x = msFromTime ts
         /\ (u <> Second -> SecFromTime x = SecFromTime ts)
         /\ (u <> Second -> u <> Minute -> MinFromTime x = MinFromTime ts)
         /\ (u <> Second -> u <> Minute -> u <> Hour -> HourFromTime x = HourFromTime ts).
Proof.
  intros Hs He Hts Hte Hlt Hu.
  destruct (DateRangeIntervals_Normal Date_parse vstart vend name u ts te)
    as (s & Hnormal & Hb); try done.
  exists s. split; [done|]. intros k x Hk Hx.
  destruct (built_lookup _ _ _ _ _ k Hb Hk) as (x' & Hx' & Hadv & _).
  rewrite Hx in Hx'. injection Hx' as <-.
  apply advance_n_phase in Hadv. split; [done|].
  revert Hadv.
  unfold phase, TimeWithinDay, msFromTime, SecFromTime, MinFromTime, HourFromTime,
    msPerSecond, msPerMinute, msPerHour, msPerDay.
  destruct u; intros Hph; split_and!; try done; intros;
    Z.div_mod_to_equations; lia.
Qed.

(** X7.  In a set by days, weeks, months, quarters or years every interval
    but the last spans a whole number of days within the bounds of the unit
    (1; 7; 28 to 31; 89 to 92; 365 or 366), and the last interval spans no
    more than the upper bound. *)
Theorem intervals_span_whole_days vstart vend name u lo hi ts te :
  ToBoolean vstart = true -> ToBoolean vend = true ->
  Date_new Date_parse vstart = Some ts -> Date_new Date_parse vend = Some te ->
  ts < te -> own_key name = Some u -> day_span u = Some (lo, hi) ->
  exists s,
    DateRangeIntervals Date_parse vstart vend name = Normal s
    /\ forall (k : nat) iv, iterate s !! k = Some iv ->
         exists a b,
           i_start iv = Some a /\ i_end iv = Some b
           /\ 0 < b - a <= hi * msPerDay
           /\ (Z.of_nat k + 1 < length_ s ->
               exists d, lo <= d <= hi /\ b = a + d * msPerDay).
Proof.
  intros Hs He Hts Hte Hlt Hu Hspan.
  destruct (DateRangeIntervals_Normal Date_parse vstart vend name u ts te)
    as (s & Hnormal & Hb); try done.
  pose proof (built_length _ _ _ _ _ Hb) as [Hlen Hlen1].
  pose proof (built_segments_increasing _ _ _ _ _ Hb) as Hinc.
  pose proof (Date_new_range Date_parse _ _ Hts) as Hrts.
  pose proof (Date_new_range Date_parse _ _ Hte) as Hrte.
  exists s. split; [done|]. intros k iv Hiv. unfold iterate in Hiv.
  apply iterate_from_lookup in Hiv as (a & b & Ha & Hb' & ->).
  exists a, b. split; [done|]. split; [done|].
  assert (Z.of_nat k < length_ s) as Hk by (apply lookup_lt_Some in Hb'; lia).
  destruct (built_lookup _ _ _ _ _ k Hb Hk) as (a' & Ha' & Hadv & Hae).
  rewrite Ha in Ha'. injection Ha' as <-.
  destruct (advance_days u lo hi a Hspan) as (d & Hd & Hstep).
  assert (1 <= lo) as Hlo
    by (destruct u; simpl in Hspan; try discriminate Hspan; injection Hspan as <- <-; lia).
  assert (a < b) as Hab by (apply (Hinc k (S k)); [lia|done|done]).
  assert (ts <= a) as Htsa.
  { destruct k as [|k]; [simpl in Hadv; injection Hadv as <-; lia|].
    pose proof (advance_n_lt u 0 (S k) (Some ts) ts a). simpl in *.
    assert (ts < a) by (apply H; [lia|done|done]). lia. }
  destruct (built_lookup_inv _ _ _ _ _ _ _ Hb Hb') as [(Hlt' & Hadv' & _)|[Heq ->]].
  - rewrite advance_n_succ, Hadv in Hadv'. simpl in Hadv'.
    rewrite Hstep in Hadv'. apply TimeClip_Some in Hadv' as [-> _].
    split; [unfold msPerDay in *; nia|]. intros _. by exists d.
  - split; [|lia]. split; [lia|].
    destruct (built_overshoot _ _ _ _ _ Hb) as (x & Hx & _ & Hy).
    replace (Z.to_nat (length_ s - 1)) with k in Hx by lia.
    rewrite Ha in Hx. injection Hx as <-. rewrite Hstep in Hy.
    destruct (TimeClip (a + d * msPerDay)) as [y|] eqn:Hclip.
    + apply TimeClip_Some in Hclip as [-> _]. unfold msPerDay in *. nia.
    + apply TimeClip_None_above in Hclip; unfold msPerDay in *; nia.
Qed.

(** X8.  In a set by days, weeks, months, quarters or years the number of
    intervals is bounded by the length of the range in days: all intervals
    but the last take up less than the range at the least number of days of
    the unit each, and all of them cover it at the greatest number of days
    each. *)
Theorem length_is_bounded_by_the_days vstart vend name u lo hi ts te :
  ToBoolean vstart = true -> ToBoolean vend = true ->
  Date_new Date_parse vstart = Some ts -> Date_new Date_parse vend = Some te ->
  ts < te -> own_key name = Some u -> day_span u = Some (lo, hi) ->
  exists s,
    DateRangeIntervals Date_parse vstart vend name = Normal s
    /\ (length_ s - 1) * lo * msPerDay < te - ts
    /\ te - ts <= length_ s * hi * msPerDay.
Proof.
  intros Hs He Hts Hte Hlt Hu Hspan.
  destruct (DateRangeIntervals_Normal Date_parse vstart vend name u ts te)
    as (s & Hnormal & Hb); try done.
  pose proof (built_length _ _ _ _ _ Hb) as [Hlen Hlen1].
  pose proof (Date_new_range Date_parse _ _ Hts) as Hrts.
  pose proof (Date_new_range Date_parse _ _ Hte) as Hrte.
  assert (1 <= lo <= hi) as Hlo
    by (destruct u; simpl in Hspan; try discriminate Hspan; injection Hspan as <- <-; lia).
  destruct (built_lookup _ _ _ _ _ (Z.to_nat (length_ s - 1)) Hb) as (x & Hx & Hadv & Hxe);
    [lia|].
  pose proof (advance_n_days u lo hi _ _ _ Hspan Hadv) as Hdays.
  rewrite Z2Nat.id in Hdays by lia.
  exists s. split; [done|]. split; [lia|].
  destruct (built_overshoot _ _ _ _ _ Hb) as (x' & Hx' & _ & Hy).
  rewrite Hx in Hx'. injection Hx' as <-.
  destruct (advance_days u lo hi x Hspan) as (d & Hd & Hstep). rewrite Hstep in Hy.
  destruct (TimeClip (x + d * msPerDay)) as [y|] eqn:Hclip.
  - apply TimeClip_Some in Hclip as [-> _]. unfold msPerDay in *. nia.
  - apply TimeClip_None_above in Hclip; unfold msPerDay in *; nia.
Qed.

(** X9.  A set by months, quarters or years whose start is on one of the
    first 28 days of a month: every boundary before the end is on that
    date, at the time of day of the start, and boundary [k] is [k] months,
    quarters or years after the start. *)
Theorem calendar_boundaries_keep_the_date vstart vend name u m ts te :
  ToBoolean vstart = true -> ToBoolean vend = true ->
  Date_new Date_parse vstart = Some ts -> Date_new Date_parse vend = Some te ->
  ts < te -> own_key name = Some u -> months_of u = Some m ->
  DateFromTime ts <= 28 ->
  exists s,
    DateRangeIntervals Date_parse vstart vend name = Normal s
    /\ forall (k : nat) x, Z.of_nat k < length_ s -> segments s !! k = Some x ->
         x = months_later ts (m * Z.of_nat k)
         /\ DateFromTime x = DateFromTime ts
         /\ TimeWithinDay x = TimeWithinDay ts
         /\ month_index x = month_index ts + m * Z.of_nat k.
Proof.
  intros Hs He Hts Hte Hlt Hu Hm Hd.
  destruct (DateRangeIntervals_Normal Date_parse vstart vend name u ts te)
    as (s & Hnormal & Hb); try done.
  exists s. split; [done|]. intros k x Hk Hx.
  destruct (built_lookup _ _ _ _ _ k Hb Hk) as (x' & Hx' & Hadv & _).
  rewrite Hx in Hx'. injection Hx' as <-.
  apply (advance_n_months u m) in Hadv; [|done..]. subst x.
  destruct (fields_months_later ts (m * Z.of_nat k) Hd) as (Hy & Hmo & Hdt & Hw).
  split_and!; [done..|].
  unfold month_index. rewrite Hy, Hmo.
  pose proof (Z.div_mod (MonthFromTime ts + m * Z.of_nat k) 12). lia.
Qed.

(** X10.  For a set by months, quarters or years whose start is on one of
    the first 28 days of a month, [isEquipartition] is true exactly when
    the end is on the same date of its month and at the same time of day as
    the start, a whole number of months, quarters or years later. *)
Theorem calendar_equipartition_iff vstart vend name u m ts te :
  ToBoolean vstart = true -> ToBoolean vend = true ->
  Date_new Date_parse vstart = Some ts -> Date_new Date_parse vend = Some te ->
  ts < te -> own_key name = Some u -> months_of u = Some m ->
  DateFromTime ts <= 28 ->
  exists s,
    DateRangeIntervals Date_parse vstart vend name = Normal s
    /\ (isEquipartition s = true <->
        DateFromTime te = DateFromTime ts
        /\ TimeWithinDay te = TimeWithinDay ts
        /\ (month_index te - month_index ts) mod m = 0).
Proof.
  intros Hs He Hts Hte Hlt Hu Hm Hd.
  destruct (DateRangeIntervals_Normal Date_parse vstart vend name u ts te)
    as (s & Hnormal & Hb); try done.
  pose proof (Date_new_range Date_parse _ _ Hts) as Hrts.
  pose proof (Date_new_range Date_parse _ _ Hte) as Hrte.
  assert (0 < m) as Hmpos
    by (destruct u; simpl in Hm; try discriminate Hm; injection Hm as <-; lia).
  exists s. split; [done|]. split.
  - intros Heq. pose proof Hb as (xs & _ & _ & _ & _ & Hflag & _).
    rewrite Hflag in Heq. apply strict_eq_true in Heq.
    apply (advance_n_months u m) in Heq; [|done..].
    destruct (fields_months_later ts (m * Z.of_nat (length xs)) Hd) as (Hy & Hmo & Hdt & Hw).
    rewrite <- Heq in Hy, Hmo, Hdt, Hw. split_and!; [done..|].
    unfold month_index. rewrite Hy, Hmo.
    pose proof (Z.div_mod (MonthFromTime ts + m * Z.of_nat (length xs)) 12).
    replace (12 * (YearFromTime ts
                   + (MonthFromTime ts + m * Z.of_nat (length xs)) / 12)
             + (MonthFromTime ts + m * Z.of_nat (length xs)) mod 12
             - (12 * YearFromTime ts + MonthFromTime ts))
      with (Z.of_nat (length xs) * m) by lia.
    apply Z_mod_mult.
  - intros (Hdt & Hw & Hmod).
    pose proof (instant_of_fields ts te Hdt Hw) as Hte'.
    apply Z.mod_divide in Hmod as [q Hq]; [|lia].
    assert (0 <= q) as Hq0.
    { destruct (decide (0 <= q)) as [|Hneg]; [done|]. exfalso.
      pose proof (instant_of_fields te ts (eq_sym Hdt) (eq_sym Hw)) as Hts'.
      assert (DateFromTime te <= 28) as Hd' by lia.
      pose proof (months_later_mono te 0 (Z.to_nat (month_index ts - month_index te))
                    Hd' ltac:(lia)) as Hmono.
      rewrite Z2Nat.id in Hmono by nia. simpl in Hmono.
      rewrite months_later_0, <- Hts' in Hmono. lia. }
    assert (advance_n u (Z.to_nat q) (Some ts) = Some te) as Hadv.
    { rewrite (advance_n_months_in_range u m) by
        (try done; rewrite Z2Nat.id by lia;
         replace (m * q) with (month_index te - month_index ts) by lia;
         by rewrite <- Hte').
      f_equal. rewrite Z2Nat.id by lia.
      replace (m * q) with (month_index te - month_index ts) by lia. done. }
    by destruct (built_exact _ _ _ _ _ _ Hb Hadv).
Qed.

(** X11.  An interval that is one whole unit long divides evenly at the next
    finer unit: the set built for the finer unit between an instant and the
    instant one advance later is an equipartition of 60 seconds, 60
    minutes, 24 hours, 7 days, as many days as the month has, 3 months or
    12 months.  For the quarter and the year this needs the instant to be
    on one of the first 28 days of its month. *)
Theorem whole_interval_divides_evenly name u lower t t' n :
  own_key name = Some u -> lowerInterval_of name = Some lower ->
  Z.abs t <= maxTime -> advance u t = Some t' ->
  (u = Quarter \/ u = Year -> DateFromTime t <= 28) ->
  parts_of u t = Some n ->
  exists child,
    DateRangeIntervals Date_parse (VDate (Some t)) (VDate (Some t')) lower = Normal child
    /\ isEquipartition child = true /\ length_ child = n.
Proof.
  intros Hu Hlower Ht Hadv Hdate Hparts.
  pose proof (advance_minStep u t t' Hadv) as Hstep.
  pose proof (minStep_pos u) as Hpos.
  pose proof (advance_n_range u 1 t t' Ht) as Ht'. simpl in Ht'. specialize (Ht' Hadv).
  destruct (lowerInterval_of_own _ _ Hlower) as [ul Hul].
  destruct (DateRangeIntervals_Normal Date_parse (VDate (Some t)) (VDate (Some t'))
              lower ul t t') as (child & Hchild & Hb); try done.
  { unfold Date_new. simpl. by apply TimeClip_in_range. }
  { unfold Date_new. simpl. by apply TimeClip_in_range. }
  { lia. }
  exists child. split; [done|].
  assert (0 <= n /\ advance_n ul (Z.to_nat n) (Some t) = Some t') as [Hn Hsteps].
  { apply own_key_inv in Hu. subst name.
    destruct u; simpl in Hlower; try discriminate Hlower; injection Hlower as <-;
      simpl in Hul; injection Hul as <-; simpl in Hparts; injection Hparts as <-.
    - split; [lia|]. rewrite advance_fixed in Hadv by done.
      apply TimeClip_Some in Hadv as [-> Hr].
      rewrite (advance_n_fixed_in_range Second) by (try done; simpl in *; lia).
      f_equal.
    - split; [lia|]. rewrite advance_fixed in Hadv by done.
      apply TimeClip_Some in Hadv as [-> Hr].
      rewrite (advance_n_fixed_in_range Minute) by (try done; simpl in *; lia).
      f_equal.
    - split; [lia|]. rewrite advance_fixed in Hadv by done.
      apply TimeClip_Some in Hadv as [-> Hr].
      rewrite (advance_n_fixed_in_range Hour) by (try done; simpl in *; lia).
      f_equal.
    - split; [lia|]. rewrite advance_fixed in Hadv by done.
      apply TimeClip_Some in Hadv as [-> Hr].
      rewrite (advance_n_fixed_in_range Day_) by (try done; simpl in *; lia).
      f_equal.
    - pose proof (DaysInMonth_range (MonthFromTime t) _
                    (InLeapYear_of_year_range (YearFromTime t))) as Hdim.
      fold (InLeapYear t) in Hdim. split; [lia|].
      rewrite advance_Month in Hadv. apply TimeClip_Some in Hadv as [-> Hr].
      rewrite (advance_n_fixed_in_range Day_); try done.
      + f_equal. simpl. lia.
      + simpl. by rewrite Z2Nat.id by lia.
    - split; [lia|]. specialize (Hdate (or_introl eq_refl)).
      rewrite (advance_months Quarter 3) in Hadv by done.
      apply TimeClip_Some in Hadv as [-> Hr].
      by rewrite (advance_n_months_in_range Month 1 3).
    - split; [lia|]. specialize (Hdate (or_intror eq_refl)).
      rewrite (advance_months Year 12) in Hadv by done.
      apply TimeClip_Some in Hadv as [-> Hr].
      by rewrite (advance_n_months_in_range Month 1 12). }
  destruct (built_exact _ _ _ _ _ _ Hb Hsteps) as [Heq Hlen].
  split; [done|]. lia.
Qed.

(** X12.  The two tables of the constructor are object literals, and an
    object literal answers for the names of the members of
    [Object.prototype] too.  With two valid dates in order, such a name
    passes the check of the unit: the construction does not throw the
    error about the unit and builds no set.  [constructor], [toString] and
    [isPrototypeOf] can be called and leave the cursor where it is, so that
    the loop does not end; calling any of the others throws a
    [TypeError]. *)
Theorem inherited_names_pass_the_unit_check vstart vend key ts te :
  key ∈ Object_prototype_keys ->
  ToBoolean vstart = true -> ToBoolean vend = true ->
  Date_new Date_parse vstart = Some ts -> Date_new Date_parse vend = Some te ->
  ts < te ->
  DateRangeIntervals Date_parse vstart vend key
  = (if inherited_call_returns key then Diverge
     else Throw (JSError "TypeError" "not callable without a receiver"))
  /\ (forall e, DateRangeIntervals Date_parse vstart vend key = Throw e ->
        ~ InvalidUnit key e /\ ~ InvalidInput e)
  /\ (forall s, DateRangeIntervals Date_parse vstart vend key <> Normal s).
Proof.
  intros Hkey Hs He Hts Hte Hlt.
  assert (advanceByInterval_entry key = Inherited key) as Hentry.
  { unfold Object_prototype_keys in Hkey.
    repeat (apply elem_of_cons in Hkey as [->|Hkey]; [reflexivity|]).
    by apply elem_of_nil in Hkey. }
  pose proof (inherited_unit_not_rejected Date_parse vstart vend key ts te
                Hentry Hs He Hts Hte Hlt) as Hr.
  split; [done|]. rewrite Hr. split.
  - intros e. destruct (inherited_call_returns key); [done|]. intros [= <-].
    unfold InvalidUnit, InvalidInput. split; [done|]. by intros [|[|[|]]].
  - intros s. by destruct (inherited_call_returns key).
Qed.

End ConstructorUnits.

(** ** More on the traversal *)

Lemma tiles_bounds a b ivs i iv :
  tiles a b ivs -> ivs !! i = Some iv ->
  exists s e, i_start iv = Some s /\ i_end iv = Some e /\ a <= s /\ s < e /\ e <= b.
Proof.
  intros Htiles Hi.
  assert (exists s e, i_start iv = Some s /\ i_end iv = Some e /\ s < e) as (s & e & Hs & He & Hse).
  { clear -Htiles Hi. revert a i Htiles Hi.
    induction ivs as [|iv0 rest IH]; intros a i Htiles Hi; [done|].
    destruct Htiles as (Hs0 & e & He & Hae & Hrest). destruct i as [|i]; simpl in Hi.
    - injection Hi as ->. by exists a, e.
    - by eapply IH. }
  exists s, e. split_and!; [done..| | |]; [|done|].
  - by eapply tiles_from.
  - assert (covers iv (e - 1)) as Hc by (exists s, e; split_and!; [done..|lia|lia]).
    pose proof (tiles_within _ _ _ _ _ _ Htiles Hi Hc). lia.
Qed.

Lemma lower_n_height (n : nat) name x :
  lower_n n name = Some x -> (n <= height name)%nat.
Proof.
  revert name. induction n as [|n IH]; intros name H; [lia|].
  simpl in H. destruct (lowerInterval_of name) as [l|] eqn:Hl; [|done]. simpl in H.
  apply IH in H. apply lowerInterval_of_height in Hl. lia.
Qed.

Lemma visitor_error_log_invalid d name a b err :
  a = None \/ b = None ->
  visitor_error_log d name a b err = Throw (JSError "RangeError" "Invalid time value").
Proof. unfold visitor_error_log. by destruct a, b; intros [?|?]. Qed.

Section TraversalMore.

Variable Date_parse : string -> tv.

Lemma DateRangeIntervals_invalid_date a b name :
  a = None \/ b = None ->
  exists e, DateRangeIntervals Date_parse (VDate a) (VDate b) name = Throw e.
Proof.
  intros H. unfold DateRangeIntervals. simpl.
  destruct (Date_new Date_parse (VDate a)) as [s|] eqn:Ha; [|by eexists].
  destruct (Date_new Date_parse (VDate b)) as [e|] eqn:Hb; [|by eexists].
  destruct H as [-> | ->]; done.
Qed.

Section Loops.

Context {St : Type}.
Variable visit : Callback St.

Implicit Types (v : VisitorFields St) (tr : list event) (exn : option thrown).

(** The units of the calls of a walk follow the chain of finer units. *)
Lemma walk_units prefix idx name cs c :
  preorder_walk Date_parse visit prefix idx name cs -> c ∈ cs ->
  exists n : nat,
    length c.1.1 = S (length prefix + n) /\ lower_n n name = Some (i_interval c.2).
Proof.
  intros Hwalk. revert c.
  induction Hwalk as [|prefix idx name d iv lower sub rest Hname Hsub _ IHsub _ IHrest];
    intros c Hc.
  - by apply elem_of_nil in Hc.
  - apply elem_of_cons in Hc as [->|Hc].
    + exists 0%nat. simpl. rewrite length_app, Hname. simpl. split; [lia|done].
    + apply elem_of_app in Hc as [Hc|Hc]; [|by apply IHrest].
      destruct Hsub as [Hlower _]; [by intros ->; apply elem_of_nil in Hc|].
      destruct (IHsub c Hc) as (n & Hlen & Hn). exists (S n). split.
      * rewrite Hlen, length_app. simpl. lia.
      * simpl. by rewrite Hlower.
Qed.

(** A traversal that never descends calls the intervals one by one. *)
Lemma accept_loop_flat
    (rec : list nat -> IntervalSet -> VisitorFields St -> option (@run St))
    prefix lower idx ivs v v' tr exn :
  (lower = None \/ asks_no_descent visit
   \/ (subIntervals v = false /\ keeps_subIntervals visit)) ->
  accept_loop Date_parse visit rec prefix lower idx ivs v = Some (v', tr, exn) ->
  (forall (j : nat) c, calls tr !! j = Some c ->
     c.1.1 = prefix ++ [idx + j]%nat /\ ivs !! j = Some c.2)
  /\ (exn = None -> length (calls tr) = length ivs).
Proof.
  revert idx v tr. induction ivs as [|iv rest IH]; intros idx v tr Hno H.
  - simpl in H. injection H as <- <- <-. by split.
  - apply accept_loop_cons_inv in H
      as [(x & _ & _ & -> & ->)|(msg & v1 & tr1 & exn1 & a & b & _ & Htry & Hnext)];
      [by split|].
    assert (v1 = r_fields (visit v iv) /\ tr1 = [Visit (prefix ++ [idx]) (depth v) iv])
      as [-> ->].
    { apply try_visit_inv in Htry as [_ [(-> & -> & _)|Hdesc]]; [done|].
      destruct Hdesc as (l & trd & Hl & Hout & Hsub & _).
      destruct Hno as [->|[Hno|[Hv Hkeep]]]; [done| |].
      - rewrite (Hno _ _ Hout) in Hsub. done.
      - rewrite (Hkeep v iv), Hv in Hsub. done. }
    assert (lower = None \/ asks_no_descent visit
            \/ (subIntervals (r_fields (visit v iv)) = false /\ keeps_subIntervals visit))
      as Hno1.
    { destruct Hno as [?|[?|[Hv Hkeep]]]; [by left|by right; left|].
      right. right. split; [|done]. by rewrite (Hkeep v iv). }
    destruct Hnext as [(logs & tr2 & Hlogs & Hrest & ->)|(err & x & _ & _ & _ & -> & ->)].
    + assert (calls logs = []) as Hnologs.
      { by destruct Hlogs as [[_ ->]|(? & ? & _ & _ & ->)]. }
      assert (calls (Log msg :: [Visit (prefix ++ [idx]) (depth v) iv] ++ logs ++ tr2)
              = (prefix ++ [idx], depth v, iv) :: calls tr2) as ->.
      { rewrite calls_log, calls_app, calls_app, Hnologs. done. }
      destruct (IH _ _ _ Hno1 Hrest) as [IHcalls IHlen]. split.
      * intros [|j] c Hc; simpl in Hc.
        -- injection Hc as <-. simpl. by rewrite Nat.add_0_r.
        -- destruct (IHcalls j c Hc) as [Hpath Hiv]. split; [|done].
           rewrite Hpath. do 2 f_equal. lia.
      * intros Hnone. simpl. f_equal. by apply IHlen.
    + split; [|done]. intros [|j] c Hc; simpl in Hc; [|done].
      injection Hc as <-. simpl. by rewrite Nat.add_0_r.
Qed.

(** With errors that have a readable [message] and dates that stay valid,
    the [catch] block always succeeds: nothing leaves the loop. *)
Lemma accept_loop_settles
    (rec : list nat -> IntervalSet -> VisitorFields St -> option (@run St))
    prefix lower idx ivs v v' tr exn :
  valid_dates_stay_valid visit -> throws_readable visit ->
  (forall l, lower = Some l -> exists u, own_key l = Some u) ->
  (forall l path child v2 v3 tr2 exn2,
     lower = Some l -> constructed l child ->
     rec path child v2 = Some (v3, tr2, exn2) -> exn2 = None) ->
  Forall (fun iv => is_Some (i_start iv) /\ is_Some (i_end iv)) ivs ->
  accept_loop Date_parse visit rec prefix lower idx ivs v = Some (v', tr, exn) ->
  exn = None.
Proof.
  intros Hvalid Hthrows Hown Hrec Hivs. revert idx v tr.
  induction Hivs as [|iv rest [Hs He] _ IH]; intros idx v tr H.
  - simpl in H. by injection H as <- <- <-.
  - apply accept_loop_cons_inv in H
      as [(x & Hx & _)|(msg & v1 & tr1 & exn1 & a & b & _ & Htry & Hnext)].
    { unfold visiting_log in Hx. destruct Hs as [s Hs], He as [e He].
      by rewrite Hs, He in Hx. }
    destruct Hnext as [(logs & tr2 & _ & Hrest & _)|(err & x & -> & Hlog & _)];
      [by eapply IH|].
    apply try_visit_inv in Htry as [[= -> ->] Hcases].
    destruct (Hvalid v iv Hs He) as [Ha Hb].
    assert (exists m, message_of err = Normal m) as [m Hread].
    { destruct Hcases as [(_ & _ & Hout)|(l & trd & Hl & _ & _ & Hd & _)].
      - destruct (r_outcome (visit v iv)) as [sub|e0] eqn:Hout'.
        + by destruct Hout.
        + injection Hout as <-. by eapply Hthrows.
      - apply descend_inv in Hd as [(child & v2 & tr2 & Hc & Hr & _)|(err' & Hc & _ & _ & Herr)].
        + apply (Hrec l) in Hr; [done..|]. by eapply constructed_of_Normal.
        + injection Herr as <-.
          apply DateRangeIntervals_throws_error in Hc as [m ->]; [by eexists|by apply Hown]. }
    destruct (visitor_error_log_Normal (depth v1) (i_interval iv) _ _ err m Ha Hb Hread)
      as (? & ? & _ & _ & Hm).
    by rewrite Hm in Hlog.
Qed.

Lemma accept_fuel_settles fuel prefix name s v v' tr exn :
  valid_dates_stay_valid visit -> throws_readable visit ->
  constructed name s ->
  accept_fuel Date_parse visit fuel prefix s v = Some (v', tr, exn) ->
  exn = None.
Proof.
  intros Hvalid Hthrows. revert prefix name s v v' tr exn.
  induction fuel as [|fuel IH]; intros prefix name s v v' tr exn Hs H; [done|].
  simpl in H. rewrite (constructed_lower _ _ Hs) in H.
  eapply accept_loop_settles in H; try done.
  - intros l. apply lowerInterval_of_own.
  - intros l path child v2 v3 tr2 exn2 _ Hchild Hr. by eapply IH.
  - apply iterate_dates_valid.
Qed.

(** The [catch] block itself throws when the callback has left one of the
    two dates invalid. *)
Lemma accept_loop_invalid_date
    (rec : list nat -> IntervalSet -> VisitorFields St -> option (@run St))
    prefix name idx iv rest v a b :
  i_start iv = Some a -> i_end iv = Some b ->
  r_start (visit v iv) = None \/ r_end (visit v iv) = None ->
  (exists e, r_outcome (visit v iv) = Raised e)
  \/ (r_outcome (visit v iv) = Returned true
      /\ subIntervals (r_fields (visit v iv)) = true
      /\ is_Some (lowerInterval_of name)) ->
  exists v' tr,
    accept_loop Date_parse visit rec prefix (lowerInterval_of name) idx (iv :: rest) v
    = Some (v', tr, Some (JSError "RangeError" "Invalid time value"))
    /\ calls tr = [(prefix ++ [idx], depth v, iv)].
Proof.
  intros Ha Hb Hinvalid Hcase. simpl. unfold visiting_log, try_visit.
  rewrite Ha, Hb. simpl.
  destruct Hcase as [[e Hout]|(Hout & Hsub & [l Hl])]; rewrite Hout.
  - rewrite visitor_error_log_invalid by done. by eexists _, _.
  - rewrite Hl, Hsub. simpl. unfold descend.
    destruct (DateRangeIntervals_invalid_date _ _ l Hinvalid) as [e ->].
    rewrite visitor_error_log_invalid by done. by eexists _, _.
Qed.

End Loops.

(** X13.  A traversal that never descends -- the unit is the second, which
    has no finer unit; or the callback never returns a truthy value with
    [subIntervals] set; or [subIntervals] is not set at the start and the
    callback does not write it -- calls the callback for the intervals of
    the set one by one, in order: call [j] is for interval [j].  It calls
    it for all of them when the promise is fulfilled, and for the first
    ones up to the one at which it stopped otherwise. *)
Theorem traversal_without_descent {St} (vis : Visitor St) vstart vend name s :
  DateRangeIntervals Date_parse vstart vend name = Normal s ->
  (lowerInterval_of name = None \/ asks_no_descent (visit vis)
   \/ (subIntervals (fields vis) = false /\ keeps_subIntervals (visit vis))) ->
  exists arg' tr p,
    accept Date_parse s (Instance vis) = Some (arg', tr, p)
    /\ (forall (j : nat) path d iv, calls tr !! j = Some (path, d, iv) ->
          path = [j] /\ iterate s !! j = Some iv)
    /\ (length (calls tr) <= length (iterate s))%nat
    /\ (p = Fulfilled -> length (calls tr) = length (iterate s)).
Proof.
  intros Hs Hno. apply constructed_of_Normal in Hs.
  destruct (accept_Instance Date_parse vis name s Hs) as (v' & tr & exn & Hfuel & Haccept).
  simpl in Hfuel. rewrite (constructed_lower _ _ Hs) in Hfuel.
  apply accept_loop_flat in Hfuel as [Hcalls Hlen]; [|done].
  eexists _, tr, _. split; [exact Haccept|].
  assert (forall (j : nat) path d iv, calls tr !! j = Some (path, d, iv) ->
            path = [j] /\ iterate s !! j = Some iv) as Hflat.
  { intros j path d iv Hj. destruct (Hcalls j _ Hj) as [Hp Hiv]. simpl in *. by subst path. }
  split_and!; [done| |].
  - destruct (decide (length (calls tr) = 0)%nat) as [Hz|Hne]; [lia|].
    destruct (lookup_lt_is_Some_2 (calls tr) (length (calls tr) - 1))
      as [[[path d] iv] Hc]; [lia|].
    destruct (Hflat _ _ _ _ Hc) as [_ Hiv]. apply lookup_lt_Some in Hiv. lia.
  - intros Hp. apply Hlen. by destruct exn.
Qed.

(** X14.  The unit of every visited interval is given by its level in the
    recursion: at the first level it is the unit of the set, at each level
    below it is the next finer unit of the one above.  No call is more than
    five levels below the first, which is where the chain from the quarter
    or the year to the second ends. *)
Theorem units_follow_the_levels {St} (vis : Visitor St) vstart vend name s :
  DateRangeIntervals Date_parse vstart vend name = Normal s ->
  exists arg' tr p,
    accept Date_parse s (Instance vis) = Some (arg', tr, p)
    /\ forall path d iv, (path, d, iv) ∈ calls tr ->
         exists n : nat,
           length path = S n
           /\ lower_n n name = Some (i_interval iv)
           /\ (n <= height name)%nat /\ (n <= 5)%nat.
Proof.
  intros Hs. apply constructed_of_Normal in Hs.
  destruct (accept_Instance Date_parse vis name s Hs) as (v' & tr & exn & Hfuel & Haccept).
  pose proof (accept_fuel_walk _ _ _ _ _ _ _ _ _ _ Hs Hfuel) as Hwalk.
  eexists _, tr, _. split; [exact Haccept|]. intros path d iv Hc.
  destruct (walk_units _ _ _ _ _ _ Hwalk Hc) as (n & Hlen & Hn). simpl in *.
  exists n. pose proof (lower_n_height _ _ _ Hn) as Hh. split_and!; [done..|].
  unfold height in Hh. repeat case_match; lia.
Qed.

(** X15.  With a callback that leaves the dates of its intervals as they
    are, every interval visited below the first level lies within the
    interval it subdivides, which was visited before it. *)
Theorem sub_intervals_lie_within {St} (vis : Visitor St) vstart vend name s :
  DateRangeIntervals Date_parse vstart vend name = Normal s ->
  leaves_dates (visit vis) ->
  exists arg' tr p,
    accept Date_parse s (Instance vis) = Some (arg', tr, p)
    /\ forall (j : nat) q k d iv,
         calls tr !! j = Some (q ++ [k], d, iv) -> q <> [] ->
         exists (i : nat) d' iv' a b a' b',
           (i < j)%nat /\ calls tr !! i = Some (q, d', iv')
           /\ i_start iv' = Some a' /\ i_end iv' = Some b'
           /\ i_start iv = Some a /\ i_end iv = Some b
           /\ a' <= a /\ a < b /\ b <= b'.
Proof.
  intros Hs Hleaves. apply constructed_of_Normal in Hs.
  destruct (accept_Instance Date_parse vis name s Hs) as (v' & tr & exn & Hfuel & Haccept).
  pose proof (accept_fuel_walk _ _ _ _ _ _ _ _ _ _ Hs Hfuel) as Hwalk.
  eexists _, tr, _. split; [exact Haccept|]. intros j q k d iv Hj Hq.
  destruct (walk_parent _ _ _ _ _ _ _ _ _ _ _ Hwalk Hj)
    as (i & d' & iv' & Hij & Hi & _ & v0 & child & Hchild & Hk).
  { destruct q; [done|]. simpl. lia. }
  destruct (Hleaves v0 iv') as [Hstart Hend]. rewrite Hstart, Hend in Hchild.
  apply constructed_tiles in Hchild as (Hcs & Hce & Htiles).
  destruct (tiles_bounds _ _ _ _ _ Htiles Hk) as (a & b & Ha & Hb & Hlo & Hab & Hhi).
  unfold Date_new in Hcs, Hce. simpl in Hcs, Hce.
  apply bind_Some in Hcs as (a' & Ha' & Hca). apply TimeClip_Some in Hca as [Hca _].
  apply bind_Some in Hce as (b' & Hb' & Hcb). apply TimeClip_Some in Hcb as [Hcb _].
  exists i, d', iv', a, b, a', b'. split_and!; try done; lia.
Qed.

(** X16.  Whatever the callback does to the visitor and to the dates of
    the intervals it is handed, every interval it is handed is well formed:
    its two dates are valid and its start is before its end.  At the first
    level the intervals are those of the set; below, they are those of a
    set that the constructor has accepted. *)
Theorem visited_intervals_are_well_formed {St} (vis : Visitor St) vstart vend name s :
  DateRangeIntervals Date_parse vstart vend name = Normal s ->
  exists arg' tr p,
    accept Date_parse s (Instance vis) = Some (arg', tr, p)
    /\ forall path d iv, (path, d, iv) ∈ calls tr ->
         exists a b, i_start iv = Some a /\ i_end iv = Some b /\ a < b.
Proof.
  intros Hs. pose proof (constructed_tiles Date_parse _ _ _ _ Hs) as (_ & _ & Htop).
  apply constructed_of_Normal in Hs.
  destruct (accept_Instance Date_parse vis name s Hs) as (v' & tr & exn & Hfuel & Haccept).
  pose proof (accept_fuel_walk _ _ _ _ _ _ _ _ _ _ Hs Hfuel) as Hwalk.
  destruct (accept_fuel_top _ _ _ _ _ _ _ _ _ Hfuel) as [Hfirst _].
  eexists _, tr, _. split; [exact Haccept|]. intros path d iv Hc.
  destruct (walk_paths _ _ _ _ _ _ _ Hwalk Hc) as (k0 & q0 & Hpath & _). simpl in Hpath.
  assert (exists q k, path = q ++ [k]) as (q & k & ->).
  { rewrite Hpath. destruct (q0) as [|x q0'] using rev_ind; [by exists [], k0|].
    exists (k0 :: q0'), x. done. }
  destruct q as [|k1 q].
  - destruct (Hfirst _ _ _ Hc eq_refl) as (k' & _ & Hiv).
    destruct (tiles_bounds _ _ _ _ _ Htop Hiv) as (a & b & Ha & Hb & _ & Hab & _).
    by exists a, b.
  - apply list_elem_of_lookup in Hc as [j Hj].
    destruct (walk_parent _ _ _ _ _ _ _ _ _ _ _ Hwalk Hj)
      as (i & d' & iv' & _ & _ & _ & v0 & child & Hchild & Hk); [simpl; lia|].
    apply constructed_tiles in Hchild as (_ & _ & Htiles).
    destruct (tiles_bounds _ _ _ _ _ Htiles Hk) as (a & b & Ha & Hb & _ & Hab & _).
    by exists a, b.
Qed.

(** X17.  An error of the callback does not stop the traversal, provided
    that the [catch] block can print it -- reading [message] of what is
    thrown and turning it into a string throws nothing, which holds of an
    [Error] with a string for its message, of a primitive other than
    [undefined] and [null], and of an object whose [message] is not there
    or turns into a string, and fails for [undefined], [null] and an object
    whose [message] is a [Symbol] or a getter that throws -- and that the
    callback leaves valid dates valid and [depth] an integer: the promise
    of [accept] is then fulfilled, and every interval of the set has been
    visited, whatever was thrown and wherever. *)
Theorem readable_errors_do_not_stop_the_traversal {St} (vis : Visitor St)
    vstart vend name s :
  DateRangeIntervals Date_parse vstart vend name = Normal s ->
  valid_dates_stay_valid (visit vis) -> throws_readable (visit vis) ->
  exists arg' tr,
    accept Date_parse s (Instance vis) = Some (arg', tr, Fulfilled)
    /\ forall k iv, iterate s !! k = Some iv -> exists d, ([k], d, iv) ∈ calls tr.
Proof.
  intros Hs Hvalid Hthrows. apply constructed_of_Normal in Hs.
  destruct (accept_Instance Date_parse vis name s Hs) as (v' & tr & exn & Hfuel & Haccept).
  pose proof (accept_fuel_settles _ _ _ _ _ _ _ _ _ Hvalid Hthrows Hs Hfuel) as ->.
  eexists _, tr. split; [exact Haccept|].
  destruct (accept_fuel_top _ _ _ _ _ _ _ _ _ Hfuel) as [_ Hall]. by apply Hall.
Qed.

(** Without the proviso the traversal does stop: an object whose [message]
    is a [Symbol] makes the [catch] block throw, and the promise is
    rejected after the first of the four days. *)
Lemma symbol_message_is_not_readable :
  throws_readable symbol_message_callback -> False.
Proof.
  intros H.
  destruct (H {| depth := 0; subIntervals := false; attached := tt |}
              (DateRangeInterval_new None None "day") _ eq_refl) as [m Hm].
  discriminate Hm.
Qed.

Lemma symbol_message_stops_the_traversal :
  accept Date_parse four_days (Instance symbol_message_visitor)
  = Some (Instance symbol_message_visitor,
          [Log (LogVisiting (utc 2024 1 1) (utc 2024 1 2));
           Visit [0%nat] 0
             (DateRangeInterval_new (Some (utc 2024 1 1)) (Some (utc 2024 1 2)) "day")],
          Rejected (JSError "TypeError" "Cannot convert a Symbol value to a string")).
Proof. by vm_compute. Qed.

(** X18.  When the callback leaves one of the two dates of the first
    interval invalid and something is thrown in the [try] block -- by the
    callback itself, or by the construction of the finer set, which an
    invalid date makes fail -- the [catch] block fails in its turn, at
    [toISOString]: the promise is rejected with a [RangeError] after this
    one call, and the other intervals are not visited. *)
Theorem invalidated_date_rejects {St} (vis : Visitor St) vstart vend name s iv0 :
  DateRangeIntervals Date_parse vstart vend name = Normal s ->
  iterate s !! 0%nat = Some iv0 ->
  r_start (visit vis (fields vis) iv0) = None
  \/ r_end (visit vis (fields vis) iv0) = None ->
  (exists e, r_outcome (visit vis (fields vis) iv0) = Raised e)
  \/ (r_outcome (visit vis (fields vis) iv0) = Returned true
      /\ subIntervals (r_fields (visit vis (fields vis) iv0)) = true
      /\ is_Some (lowerInterval_of name)) ->
  exists arg' tr,
    accept Date_parse s (Instance vis)
    = Some (arg', tr, Rejected (JSError "RangeError" "Invalid time value"))
    /\ calls tr = [([0%nat], depth (fields vis), iv0)].
Proof.
  intros Hs Hiv0 Hinvalid Hcase. apply constructed_of_Normal in Hs.
  destruct (iterate s) as [|iv rest] eqn:Hit; [done|]. simpl in Hiv0. injection Hiv0 as ->.
  pose proof (iterate_dates_valid s) as Hvalid. rewrite Hit in Hvalid.
  apply Forall_cons in Hvalid as [[[a Ha] [b Hb]] _].
  destruct (accept_loop_invalid_date (visit vis)
              (accept_fuel Date_parse (visit vis) (height (interval s)))
              [] name 0 iv0 rest (fields vis) a b Ha Hb Hinvalid Hcase)
    as (v' & tr & Hloop & Hcalls).
  unfold accept. simpl. rewrite (constructed_lower _ _ Hs), Hit, Hloop.
  by eexists _, _.
Qed.

End TraversalMore.

(** ** More on the dates as objects *)

Lemma iterate_from_drop segs name (i : nat) a b :
  segs !! i = Some a -> segs !! S i = Some b ->
  iterate_from (drop i segs) name
  = DateRangeInterval_new (Some a) (Some b) name :: iterate_from (drop (S i) segs) name.
Proof.
  intros Ha Hb.
  rewrite (drop_S segs a i Ha), (drop_S segs b (S i) Hb). done.
Qed.

Lemma iterate_from_drop_end segs name (i : nat) :
  segs !! S i = None -> iterate_from (drop i segs) name = [].
Proof.
  intros Hb. apply lookup_ge_None in Hb.
  destruct (segs !! i) as [a|] eqn:Ha.
  - rewrite (drop_S segs a i Ha), drop_ge by lia. done.
  - apply lookup_ge_None in Ha. by rewrite drop_ge by lia.
Qed.

(** The generator, run to its end on a store that it alone touches, yields
    the intervals between the boundaries as the store has them, and only
    adds the dates of these intervals to the store. *)
Lemma drain_spec o segs fuel (i : nat) (h : list tv) :
  Forall (fun l => (l < length h)%nat) (Heap.o_segments o) ->
  Heap.boundaries o h = Some <$> segs ->
  (length segs <= fuel + S i)%nat ->
  exists ext,
    Heap.drain fuel o i h
    = (iterate_from (drop i segs) (Heap.o_interval o), h ++ ext).
Proof.
  revert i h. induction fuel as [|fuel IH]; intros i h Hall Hb Hlen.
  - exists []. simpl. rewrite app_nil_r. f_equal. symmetry.
    apply iterate_from_drop_end. apply lookup_ge_None. lia.
  - simpl. unfold Heap.next, Heap.alloc.
    assert (forall j l, Heap.o_segments o !! j = Some l ->
              exists x, segs !! j = Some x /\ Heap.getTime h l = Some x) as Hseg.
    { intros j l Hl. apply (f_equal (fun x => x !! j)) in Hb.
      unfold Heap.boundaries in Hb. rewrite !list_lookup_fmap, Hl in Hb. simpl in Hb.
      destruct (segs !! j) as [x|]; simpl in Hb; [|done].
      injection Hb as Hb. by exists x. }
    assert (forall j, Heap.o_segments o !! j = None -> segs !! j = None) as Hnone.
    { intros j Hl. apply (f_equal (fun x => x !! j)) in Hb.
      unfold Heap.boundaries in Hb. rewrite !list_lookup_fmap, Hl in Hb. simpl in Hb.
      by destruct (segs !! j). }
    destruct (Heap.o_segments o !! i) as [a|] eqn:Ha.
    + destruct (Heap.o_segments o !! S i) as [b|] eqn:Hb'.
      * pose proof (Forall_lookup_1 _ _ _ _ Hall Ha) as Hla.
        pose proof (Forall_lookup_1 _ _ _ _ Hall Hb') as Hlb. simpl in Hla, Hlb.
        destruct (Hseg _ _ Ha) as (xa & Hsa & Hxa).
        destruct (Hseg _ _ Hb') as (xb & Hsb & Hxb).
        rewrite (getTime_app_l h [Heap.getTime h a] b Hlb), Hxa, Hxb. simpl.
        match goal with
        | |- context [Heap.drain fuel o (S i) ?st] => set (h2 := st)
        end.
        assert (Heap.getTime h2 (length h) = Some xa) as G1.
        { unfold h2. rewrite <- app_assoc. unfold Heap.getTime.
          by rewrite lookup_app_r, Nat.sub_diag by lia. }
        match goal with
        | |- context [Build_DateRangeInterval _ (Heap.getTime h2 ?l) _] =>
            assert (Heap.getTime h2 l = Some xb) as G2
        end.
        { unfold h2, Heap.getTime. by rewrite lookup_app_r, Nat.sub_diag by lia. }
        destruct (IH (S i) h2) as [ext Hext].
        { apply (Forall_impl _ _ _ Hall). intros l Hl. unfold h2.
          rewrite !length_app. simpl in *. lia. }
        { unfold h2. by rewrite <- app_assoc, boundaries_app. }
        { lia. }
        exists ([Some xa; Some xb] ++ ext).
        rewrite Hext, G1, G2. f_equal.
        -- by rewrite (iterate_from_drop segs _ i xa xb Hsa Hsb).
        -- unfold h2. by rewrite <- !app_assoc.
      * exists []. rewrite app_nil_r. f_equal. symmetry.
        apply iterate_from_drop_end. by apply Hnone.
    + exists []. rewrite app_nil_r. f_equal. symmetry.
      apply iterate_from_drop_end. apply Hnone.
      apply lookup_ge_None. apply lookup_ge_None in Ha. lia.
Qed.

Section ObjectsMore.

Variable Date_parse : string -> tv.

(** What the constructor on objects leaves, read off the constructor on
    time values. *)
Lemma heap_constructed vstart vend name (h : list tv) o h' :
  Heap.DateRangeIntervals Date_parse vstart vend name h = Normal (o, h') ->
  exists s,
    DateRangeIntervals Date_parse vstart vend name = Normal s
    /\ Heap.boundaries o h' = Some <$> segments s
    /\ Heap.start o h' = Some (start s)
    /\ Heap.end_ o h' = Some (end_ s)
    /\ Heap.o_interval o = interval s
    /\ Heap.o_length o = length_ s
    /\ (Heap.o_start o ∉ Heap.o_segments o)
    /\ (Heap.o_end o ∈ Heap.o_segments o)
    /\ Forall (fun l => (l < length h')%nat) (Heap.o_start o :: Heap.o_segments o).
Proof.
  intros Ho. pose proof (heap_constructor_refines Date_parse vstart vend name h) as H.
  destruct (DateRangeIntervals Date_parse vstart vend name) as [s| |]; [|congruence..].
  destruct H as (o0 & h0 & Ho0 & Hb & Hst & Hen & Hi & Hl & _ & _ & (copies & Hsegs & _)
                 & Hnotin & Hall).
  rewrite Ho in Ho0. injection Ho0 as <- <-.
  exists s. split_and!; try done.
  rewrite Hsegs. apply elem_of_app. right. by apply list_elem_of_singleton.
Qed.

(** X19.  An interval taken from the iterator holds two new dates with the
    time values of the two boundaries, and they are its own: setting the
    time of either changes no boundary of the set, nor what [start] and
    [end] of the set return. *)
Theorem yielded_interval_owns_its_dates vstart vend name (h : list tv) o h' i io h'' :
  Heap.DateRangeIntervals Date_parse vstart vend name h = Normal (o, h') ->
  Heap.next o i h' = Some (io, h'') ->
  Heap.boundaries o h' !! i = Some (Heap.getTime h'' (Heap.io_start io))
  /\ Heap.boundaries o h' !! S i = Some (Heap.getTime h'' (Heap.io_end io))
  /\ Heap.io_interval io = name
  /\ forall l t, l = Heap.io_start io \/ l = Heap.io_end io ->
       Heap.boundaries o (Heap.setTime l t h'') = Heap.boundaries o h'
       /\ Heap.start o (Heap.setTime l t h'') = Heap.start o h'
       /\ Heap.end_ o (Heap.setTime l t h'') = Heap.end_ o h'.
Proof.
  intros Ho Hnext.
  destruct (heap_constructed _ _ _ _ _ _ Ho)
    as (s & Hs & Hb & _ & _ & Hint & _ & _ & Hend & Hall).
  apply Forall_cons in Hall as [Hstart Hall].
  assert (Heap.o_end o < length h')%nat as Hendlt.
  { apply list_elem_of_lookup in Hend as [j Hj]. by eapply Forall_lookup_1 in Hall. }
  pose proof (next_allocates _ _ _ _ _ Hnext) as (a & b & Ha & Hb' & Hios & Hioe & Hh'').
  pose proof (Forall_lookup_1 _ _ _ _ Hall Ha) as Hla.
  pose proof (Forall_lookup_1 _ _ _ _ Hall Hb') as Hlb. simpl in Hla, Hlb.
  split_and!.
  - unfold Heap.boundaries. rewrite list_lookup_fmap, Ha. simpl. f_equal.
    rewrite Hios, Hh''. unfold Heap.getTime at 2.
    by rewrite lookup_app_r, Nat.sub_diag by lia.
  - unfold Heap.boundaries. rewrite list_lookup_fmap, Hb'. simpl. f_equal.
    rewrite Hioe, Hh''. unfold Heap.getTime at 2.
    rewrite lookup_app_r by lia. replace (S (length h') - length h')%nat with 1%nat by lia.
    simpl. by rewrite getTime_app_l.
  - unfold Heap.next, Heap.alloc in Hnext. rewrite Ha, Hb' in Hnext.
    injection Hnext as <- _. simpl. rewrite Hint.
    by apply constructed_of_Normal, constructed_interval in Hs.
  - intros l t Hl. split; [by eapply yielded_dates_are_copies|].
    assert (length h' <= l)%nat as Hge by (destruct Hl as [-> | ->]; lia).
    unfold Heap.start, Heap.end_.
    rewrite !getTime_setTime_ne by lia. rewrite Hh''.
    by rewrite !getTime_app_l.
Qed.

(** X20.  Iterating a set yields the intervals between its boundaries and
    leaves the boundaries as they are, so that iterating it again yields
    the same intervals. *)
Theorem iteration_is_repeatable vstart vend name (h : list tv) o h' :
  Heap.DateRangeIntervals Date_parse vstart vend name h = Normal (o, h') ->
  exists s,
    DateRangeIntervals Date_parse vstart vend name = Normal s
    /\ (Heap.iterate o h').1 = iterate s
    /\ Heap.boundaries o (Heap.iterate o h').2 = Heap.boundaries o h'
    /\ (Heap.iterate o (Heap.iterate o h').2).1 = iterate s
    /\ Z.of_nat (length (Heap.iterate o h').1) = Heap.o_length o.
Proof.
  intros Ho.
  destruct (heap_constructed _ _ _ _ _ _ Ho)
    as (s & Hs & Hb & _ & _ & Hint & Hlen & _ & _ & Hall).
  apply Forall_cons in Hall as [_ Hall].
  assert (length (Heap.o_segments o) = length (segments s)) as Hlen'.
  { apply (f_equal length) in Hb. unfold Heap.boundaries in Hb.
    by rewrite !length_fmap in Hb. }
  unfold Heap.iterate.
  destruct (drain_spec o (segments s) (length (Heap.o_segments o)) 0 h' Hall Hb)
    as [ext Hext]; [lia|].
  rewrite Hext. simpl.
  assert (Forall (fun l => (l < length (h' ++ ext))%nat) (Heap.o_segments o)) as Hall'.
  { apply (Forall_impl _ _ _ Hall). intros l Hl. rewrite length_app. simpl in *. lia. }
  assert (Heap.boundaries o (h' ++ ext) = Some <$> segments s) as Hb'
    by (by rewrite boundaries_app).
  destruct (drain_spec o (segments s) (length (Heap.o_segments o)) 0 (h' ++ ext) Hall' Hb')
    as [ext' Hext']; [lia|].
  rewrite Hext'. simpl. rewrite drop_0, Hint. exists s.
  split_and!; [done|done|by rewrite Hb', Hb|done|].
  fold (iterate s). rewrite Hlen.
  apply constructed_of_Normal in Hs as (u & ts & te & _ & Hbuilt).
  destruct (built_length _ _ _ _ _ Hbuilt) as [-> Hge].
  unfold iterate. rewrite iterate_from_length. lia.
Qed.

(** X21.  The date that [start] returns is an object of its own: it is no
    boundary.  Setting its time changes what [start] returns and nothing
    else -- the boundaries, what [end] returns and the intervals the
    iterator yields stay -- so that from then on [start] and the start of
    the first interval differ. *)
Theorem start_date_is_not_a_boundary vstart vend name (h : list tv) o h' t :
  Heap.DateRangeIntervals Date_parse vstart vend name h = Normal (o, h') ->
  let h1 := Heap.setTime (Heap.o_start o) t h' in
  Heap.start o h1 = t ≫= TimeClip
  /\ Heap.boundaries o h1 = Heap.boundaries o h'
  /\ Heap.end_ o h1 = Heap.end_ o h'
  /\ (Heap.iterate o h1).1 = (Heap.iterate o h').1
  /\ head (Heap.boundaries o h1) = Some (Heap.start o h').
Proof.
  intros Ho h1.
  destruct (heap_constructed _ _ _ _ _ _ Ho)
    as (s & Hs & Hb & Hst & _ & _ & _ & Hnotin & Hend & Hall).
  apply Forall_cons in Hall as [Hstart Hall].
  assert (Heap.boundaries o h1 = Heap.boundaries o h') as Hb1.
  { unfold Heap.boundaries. apply list_fmap_ext. intros j l Hl.
    apply getTime_setTime_ne. intros Heq. apply Hnotin. rewrite Heq.
    by eapply list_elem_of_lookup_2. }
  assert (Forall (fun l => (l < length h1)%nat) (Heap.o_segments o)) as Hall1.
  { unfold h1, Heap.setTime. by rewrite length_insert. }
  split_and!.
  - by apply getTime_insert_eq.
  - done.
  - unfold Heap.end_. apply getTime_setTime_ne. intros Heq. apply Hnotin.
    by rewrite Heq.
  - unfold Heap.iterate.
    destruct (drain_spec o (segments s) (length (Heap.o_segments o)) 0 h' Hall Hb)
      as [ext ->]; [|].
    { apply (f_equal length) in Hb. unfold Heap.boundaries in Hb.
      rewrite !length_fmap in Hb. lia. }
    rewrite <- Hb1 in Hb.
    destruct (drain_spec o (segments s) (length (Heap.o_segments o)) 0 h1 Hall1 Hb)
      as [ext' ->]; [|done].
    apply (f_equal length) in Hb. unfold Heap.boundaries in Hb.
    rewrite !length_fmap in Hb. lia.
  - rewrite Hb1, Hb, Hst.
    apply constructed_of_Normal in Hs as (u & ts & te & _ & Hbuilt).
    pose proof (built_first _ _ _ _ _ Hbuilt) as Hfirst.
    assert (start s = ts) as -> by (by destruct Hbuilt as (? & ? & ? & ? & ? & ? & ? & ? & ? & ?)).
    destruct (segments s) as [|x xs]; [done|]. simpl in *. by injection Hfirst as ->.
Qed.

(** X22.  The date that [end] returns is the object that closes the list
    of boundaries, in every set.  Setting its time to an instant [t']
    changes what [end] returns and the last boundary alike, and leaves the
    other boundaries: from then on the iterator yields the intervals
    between the old boundaries and [t'], whether or not [t'] comes after
    them, and [length] stays what it was. *)
Theorem end_date_is_a_boundary_object vstart vend name (h : list tv) o h' t t' :
  Heap.DateRangeIntervals Date_parse vstart vend name h = Normal (o, h') ->
  t ≫= TimeClip = Some t' ->
  let h1 := Heap.setTime (Heap.o_end o) t h' in
  exists s,
    DateRangeIntervals Date_parse vstart vend name = Normal s
    /\ Heap.end_ o h1 = Some t'
    /\ Heap.start o h1 = Heap.start o h'
    /\ Heap.boundaries o h' = Some <$> segments s
    /\ Heap.boundaries o h1 = Some <$> (removelast (segments s) ++ [t'])
    /\ (Heap.iterate o h1).1 = iterate_from (removelast (segments s) ++ [t']) name
    /\ Heap.o_length o = length_ s.
Proof.
  intros Ho Ht h1.
  pose proof (heap_constructor_refines Date_parse vstart vend name h) as H.
  destruct (DateRangeIntervals Date_parse vstart vend name) as [s| |] eqn:Hs; [|congruence..].
  destruct H as (o0 & h0 & Ho0 & Hb & Hst & Hen & Hi & Hl & _ & _
                 & (copies & Hsegs & Hnotin & Hcopies) & Hsnotin & Hall).
  rewrite Ho in Ho0. injection Ho0 as <- <-.
  apply Forall_cons in Hall as [Hstart Hall].
  assert (Heap.o_end o < length h')%nat as Hendlt.
  { rewrite Hsegs, Forall_app, Forall_singleton in Hall. by destruct Hall. }
  assert (Heap.getTime h1 (Heap.o_end o) = Some t') as Hget.
  { unfold h1, Heap.setTime. rewrite Ht. by apply getTime_insert_eq. }
  apply constructed_of_Normal in Hs as Hcons.
  destruct Hcons as (u & ts & te & _ & (xs & Hxs & _)).
  assert (Heap.boundaries o h1 = Some <$> (removelast (segments s) ++ [t'])) as Hb1.
  { rewrite Hxs, removelast_last. rewrite Hxs in Hb. unfold Heap.boundaries in *.
    rewrite Hsegs, !fmap_app in *. simpl in *. rewrite Hget.
    apply app_inj_tail in Hb as [Hb _]. f_equal. rewrite <- Hb.
    apply list_fmap_ext. intros j l Hj. apply getTime_setTime_ne. intros Heq.
    apply Hnotin. rewrite Heq. by eapply list_elem_of_lookup_2. }
  exists s. split_and!; try done.
  - unfold Heap.start. apply getTime_setTime_ne. intros Heq. apply Hsnotin.
    rewrite <- Heq, Hsegs. apply elem_of_app. right. by apply list_elem_of_singleton.
  - unfold Heap.iterate.
    destruct (drain_spec o (removelast (segments s) ++ [t'])
                (length (Heap.o_segments o)) 0 h1) as [ext ->]; [|done| |].
    + unfold h1, Heap.setTime. by rewrite length_insert.
    + apply (f_equal length) in Hb1. unfold Heap.boundaries in Hb1.
      rewrite !length_fmap in Hb1. lia.
    + simpl. rewrite drop_0, Hi.
      by rewrite (constructed_interval _ _ (constructed_of_Normal _ _ _ _ _ Hs)).
Qed.

End ObjectsMore.

(** ** More on the earlier variant *)

Section VariantMore.

Variable Date_parse : string -> tv.

(** What the earlier constructor builds has valid dates only: it logs them
    with [toISOString] before it defines the properties. *)
Lemma variant_constructed vstart vend name s :
  Variant.DateRangeIntervals Date_parse vstart vend name = Normal s ->
  exists xs ts te,
    Variant.segments s = (Some <$> xs) ++ [Some te]
    /\ Date_new Date_parse vstart = Some ts /\ Date_new Date_parse vend = Some te
    /\ Variant.startDate s = Some ts /\ Variant.endDate s = Some te
    /\ Variant.iStart s = None /\ Variant.iEnd s = None
    /\ Variant.interval s = name
    /\ Variant.lowerInterval s = lowerInterval_of name.
Proof.
  unfold Variant.DateRangeIntervals. intros H.
  destruct (advanceByInterval_entry name) as [u|key|]; [| |done].
  all: destruct (Date_new Date_parse vstart) as [ts|] eqn:Hts;
    destruct (Date_new Date_parse vend) as [te|] eqn:Hte; simpl in H.
  all: repeat match type of H with
              | match ?x with _ => _ end = _ => destruct x as [[[xs c]| |]|] eqn:?; simpl in H
              end; try done.
  all: try (injection H as <-; by exists xs, ts, te).
Qed.

(** X24.  The earlier constructor checks nothing about [start] and [end].
    A start that is not before the end gives a set with no interval, whose
    only boundary is the end; a start or end that is no instant makes the
    debug message fail at [toISOString], with a [RangeError]. *)
Theorem variant_checks_no_dates vstart vend name u :
  own_key name = Some u ->
  (forall ts te,
     Date_new Date_parse vstart = Some ts -> Date_new Date_parse vend = Some te ->
     te <= ts ->
     exists s,
       Variant.DateRangeIntervals Date_parse vstart vend name = Normal s
       /\ Variant.segments s = [Some te] /\ Variant.length_ s = 0
       /\ Variant.start s = Some ts /\ Variant.end_ s = Some te)
  /\ (Date_new Date_parse vstart = None \/ Date_new Date_parse vend = None ->
      Variant.DateRangeIntervals Date_parse vstart vend name
      = Throw (JSError "RangeError" "Invalid time value")).
Proof.
  intros Hu. split.
  - intros ts te Hts Hte Hle. unfold Variant.DateRangeIntervals.
    rewrite (advanceByInterval_entry_own _ _ Hu), Hts, Hte.
    assert (segments_loop (loop_fuel (Own u) ts te) (Own u) te (Some ts) []
            = Some (Normal ([], Some ts))) as ->.
    { destruct (loop_fuel (Own u) ts te); simpl;
        by rewrite (proj2 (Z.ltb_ge _ _) Hle). }
    simpl. eexists. split; [reflexivity|]. by split_and!.
  - intros Hnone. unfold Variant.DateRangeIntervals.
    rewrite (advanceByInterval_entry_own _ _ Hu).
    destruct (Date_new Date_parse vstart) as [ts|];
      destruct (Date_new Date_parse vend) as [te|]; try done.
    by destruct Hnone.
Qed.

(** X25.  Where the current constructor builds a set, the earlier one
    builds a set with the same boundaries, the same length, the same start
    and end and the same unit; only its flag is false where the other's may
    be true. *)
Theorem variant_builds_the_same_boundaries vstart vend name s :
  DateRangeIntervals Date_parse vstart vend name = Normal s ->
  exists s',
    Variant.DateRangeIntervals Date_parse vstart vend name = Normal s'
    /\ Variant.segments s' = Some <$> segments s
    /\ Variant.length_ s' = length_ s
    /\ Variant.start s' = Some (start s) /\ Variant.end_ s' = Some (end_ s)
    /\ Variant.interval s' = interval s
    /\ Variant.lowerInterval s' = lowerInterval s
    /\ Variant.isCongruentPartition s' = false.
Proof.
  intros Hs. pose proof Hs as Hinv.
  apply DateRangeIntervals_Normal_inv in Hinv
    as (u & ts & te & Htrue & Htrue' & Hts & Hte & Hlt & Hu & _).
  unfold DateRangeIntervals in Hs. unfold Variant.DateRangeIntervals.
  rewrite Htrue, Htrue', Hts, Hte in Hs. cbn [negb orb ge] in Hs.
  rewrite (proj2 (Z.leb_gt _ _) Hlt), (advanceByInterval_entry_own _ _ Hu) in Hs.
  rewrite Hts, Hte, (advanceByInterval_entry_own _ _ Hu).
  destruct (segments_loop (loop_fuel (Own u) ts te) (Own u) te (Some ts) [])
    as [[[segs cur]| |]|]; [|done..].
  injection Hs as <-. simpl. eexists. split; [reflexivity|]. simpl.
  unfold Variant.length_, Variant.start, Variant.end_. simpl.
  split_and!; try done.
  - by rewrite fmap_app.
  - by rewrite !length_app, length_fmap.
Qed.

(** X26.  The iterator of the earlier variant yields the boundaries
    themselves and points [start] and [end] of the set at them: while it
    stands on interval [i], [start] and [end] return boundaries [i] and
    [i + 1], and setting the time of the yielded end changes [end] and the
    start of the next interval that is yielded. *)
Theorem variant_yields_the_boundaries_themselves s (i : nat) s1 a b t :
  Variant.next s i = (s1, Some (a, b)) ->
  a = i /\ b = S i
  /\ Variant.start s1 = default None (Variant.segments s !! i)
  /\ Variant.end_ s1 = default None (Variant.segments s !! S i)
  /\ Variant.end_ (Variant.write s1 b t) = t
  /\ forall s3 y, Variant.next (Variant.write s1 b t) (S i) = (s3, Some y) ->
       Variant.start s3 = t.
Proof.
  unfold Variant.next. destruct (decide (S i < length (Variant.segments s))%nat) as [Hlt|];
    [|done].
  intros [= <- <- <-]. split_and!; try done.
  - unfold Variant.end_, Variant.write. simpl. by rewrite list_lookup_insert_eq.
  - intros s3 y. unfold Variant.write. simpl. rewrite length_insert.
    destruct (decide (S (S i) < length (Variant.segments s))%nat); [|done].
    intros [= <- _]. unfold Variant.start. simpl. by rewrite list_lookup_insert_eq.
Qed.

Lemma variant_accept_loop_raised {St} (visit : Callback St)
    (rec : list nat -> Variant.IntervalSet -> VisitorFields St -> option (@run St))
    prefix n i s v s1 a b msg e :
  Variant.next s i = (s1, Some (a, b)) ->
  visiting_log (Variant.start s1) (Variant.end_ s1) = Normal msg ->
  r_outcome (visit v {| i_start := Variant.start s1; i_end := Variant.end_ s1;
                        i_interval := Variant.interval s1 |}) = Raised e ->
  Variant.accept_loop Date_parse visit rec prefix (S n) i s v
  = Some (r_fields (visit v {| i_start := Variant.start s1; i_end := Variant.end_ s1;
                               i_interval := Variant.interval s1 |}),
          [Log msg;
           Visit (prefix ++ [i]) (depth v)
             {| i_start := Variant.start s1; i_end := Variant.end_ s1;
                i_interval := Variant.interval s1 |}],
          Some e).
Proof. intros Hnext Hlog Hout. simpl. by rewrite Hnext, Hlog, Hout. Qed.

(** X27.  In the earlier variant an error of the callback ends the
    traversal: with a callback that throws whenever it is called, the
    promise is rejected with what the first call threw, and no other
    interval is visited. *)
Theorem variant_stops_at_the_first_error {St} (vis : Visitor St) vstart vend name s :
  Variant.DateRangeIntervals Date_parse vstart vend name = Normal s ->
  1 <= Variant.length_ s ->
  (forall v iv, exists e, r_outcome (visit vis v iv) = Raised e) ->
  exists arg' tr e iv,
    Variant.accept Date_parse s (Instance vis) = Some (arg', tr, Rejected e)
    /\ calls tr = [([0%nat], depth (fields vis), iv)]
    /\ r_outcome (visit vis (fields vis) iv) = Raised e.
Proof.
  intros Hs Hlen Hthrows.
  apply variant_constructed in Hs
    as (xs & ts & te & Hsegs & _ & _ & Hsd & Hed & Hi & He & Hint & Hlow).
  unfold Variant.length_ in Hlen.
  assert (exists x y, Variant.segments s !! 0%nat = Some (Some x)
                      /\ Variant.segments s !! 1%nat = Some (Some y)) as (x & y & Hx & Hy).
  { rewrite Hsegs in *. rewrite length_app, length_fmap in Hlen. simpl in Hlen.
    destruct xs as [|x [|y xs]]; [simpl in Hlen; lia| |]; simpl; by eexists _, _. }
  assert (exists n, length (Variant.segments s) = S n /\ (1 < S n)%nat) as (n & Hn & Hn1).
  { exists (length (Variant.segments s) - 1)%nat. lia. }
  set (s1 := {| Variant.segments := Variant.segments s;
                Variant.lowerInterval := Variant.lowerInterval s;
                Variant.startDate := Variant.startDate s;
                Variant.endDate := Variant.endDate s;
                Variant.interval := Variant.interval s;
                Variant.isCongruentPartition := Variant.isCongruentPartition s;
                Variant.iStart := Some 0%nat; Variant.iEnd := Some 1%nat |}).
  assert (Variant.next s 0 = (s1, Some (0%nat, 1%nat))) as Hnext.
  { unfold Variant.next. rewrite Hn. by destruct (decide (1 < S n)%nat); [|lia]. }
  assert (Variant.start s1 = Some x /\ Variant.end_ s1 = Some y) as [Hstart Hend].
  { unfold Variant.start, Variant.end_. simpl. by rewrite Hx, Hy. }
  set (iv := {| i_start := Variant.start s1; i_end := Variant.end_ s1;
                i_interval := Variant.interval s1 |}).
  destruct (Hthrows (fields vis) iv) as [e Hout].
  exists (Instance {| visit := visit vis; fields := r_fields (visit vis (fields vis) iv) |}),
    [Log (LogVisiting x y); Visit [0%nat] (depth (fields vis)) iv], e, iv.
  split_and!; [|done..].
  unfold Variant.accept. cbn [Variant.accept_fuel]. rewrite Hn.
  rewrite (variant_accept_loop_raised (visit vis) _ [] n 0 s (fields vis) s1 0%nat 1%nat
             (LogVisiting x y) e Hnext); [done| |done].
  unfold visiting_log. by rewrite Hstart, Hend.
Qed.

End VariantMore.

(** *** The flag of the earlier variant *)

Section VariantObjects.

Variable Date_parse : string -> tv.

(** The loop on objects stops at once on a date that is no instant. *)
Lemma heap_segments_loop_invalid fuel e endDate curDate segs (h : list tv) :
  Heap.getTime h curDate = None \/ Heap.getTime h endDate = None ->
  Heap.segments_loop fuel e endDate curDate segs h = Some (Normal (segs, h)).
Proof.
  intros H. destruct fuel; simpl.
  all: destruct (Heap.getTime h curDate), (Heap.getTime h endDate); try done.
  all: by destruct H.
Qed.

Local Arguments segments_loop : simpl never.
Local Arguments Heap.segments_loop : simpl never.

(** The earlier constructor on objects refines the one on time values: it
    ends the same way, and when it builds a set, the dates of that set hold
    the time values of the other and the flag is the same. *)
Lemma variant_objects_refine vstart vend name (h : list tv) :
  match Variant.DateRangeIntervals Date_parse vstart vend name with
  | Normal s =>
      exists o h',
        Variant.DateRangeIntervals_objects Date_parse vstart vend name h = Normal (o, h')
        /\ Heap.getTime h' <$> Variant.o_segments o = Variant.segments s
        /\ Heap.getTime h' (Variant.o_startDate o) = Variant.startDate s
        /\ Heap.getTime h' (Variant.o_endDate o) = Variant.endDate s
        /\ Variant.o_interval o = Variant.interval s
        /\ Variant.o_lowerInterval o = Variant.lowerInterval s
        /\ Variant.o_isCongruentPartition o = Variant.isCongruentPartition s
  | Throw e =>
      Variant.DateRangeIntervals_objects Date_parse vstart vend name h = Throw e
  | Diverge =>
      Variant.DateRangeIntervals_objects Date_parse vstart vend name h = Diverge
  end.
Proof.
  unfold Variant.DateRangeIntervals, Variant.DateRangeIntervals_objects, Heap.alloc.
  set (h3 := (h ++ [Date_new Date_parse vstart]) ++ [Date_new Date_parse vend]).
  rewrite !length_app. simpl.
  assert (length h3 = S (S (length h))) as Hlen3.
  { unfold h3. rewrite !length_app. simpl. lia. }
  assert (Heap.getTime (h3 ++ [Date_new Date_parse vstart]) (length h)
          = Date_new Date_parse vstart) as Hgs.
  { unfold Heap.getTime, h3. rewrite <- !app_assoc.
    by rewrite lookup_app_r, Nat.sub_diag by lia. }
  assert (Heap.getTime (h3 ++ [Date_new Date_parse vstart]) (length h + 1)
          = Date_new Date_parse vend) as Hge.
  { unfold Heap.getTime, h3. rewrite <- !app_assoc. rewrite lookup_app_r by lia.
    by replace (length h + 1 - length h)%nat with 1%nat by lia. }
  assert (Heap.getTime (h3 ++ [Date_new Date_parse vstart]) (length h3)
          = Date_new Date_parse vstart) as Hgc.
  { unfold Heap.getTime. by rewrite lookup_app_r, Nat.sub_diag by lia. }
  assert (same_flag : Variant.same_object (length h3) (length h + 1) = false).
  { unfold Variant.same_object. apply Nat.eqb_neq. lia. }
  rewrite Hgs, Hge.
  destruct (advanceByInterval_entry name) as [u|key|] eqn:Hentry; [| |done].
  all: destruct (Date_new Date_parse vstart) as [ts|] eqn:Hts;
    destruct (Date_new Date_parse vend) as [te|] eqn:Hte.
  all: try (rewrite heap_segments_loop_invalid by (rewrite Hgc, Hge; tauto);
            simpl; rewrite Hgs, Hge; done).
  all: rewrite (heap_segments_loop _ _ _ _ _ _ te);
    [|lia|rewrite length_app; simpl; lia|rewrite length_app; simpl; lia|done].
  all: rewrite Hgc.
  all: destruct (segments_loop _ _ te (Some ts) []) as [[[xs c]| |]|]; [|done..].
  all: simpl.
  all: eexists _, _.
  all: match goal with
       | |- context [Normal (_, ?hh)] =>
           assert (Heap.getTime hh (length h + 1) = Some te) as Hend
             by (rewrite getTime_insert_ne by lia; rewrite getTime_app_l
                   by (rewrite length_app; simpl; lia); done);
           assert (Heap.getTime hh (length h) = Some ts) as Hstart
             by (rewrite getTime_insert_ne by lia; rewrite getTime_app_l
                   by (rewrite length_app; simpl; lia); done);
           rewrite Hstart, Hend
       end.
  all: simpl; split; [reflexivity|]; simpl.
  all: split_and!; try done.
  all: rewrite fmap_app; simpl; rewrite Hend; f_equal.
  all: apply copies_read_back; rewrite length_app; simpl; lia.
Qed.

(** X23.  The flag of the earlier variant compares the cursor and the end
    as objects, with [==].  The constructor makes them with two calls of
    [new Date], so that they are two objects whatever the store holds
    before: the flag is false for every set, also when the two dates hold
    the same instant.  The set is otherwise the one that the constructor on
    time values builds. *)
Theorem variant_flag_is_never_true vstart vend name (h : list tv) o h' :
  Variant.DateRangeIntervals_objects Date_parse vstart vend name h = Normal (o, h') ->
  Variant.o_isCongruentPartition o = false
  /\ exists s,
       Variant.DateRangeIntervals Date_parse vstart vend name = Normal s
       /\ Heap.getTime h' <$> Variant.o_segments o = Variant.segments s
       /\ Variant.isCongruentPartition s = Variant.o_isCongruentPartition o.
Proof.
  intros H. split.
  - revert H. unfold Variant.DateRangeIntervals_objects, Heap.alloc.
    cbv beta iota zeta. intros H.
    assert (Variant.same_object
              (length ((h ++ [Date_new Date_parse vstart]) ++ [Date_new Date_parse vend]))
              (length (h ++ [Date_new Date_parse vstart])) = false) as Hflag.
    { unfold Variant.same_object. apply Nat.eqb_neq. rewrite !length_app. simpl. lia. }
    repeat case_match; try done.
    all: by injection H as <- <-.
  - pose proof (variant_objects_refine vstart vend name h) as Href.
    destruct (Variant.DateRangeIntervals Date_parse vstart vend name) as [s| |];
      [|by rewrite H in Href..].
    destruct Href as (o' & h'' & Ho & Hsegs & _ & _ & _ & _ & Hflag).
    rewrite H in Ho. injection Ho as <- <-. by exists s.
Qed.

End VariantObjects.

(** ** The further properties at concrete inputs *)

(** From the 31st of January 2024 a month leads to the 2nd of March. *)
Lemma month_advance_fields_witness :
  advance Month (utc 2024 1 31) = Some (utc 2024 3 2)
  /\ month_index (utc 2024 3 2) = month_index (utc 2024 1 31) + 2.
Proof.
  assert (advance Month (utc 2024 1 31) = Some (utc 2024 3 2)) as H
    by (vm_compute; reflexivity).
  split; [exact H|].
  destruct (month_advance_fields (utc 2024 1 31) (utc 2024 3 2) H) as (_ & _ & Hover).
  destruct Hover as [Hidx _]; [vm_compute; reflexivity|exact Hidx].
Defined.

(** The first four days of 2024, by days. *)
Lemma fixed_unit_boundaries_witness :
  exists s,
    DateRangeIntervals no_parse (VDate (Some (utc 2024 1 1)))
      (VDate (Some (utc 2024 1 5))) "day" = Normal s
    /\ length_ s = (utc 2024 1 5 - utc 2024 1 1 + minStep Day_ - 1) / minStep Day_
    /\ forall k : nat, Z.of_nat k < length_ s ->
         segments s !! k = Some (utc 2024 1 1 + Z.of_nat k * minStep Day_).
Proof.
  destruct (fixed_unit_boundaries no_parse (VDate (Some (utc 2024 1 1)))
              (VDate (Some (utc 2024 1 5))) "day" Day_ (utc 2024 1 1) (utc 2024 1 5))
    as (s & Hs & Hlen & Hsegs & _);
    [reflexivity|reflexivity|reflexivity|reflexivity|vm_compute; reflexivity
    |reflexivity|reflexivity|].
  exists s. split; [assumption|]. split; assumption.
Defined.

Lemma equipartition_means_equal_lengths_witness :
  exists s,
    DateRangeIntervals no_parse (VDate (Some (utc 2024 1 1)))
      (VDate (Some (utc 2024 1 5))) "day" = Normal s
    /\ (isEquipartition s = true <->
        forall (k : nat) iv a b, iterate s !! k = Some iv ->
          i_start iv = Some a -> i_end iv = Some b -> b - a = minStep Day_).
Proof.
  exact (equipartition_means_equal_lengths no_parse (VDate (Some (utc 2024 1 1)))
           (VDate (Some (utc 2024 1 5))) "day" Day_ (utc 2024 1 1) (utc 2024 1 5)
           eq_refl eq_refl eq_refl eq_refl eq_refl eq_refl eq_refl).
Defined.

Lemma boundaries_keep_the_phase_witness :
  exists s,
    DateRangeIntervals no_parse (VDate (Some (utc 2024 1 1)))
      (VDate (Some (utc 2025 1 1))) "quarter" = Normal s
    /\ forall (k : nat) x, Z.of_nat k < length_ s -> segments s !! k = Some x ->
         phase Quarter x = phase Quarter (utc 2024 1 1).
Proof.
  destruct (boundaries_keep_the_phase no_parse (VDate (Some (utc 2024 1 1)))
              (VDate (Some (utc 2025 1 1))) "quarter" Quarter (utc 2024 1 1) (utc 2025 1 1))
    as (s & Hs & Hph);
    [reflexivity|reflexivity|reflexivity|reflexivity|vm_compute; reflexivity|reflexivity|].
  exists s. split; [assumption|]. intros k x Hk Hx. exact (proj1 (Hph k x Hk Hx)).
Defined.

(** The year 2024, by quarters: 91, 91, 92 and 92 days. *)
Lemma intervals_span_whole_days_witness :
  exists s,
    DateRangeIntervals no_parse (VDate (Some (utc 2024 1 1)))
      (VDate (Some (utc 2025 1 1))) "quarter" = Normal s
    /\ forall (k : nat) iv, iterate s !! k = Some iv ->
         exists a b,
           i_start iv = Some a /\ i_end iv = Some b /\ 0 < b - a <= 92 * msPerDay.
Proof.
  destruct (intervals_span_whole_days no_parse (VDate (Some (utc 2024 1 1)))
              (VDate (Some (utc 2025 1 1))) "quarter" Quarter 89 92
              (utc 2024 1 1) (utc 2025 1 1))
    as (s & Hs & Hspan);
    [reflexivity|reflexivity|reflexivity|reflexivity|vm_compute; reflexivity
    |reflexivity|reflexivity|].
  exists s. split; [assumption|]. intros k iv Hiv.
  destruct (Hspan k iv Hiv) as (a & b & Ha & Hb & Hab & _).
  exists a, b. split; [assumption|]. split; assumption.
Defined.

Lemma length_is_bounded_by_the_days_witness :
  exists s,
    DateRangeIntervals no_parse (VDate (Some (utc 2024 1 1)))
      (VDate (Some (utc 2025 1 1))) "quarter" = Normal s
    /\ (length_ s - 1) * 89 * msPerDay < utc 2025 1 1 - utc 2024 1 1
    /\ utc 2025 1 1 - utc 2024 1 1 <= length_ s * 92 * msPerDay.
Proof.
  exact (length_is_bounded_by_the_days no_parse (VDate (Some (utc 2024 1 1)))
           (VDate (Some (utc 2025 1 1))) "quarter" Quarter 89 92
           (utc 2024 1 1) (utc 2025 1 1)
           eq_refl eq_refl eq_refl eq_refl eq_refl eq_refl eq_refl).
Defined.

Lemma calendar_boundaries_keep_the_date_witness :
  exists s,
    DateRangeIntervals no_parse (VDate (Some (utc 2024 1 1)))
      (VDate (Some (utc 2025 1 1))) "quarter" = Normal s
    /\ forall (k : nat) x, Z.of_nat k < length_ s -> segments s !! k = Some x ->
         DateFromTime x = DateFromTime (utc 2024 1 1)
         /\ month_index x = month_index (utc 2024 1 1) + 3 * Z.of_nat k.
Proof.
  destruct (calendar_boundaries_keep_the_date no_parse (VDate (Some (utc 2024 1 1)))
              (VDate (Some (utc 2025 1 1))) "quarter" Quarter 3
              (utc 2024 1 1) (utc 2025 1 1))
    as (s & Hs & Hdate);
    [reflexivity|reflexivity|reflexivity|reflexivity|vm_compute; reflexivity
    |reflexivity|reflexivity|vm_compute; discriminate|].
  exists s. split; [assumption|]. intros k x Hk Hx.
  destruct (Hdate k x Hk Hx) as (_ & Hd & _ & Hm). split; assumption.
Defined.

Lemma calendar_equipartition_iff_witness :
  exists s,
    DateRangeIntervals no_parse (VDate (Some (utc 2024 1 1)))
      (VDate (Some (utc 2025 1 1))) "quarter" = Normal s
    /\ (isEquipartition s = true <->
        DateFromTime (utc 2025 1 1) = DateFromTime (utc 2024 1 1)
        /\ TimeWithinDay (utc 2025 1 1) = TimeWithinDay (utc 2024 1 1)
        /\ (month_index (utc 2025 1 1) - month_index (utc 2024 1 1)) mod 3 = 0).
Proof.
  apply (calendar_equipartition_iff no_parse (VDate (Some (utc 2024 1 1)))
           (VDate (Some (utc 2025 1 1))) "quarter" Quarter 3
           (utc 2024 1 1) (utc 2025 1 1));
    [reflexivity|reflexivity|reflexivity|reflexivity|vm_compute; reflexivity
    |reflexivity|reflexivity|vm_compute; discriminate].
Defined.

(** The first day of 2024 has 24 hours. *)
Lemma whole_interval_divides_evenly_witness :
  exists child,
    DateRangeIntervals no_parse (VDate (Some (utc 2024 1 1)))
      (VDate (Some (utc 2024 1 2))) "hour" = Normal child
    /\ isEquipartition child = true /\ length_ child = 24.
Proof.
  apply (whole_interval_divides_evenly no_parse "day" Day_ "hour"
           (utc 2024 1 1) (utc 2024 1 2) 24);
    [reflexivity|reflexivity|vm_compute; discriminate|vm_compute; reflexivity
    |intros [H|H]; discriminate H|reflexivity].
Defined.

(** The unit [toString]. *)
Lemma inherited_names_pass_the_unit_check_witness :
  DateRangeIntervals no_parse (VDate (Some (utc 2024 1 1)))
    (VDate (Some (utc 2024 1 5))) "toString" = Diverge.
Proof.
  destruct (inherited_names_pass_the_unit_check no_parse (VDate (Some (utc 2024 1 1)))
              (VDate (Some (utc 2024 1 5))) "toString" (utc 2024 1 1) (utc 2024 1 5))
    as (H & _);
    [apply (list_elem_of_lookup_2 _ 1%nat); reflexivity
    |reflexivity|reflexivity|reflexivity|reflexivity|vm_compute; reflexivity|].
  exact H.
Defined.

(** Four days and a callback that throws an [Error] at each. *)
Lemma traversal_without_descent_witness :
  exists arg' tr p,
    accept no_parse four_days (Instance failing_visitor) = Some (arg', tr, p)
    /\ (length (calls tr) <= length (iterate four_days))%nat.
Proof.
  destruct (traversal_without_descent no_parse failing_visitor
              (VDate (Some (utc 2024 1 1))) (VDate (Some (utc 2024 1 5))) "day" four_days)
    as (arg' & tr & p & Hacc & _ & Hle & _).
  - vm_compute; reflexivity.
  - right. right. split; [reflexivity|]. intros v iv. reflexivity.
  - exists arg', tr, p. split; assumption.
Defined.

Lemma failing_callback_keeps_dates : valid_dates_stay_valid failing_callback.
Proof. intros v iv Hs He. split; assumption. Defined.

Lemma failing_callback_throws_errors : throws_readable failing_callback.
Proof.
  intros v iv e H. simpl in H. injection H as H. rewrite <- H.
  eexists. reflexivity.
Defined.

Lemma readable_errors_do_not_stop_the_traversal_witness :
  exists arg' tr,
    accept no_parse four_days (Instance failing_visitor) = Some (arg', tr, Fulfilled)
    /\ forall k iv, iterate four_days !! k = Some iv -> exists d, ([k], d, iv) ∈ calls tr.
Proof.
  apply (readable_errors_do_not_stop_the_traversal no_parse failing_visitor
           (VDate (Some (utc 2024 1 1))) (VDate (Some (utc 2024 1 5))) "day" four_days).
  - vm_compute; reflexivity.
  - exact failing_callback_keeps_dates.
  - exact failing_callback_throws_errors.
Defined.

(** The scenario of the test of the subintervals. *)
Lemma units_follow_the_levels_witness :
  exists arg' tr p,
    accept no_parse year_2024_by_quarter (Instance recording_visitor) = Some (arg', tr, p)
    /\ forall path d iv, (path, d, iv) ∈ calls tr ->
         exists n : nat,
           length path = S n /\ lower_n n "quarter" = Some (i_interval iv).
Proof.
  destruct (units_follow_the_levels no_parse recording_visitor
              (VDate (Some (utc 2024 1 1))) (VDate (Some (utc 2025 1 1))) "quarter"
              year_2024_by_quarter)
    as (arg' & tr & p & Hacc & Hunits); [vm_compute; reflexivity|].
  exists arg', tr, p. split; [assumption|]. intros path d iv Hc.
  destruct (Hunits path d iv Hc) as (n & Hlen & Hn & _). exists n. split; assumption.
Defined.

Lemma recording_callback_leaves_dates : leaves_dates recording_callback.
Proof.
  intros v iv. unfold recording_callback. destruct (1 <? depth v); split; reflexivity.
Defined.

Lemma sub_intervals_lie_within_witness :
  exists arg' tr p,
    accept no_parse year_2024_by_quarter (Instance recording_visitor) = Some (arg', tr, p)
    /\ forall (j : nat) q k d iv,
         calls tr !! j = Some (q ++ [k], d, iv) -> q <> [] ->
         exists (i : nat) d' iv' a b a' b',
           (i < j)%nat /\ calls tr !! i = Some (q, d', iv')
           /\ i_start iv' = Some a' /\ i_end iv' = Some b'
           /\ i_start iv = Some a /\ i_end iv = Some b
           /\ a' <= a /\ a < b /\ b <= b'.
Proof.
  apply (sub_intervals_lie_within no_parse recording_visitor
           (VDate (Some (utc 2024 1 1))) (VDate (Some (utc 2025 1 1))) "quarter"
           year_2024_by_quarter).
  - vm_compute; reflexivity.
  - exact recording_callback_leaves_dates.
Defined.

Lemma visited_intervals_are_well_formed_witness :
  exists arg' tr p,
    accept no_parse year_2024_by_quarter (Instance recording_visitor) = Some (arg', tr, p)
    /\ forall path d iv, (path, d, iv) ∈ calls tr ->
         exists a b, i_start iv = Some a /\ i_end iv = Some b /\ a < b.
Proof.
  apply (visited_intervals_are_well_formed no_parse recording_visitor
           (VDate (Some (utc 2024 1 1))) (VDate (Some (utc 2025 1 1))) "quarter"
           year_2024_by_quarter).
  vm_compute; reflexivity.
Defined.

(** Four days and a callback that makes the start of its interval invalid
    and throws. *)
Lemma invalidated_date_rejects_witness :
  exists arg' tr,
    accept no_parse four_days (Instance invalidating_visitor)
    = Some (arg', tr, Rejected (JSError "RangeError" "Invalid time value"))
    /\ calls tr
       = [([0%nat], 0,
           DateRangeInterval_new (Some (utc 2024 1 1)) (Some (utc 2024 1 2)) "day")].
Proof.
  apply (invalidated_date_rejects no_parse invalidating_visitor
           (VDate (Some (utc 2024 1 1))) (VDate (Some (utc 2024 1 5))) "day" four_days
           (DateRangeInterval_new (Some (utc 2024 1 1)) (Some (utc 2024 1 2)) "day")).
  - vm_compute; reflexivity.
  - reflexivity.
  - left. reflexivity.
  - left. eexists. reflexivity.
Defined.

(** The object of the four days, and its first interval. *)
Lemma yielded_interval_owns_its_dates_witness :
  Heap.next four_days_object 0 four_days_store
  = Some ({| Heap.io_start := 7%nat; Heap.io_end := 8%nat; Heap.io_interval := "day" |},
          four_days_store ++ [Some (utc 2024 1 1); Some (utc 2024 1 2)])
  /\ forall t,
       Heap.boundaries four_days_object
         (Heap.setTime 7%nat t
            (four_days_store ++ [Some (utc 2024 1 1); Some (utc 2024 1 2)]))
       = Heap.boundaries four_days_object four_days_store.
Proof.
  assert (Heap.next four_days_object 0 four_days_store
          = Some ({| Heap.io_start := 7%nat; Heap.io_end := 8%nat;
                     Heap.io_interval := "day" |},
                  four_days_store ++ [Some (utc 2024 1 1); Some (utc 2024 1 2)])) as Hnext
    by (vm_compute; reflexivity).
  split; [exact Hnext|]. intros t.
  destruct (yielded_interval_owns_its_dates no_parse (VDate (Some (utc 2024 1 1)))
              (VDate (Some (utc 2024 1 5))) "day" [] four_days_object four_days_store
              0%nat
              {| Heap.io_start := 7%nat; Heap.io_end := 8%nat; Heap.io_interval := "day" |}
              (four_days_store ++ [Some (utc 2024 1 1); Some (utc 2024 1 2)]))
    as (_ & _ & _ & Hown);
    [vm_compute; reflexivity|exact Hnext|].
  destruct (Hown 7%nat t) as [Hb _]; [left; reflexivity|exact Hb].
Defined.

Lemma iteration_is_repeatable_witness :
  exists s,
    DateRangeIntervals no_parse (VDate (Some (utc 2024 1 1)))
      (VDate (Some (utc 2024 1 5))) "day" = Normal s
    /\ (Heap.iterate four_days_object four_days_store).1 = iterate s
    /\ (Heap.iterate four_days_object
          (Heap.iterate four_days_object four_days_store).2).1 = iterate s.
Proof.
  destruct (iteration_is_repeatable no_parse (VDate (Some (utc 2024 1 1)))
              (VDate (Some (utc 2024 1 5))) "day" [] four_days_object four_days_store)
    as (s & Hs & H1 & _ & H2 & _); [vm_compute; reflexivity|].
  exists s. split; [assumption|]. split; assumption.
Defined.

Lemma start_date_is_not_a_boundary_witness :
  Heap.start four_days_object
    (Heap.setTime (Heap.o_start four_days_object) (Some 0) four_days_store) = Some 0
  /\ Heap.boundaries four_days_object
       (Heap.setTime (Heap.o_start four_days_object) (Some 0) four_days_store)
     = Heap.boundaries four_days_object four_days_store.
Proof.
  destruct (start_date_is_not_a_boundary no_parse (VDate (Some (utc 2024 1 1)))
              (VDate (Some (utc 2024 1 5))) "day" [] four_days_object four_days_store
              (Some 0)) as (Hs & Hb & _); [vm_compute; reflexivity|].
  split; [exact Hs|exact Hb].
Defined.

Lemma end_date_is_a_boundary_object_witness :
  Heap.end_ four_days_object
    (Heap.setTime (Heap.o_end four_days_object) (Some 0) four_days_store) = Some 0
  /\ exists s,
       Heap.boundaries four_days_object
         (Heap.setTime (Heap.o_end four_days_object) (Some 0) four_days_store)
       = Some <$> (removelast (segments s) ++ [0]).
Proof.
  destruct (end_date_is_a_boundary_object no_parse (VDate (Some (utc 2024 1 1)))
              (VDate (Some (utc 2024 1 5))) "day" [] four_days_object four_days_store
              (Some 0) 0) as (s & _ & He & _ & _ & Hb & _);
    [vm_compute; reflexivity|reflexivity|].
  split; [exact He|]. exists s. exact Hb.
Defined.

(** The earlier variant on the four days, in the empty store: the cursor
    and the end hold the same instant, and the flag is false. *)
Lemma variant_flag_is_never_true_witness :
  Variant.DateRangeIntervals_objects no_parse (VDate (Some (utc 2024 1 1)))
    (VDate (Some (utc 2024 1 5))) "day" [] = Normal (variant_four_days_object, four_days_store)
  /\ Heap.getTime four_days_store 2 = Heap.getTime four_days_store 1
  /\ Variant.o_isCongruentPartition variant_four_days_object = false.
Proof.
  assert (Variant.DateRangeIntervals_objects no_parse (VDate (Some (utc 2024 1 1)))
            (VDate (Some (utc 2024 1 5))) "day" []
          = Normal (variant_four_days_object, four_days_store)) as H
    by (vm_compute; reflexivity).
  split; [exact H|]. split; [reflexivity|].
  exact (proj1 (variant_flag_is_never_true no_parse _ _ _ _ _ _ H)).
Defined.

Lemma variant_checks_no_dates_witness :
  (exists s,
     Variant.DateRangeIntervals no_parse (VDate (Some (utc 2024 1 5)))
       (VDate (Some (utc 2024 1 1))) "day" = Normal s
     /\ Variant.length_ s = 0)
  /\ Variant.DateRangeIntervals no_parse (VDate None) (VDate (Some (utc 2024 1 1))) "day"
     = Throw (JSError "RangeError" "Invalid time value").
Proof.
  split.
  - destruct (proj1 (variant_checks_no_dates no_parse (VDate (Some (utc 2024 1 5)))
                       (VDate (Some (utc 2024 1 1))) "day" Day_ eq_refl)
                (utc 2024 1 5) (utc 2024 1 1)) as (s & Hs & _ & Hlen & _);
      [reflexivity|reflexivity|vm_compute; discriminate|].
    exists s. split; assumption.
  - apply (proj2 (variant_checks_no_dates no_parse (VDate None)
                    (VDate (Some (utc 2024 1 1))) "day" Day_ eq_refl)).
    left. reflexivity.
Defined.

Lemma variant_builds_the_same_boundaries_witness :
  exists s',
    Variant.DateRangeIntervals no_parse (VDate (Some (utc 2024 1 1)))
      (VDate (Some (utc 2024 1 5))) "day" = Normal s'
    /\ Variant.segments s' = Some <$> segments four_days.
Proof.
  destruct (variant_builds_the_same_boundaries no_parse (VDate (Some (utc 2024 1 1)))
              (VDate (Some (utc 2024 1 5))) "day" four_days)
    as (s' & Hs' & Hsegs & _); [vm_compute; reflexivity|].
  exists s'. split; assumption.
Defined.

Lemma variant_yields_the_boundaries_themselves_witness :
  Variant.end_ (Variant.write (Variant.next variant_four_days 0).1 1%nat (Some 0)) = Some 0
  /\ forall s3 y,
       Variant.next (Variant.write (Variant.next variant_four_days 0).1 1%nat (Some 0)) 1%nat
       = (s3, Some y) ->
       Variant.start s3 = Some 0.
Proof.
  destruct (variant_yields_the_boundaries_themselves variant_four_days 0%nat
              (Variant.next variant_four_days 0).1 0%nat 1%nat (Some 0))
    as (_ & _ & _ & _ & Hend & Hnext); [reflexivity|].
  split; [exact Hend|exact Hnext].
Defined.

Lemma variant_stops_at_the_first_error_witness :
  exists arg' tr e iv,
    Variant.accept no_parse variant_four_days (Instance failing_visitor)
    = Some (arg', tr, Rejected e)
    /\ calls tr = [([0%nat], 0, iv)].
Proof.
  destruct (variant_stops_at_the_first_error no_parse failing_visitor
              (VDate (Some (utc 2024 1 1))) (VDate (Some (utc 2024 1 5))) "day"
              variant_four_days)
    as (arg' & tr & e & iv & Hacc & Hcalls & _).
  - vm_compute; reflexivity.
  - vm_compute; discriminate.
  - intros v iv. eexists. reflexivity.
  - exists arg', tr, e, iv. split; assumption.
Defined.
